(** * Lumo-Agent: the agent orchestration engine and the persistent shell

    A shallow embedding of the Python sources

      - [agents/base.py]          (Step, AgentContext, AgentResult, clean_output)
      - [agents/prompts.py]       (pattern tables, check_fatal_error)
      - [agents/executor.py]      (ExecutorAgent)
      - [agents/repair.py]        (RepairAgent)
      - [agents/planner.py], [agents/router.py], [agents/chat.py],
        [agents/summary.py]
      - [agents/orchestrator.py]  (AgentOrchestrator.run)
      - [shell/manager.py]        (ShellManager)

    Conventions of the embedding.

    - A Python [str] is a Rocq [string] holding its UTF-8 bytes.  Substring
      search, [replace], [split] on an ASCII separator and the regular
      expressions of the sources (whose classes are ASCII) give the same
      answers on the bytes as on the code points.  Case mapping
      ([lower]/[upper]), white space ([strip], [\s]) and line boundaries
      ([splitlines]) are those of the ASCII range, and a slice [s[:n]]
      counts bytes.
    - The injected capabilities [ctx.llm] and [ctx.shell] are oracles: every
      call reads the answer stored at the current value of a call counter kept
      beside the context, so a theorem quantified over the oracle covers every
      behaviour of the language model and of the terminal.
    - A Python exception raised by a call is a value of a sum type.
    - A Python [float] is an IEEE 754 binary64 number ([spec_float] at
      precision 53). *)

From Stdlib Require Import String Ascii List Bool Arith PeanoNat Lia.
From Stdlib Require Import ZArith Floats.SpecFloat.
Import ListNotations.
Local Open Scope string_scope.
Local Open Scope bool_scope.

(* ================================================================== *)
(** * Python string primitives *)
(* ================================================================== *)

Module PyStr.

Definition ESC : ascii := "027"%char.
Definition BEL : ascii := "007"%char.
Definition LF  : ascii := "010"%char.
Definition CR  : ascii := "013"%char.

Definition code (c : ascii) : nat := nat_of_ascii c.

Definition in_range (lo hi c : ascii) : bool :=
  Nat.leb (code lo) (code c) && Nat.leb (code c) (code hi).

Fixpoint mem (c : ascii) (chars : string) : bool :=
  match chars with
  | EmptyString => false
  | String d rest => Ascii.eqb c d || mem c rest
  end.

Fixpoint map_str (f : ascii -> ascii) (s : string) : string :=
  match s with
  | EmptyString => EmptyString
  | String c rest => String (f c) (map_str f rest)
  end.

Definition lower_char (c : ascii) : ascii :=
  if in_range "A" "Z" c then ascii_of_nat (code c + 32) else c.

Definition upper_char (c : ascii) : ascii :=
  if in_range "a" "z" c then ascii_of_nat (code c - 32) else c.

(** [s.lower()] and [s.upper()]. *)
Definition lower : string -> string := map_str lower_char.
Definition upper : string -> string := map_str upper_char.

(** [c.isspace()]: TAB LF VT FF CR, FS GS RS US, and the blank. *)
Definition isspace (c : ascii) : bool :=
  in_range "009" "013" c || in_range "028" "031" c || Ascii.eqb c " ".

Fixpoint lstrip_by (p : ascii -> bool) (s : string) : string :=
  match s with
  | EmptyString => EmptyString
  | String c rest => if p c then lstrip_by p rest else s
  end.

Fixpoint rstrip_by (p : ascii -> bool) (s : string) : string :=
  match s with
  | EmptyString => EmptyString
  | String c rest =>
      match rstrip_by p rest with
      | EmptyString => if p c then EmptyString else String c EmptyString
      | r => String c r
      end
  end.

Definition strip_by (p : ascii -> bool) (s : string) : string :=
  rstrip_by p (lstrip_by p s).

(** [s.strip()], [s.lstrip(chars)], [s.strip(chars)]. *)
Definition strip : string -> string := strip_by isspace.
Definition lstrip_chars (chars s : string) : string :=
  lstrip_by (fun c => mem c chars) s.
Definition strip_chars (chars s : string) : string :=
  strip_by (fun c => mem c chars) s.

(** [s.startswith(p)]. *)
Definition startswith (p s : string) : bool := String.prefix p s.

(** [sub in s]. *)
Fixpoint contains (sub s : string) : bool :=
  String.prefix sub s ||
  match s with
  | EmptyString => false
  | String _ rest => contains sub rest
  end.

Fixpoint drop (n : nat) (s : string) : string :=
  match n, s with
  | S k, String _ rest => drop k rest
  | _, _ => s
  end.

(** [s.replace(old, new)] for a non-empty [old] (every call site passes a
    non-empty literal): one scan from the left; at an occurrence of [old]
    the text [new] is written and the scan resumes behind the occurrence.
    [skip] counts the characters of the occurrence still to pass over. *)
Fixpoint replace_from (old new : string) (skip : nat) (s : string) : string :=
  match s with
  | EmptyString => EmptyString
  | String c rest =>
      match skip with
      | S k => replace_from old new k rest
      | O =>
          if String.prefix old s
          then new ++ replace_from old new (String.length old - 1) rest
          else String c (replace_from old new 0 rest)
      end
  end.

Definition replace (old new s : string) : string := replace_from old new 0 s.

(** [s.split(sep, 1)] for a non-empty [sep]: [Some (before, after)] at the
    first occurrence, [None] (a list of length one in Python) without one. *)
Fixpoint split_once (sep s : string) : option (string * string) :=
  if String.prefix sep s then Some (EmptyString, drop (String.length sep) s)
  else
    match s with
    | EmptyString => None
    | String c rest =>
        match split_once sep rest with
        | Some (a, b) => Some (String c a, b)
        | None => None
        end
    end.

(** Line boundaries of [s.splitlines()]: LF, CR, CR LF, VT, FF, FS, GS, RS. *)
Definition is_linebreak (c : ascii) : bool :=
  in_range "010" "013" c || in_range "028" "030" c.

Fixpoint splitlines_from (line : string) (s : string) : list string :=
  match s with
  | EmptyString =>
      match line with EmptyString => [] | _ => [line] end
  | String c rest =>
      if is_linebreak c then
        match rest with
        | String d rest' =>
            if Ascii.eqb c CR && Ascii.eqb d LF
            then line :: splitlines_from EmptyString rest'
            else line :: splitlines_from EmptyString rest
        | EmptyString => [line]
        end
      else splitlines_from (line ++ String c EmptyString) rest
  end.

Definition splitlines (s : string) : list string :=
  splitlines_from EmptyString s.

(** [sep.join(parts)]. *)
Fixpoint join (sep : string) (parts : list string) : string :=
  match parts with
  | [] => EmptyString
  | [p] => p
  | p :: ps => p ++ sep ++ join sep ps
  end.

(** [str(n)] for a natural number. *)
Definition digit (n : nat) : ascii := ascii_of_nat (48 + n).

Fixpoint str_of_nat_fuel (fuel n : nat) (acc : string) : string :=
  match fuel with
  | O => acc
  | S f =>
      let acc' := String (digit (n mod 10)) acc in
      if Nat.ltb n 10 then acc' else str_of_nat_fuel f (n / 10) acc'
  end.

Definition str_of_nat (n : nat) : string := str_of_nat_fuel (S n) n EmptyString.

(** [s[:n]]. *)
Fixpoint take (n : nat) (s : string) : string :=
  match n, s with
  | S k, String c rest => String c (take k rest)
  | _, _ => EmptyString
  end.

End PyStr.

(* ================================================================== *)
(** * Regular expressions ([re.search], [re.sub]) *)
(* ================================================================== *)

Module Re.
Import PyStr.

(** The constructs the sources' patterns use. *)
Inductive regex : Type :=
| Eps  : regex
| Chr  : ascii -> regex
| Cls  : (ascii -> bool) -> regex      (* a character class *)
| Seq  : regex -> regex -> regex
| Alt  : regex -> regex -> regex       (* [a|b]: [a] is tried first *)
| Star : regex -> regex                (* greedy [*] *)
| Eol  : regex.                        (* [$] *)

Definition Plus (r : regex) : regex := Seq r (Star r).
Definition Opt (r : regex) : regex := Alt r Eps.

(** [.]: any character but a newline. *)
Definition Dot : regex := Cls (fun c => negb (Ascii.eqb c LF)).
(** [\s]. *)
Definition Ws : regex := Cls isspace.

Fixpoint lit (s : string) : regex :=
  match s with
  | EmptyString => Eps
  | String c rest => Seq (Chr c) (lit rest)
  end.

Definition or_else {A} (x y : option A) : option A :=
  match x with Some _ => x | None => y end.

(** Backtracking match of [r] at the head of [s]; [k] receives what is left
    of [s].  The alternatives are explored in the order of Python's engine
    (left alternative first, longest repetition first), so the first success
    is the match [re] reports.  [$] holds at the end of the text and before
    a final newline.  A repetition stops when its body consumed nothing. *)
Fixpoint exec (r : regex) (s : string) (k : string -> option string)
  {struct r} : option string :=
  match r with
  | Eps => k s
  | Chr c =>
      match s with
      | String d rest => if Ascii.eqb c d then k rest else None
      | EmptyString => None
      end
  | Cls p =>
      match s with
      | String d rest => if p d then k rest else None
      | EmptyString => None
      end
  | Seq r1 r2 => exec r1 s (fun s1 => exec r2 s1 k)
  | Alt r1 r2 => or_else (exec r1 s k) (exec r2 s k)
  | Star r1 =>
      (fix loop (n : nat) (s : string) {struct n} : option string :=
         match n with
         | O => k s
         | S n' =>
             or_else
               (exec r1 s (fun s1 =>
                  if Nat.ltb (String.length s1) (String.length s) then loop n' s1
                  else None))
               (k s)
         end) (String.length s) s
  | Eol =>
      match s with
      | EmptyString => k s
      | String c EmptyString => if Ascii.eqb c LF then k s else None
      | _ => None
      end
  end.

(** [r.match(s)] at the head of [s]: the text left behind the match. *)
Definition match_at (r : regex) (s : string) : option string :=
  exec r s (fun rest => Some rest).

(** [re.search(r, s)] as a truth value. *)
Fixpoint search (r : regex) (s : string) : bool :=
  match match_at r s with
  | Some _ => true
  | None =>
      match s with
      | EmptyString => false
      | String _ rest => search r rest
      end
  end.

(** [r.sub('', s)]: the leftmost non-overlapping matches are deleted in one
    scan.  [skip] counts the characters of the current match still to drop;
    an empty match deletes nothing. *)
Fixpoint sub_from (r : regex) (skip : nat) (s : string) : string :=
  match s with
  | EmptyString => EmptyString
  | String c rest =>
      match skip with
      | S k => sub_from r k rest
      | O =>
          match match_at r s with
          | Some behind =>
              match String.length s - String.length behind with
              | O => String c (sub_from r 0 rest)
              | S m => sub_from r m rest
              end
          | None => String c (sub_from r 0 rest)
          end
      end
  end.

Definition sub_empty (r : regex) (s : string) : string := sub_from r 0 s.

End Re.

(* ================================================================== *)
(** * agents/base.py *)
(* ================================================================== *)

Module Base.
Import PyStr Re.

(** [ANSI_ESCAPE_RE]:
    [\x1b\[[0-9;]*[a-zA-Z]|\x1b\][^\x07]*\x07|\]0;[^\x07\n]*]. *)
Definition ANSI_ESCAPE_RE : regex :=
  Alt (Seq (Chr ESC) (Seq (Chr "[")
         (Seq (Star (Cls (fun c => in_range "0" "9" c || Ascii.eqb c ";")))
              (Cls (fun c => in_range "a" "z" c || in_range "A" "Z" c)))))
 (Alt (Seq (Chr ESC) (Seq (Chr "]")
         (Seq (Star (Cls (fun c => negb (Ascii.eqb c BEL)))) (Chr BEL))))
      (Seq (lit "]0;")
         (Star (Cls (fun c => negb (Ascii.eqb c BEL || Ascii.eqb c LF)))))).

(** [clean_output]: the second-layer cleaner the Executor applies. *)
Definition clean_output (text : string) : string :=
  let cleaned := sub_empty ANSI_ESCAPE_RE text in
  let cleaned := replace (String BEL "") "" (replace (String ESC "") "" cleaned) in
  strip cleaned.

Inductive Status : Type := pending | running | done | failed.

Definition Status_eqb (a b : Status) : bool :=
  match a, b with
  | pending, pending | running, running | done, done | failed, failed => true
  | _, _ => false
  end.

Record Step : Type := mkStep {
  title   : string;
  command : option string;          (* [Optional[str] = None] *)
  status  : Status;                 (* default [pending] *)
  output  : string;
  error   : string
}.

(** [Step(title=t, command=c)]. *)
Definition new_step (t c : string) : Step := mkStep t (Some c) pending "" "".

Definition set_status (s : Step) (v : Status) : Step :=
  mkStep (title s) (command s) v (output s) (error s).
Definition set_output (s : Step) (v : string) : Step :=
  mkStep (title s) (command s) (status s) v (error s).
Definition set_error (s : Step) (v : string) : Step :=
  mkStep (title s) (command s) (status s) (output s) v.

(** What the stream callback receives.  The content of a [tasks] event is the
    JSON rendering of the steps; the event carries the steps themselves. *)
Inductive Event : Type :=
| EvTasks : list Step -> Event
| Ev : string -> string -> Event.      (* kind, content *)

(** A Python exception, by its message. *)
Definition Exn : Type := string.

(** How a block of Python ends: with a value, or with a raised [Exception]. *)
Inductive Outcome (A : Type) : Type :=
| Returns : A -> Outcome A
| Raised  : Exn -> Outcome A.
Arguments Returns {A} _.
Arguments Raised {A} _.

(** The stream callback: called with an event, it returns ([None]) or raises. *)
Definition StreamCallback : Type := Event -> option Exn.

Record AgentContext : Type := mkCtx {
  goal    : string;
  memory  : list (string * string);    (* role, content *)
  steps   : list Step;
  outputs : list string;
  current_step_idx : nat;
  retry_count : nat;
  max_retries : nat;
  replan_count : nat;
  max_replans : nat;
  last_failure_reason : string;
  emit_cb : option StreamCallback;     (* [ctx.emit] *)
  (* bookkeeping of the embedding *)
  emitted : list Event;                (* the calls made to [ctx.emit], in order *)
  clock   : nat                        (* calls made to [ctx.llm] and [ctx.shell] *)
}.

(** [AgentContext(goal=..., memory=..., emit=..., max_retries=...)] with the
    dataclass defaults for the rest. *)
Definition new_context (g : string) (mem : list (string * string))
    (cb : option StreamCallback) (maxr : nat) : AgentContext :=
  mkCtx g mem [] [] 0 0 maxr 0 3 "" cb [] 0.

Definition set_memory (c : AgentContext) (v : list (string * string)) :=
  mkCtx (goal c) v (steps c) (outputs c) (current_step_idx c) (retry_count c)
        (max_retries c) (replan_count c) (max_replans c) (last_failure_reason c)
        (emit_cb c) (emitted c) (clock c).
Definition set_steps (c : AgentContext) (v : list Step) :=
  mkCtx (goal c) (memory c) v (outputs c) (current_step_idx c) (retry_count c)
        (max_retries c) (replan_count c) (max_replans c) (last_failure_reason c)
        (emit_cb c) (emitted c) (clock c).
Definition set_outputs (c : AgentContext) (v : list string) :=
  mkCtx (goal c) (memory c) (steps c) v (current_step_idx c) (retry_count c)
        (max_retries c) (replan_count c) (max_replans c) (last_failure_reason c)
        (emit_cb c) (emitted c) (clock c).
Definition set_current_step_idx (c : AgentContext) (v : nat) :=
  mkCtx (goal c) (memory c) (steps c) (outputs c) v (retry_count c)
        (max_retries c) (replan_count c) (max_replans c) (last_failure_reason c)
        (emit_cb c) (emitted c) (clock c).
Definition set_retry_count (c : AgentContext) (v : nat) :=
  mkCtx (goal c) (memory c) (steps c) (outputs c) (current_step_idx c) v
        (max_retries c) (replan_count c) (max_replans c) (last_failure_reason c)
        (emit_cb c) (emitted c) (clock c).
Definition set_replan_count (c : AgentContext) (v : nat) :=
  mkCtx (goal c) (memory c) (steps c) (outputs c) (current_step_idx c)
        (retry_count c) (max_retries c) v (max_replans c) (last_failure_reason c)
        (emit_cb c) (emitted c) (clock c).
Definition set_last_failure_reason (c : AgentContext) (v : string) :=
  mkCtx (goal c) (memory c) (steps c) (outputs c) (current_step_idx c)
        (retry_count c) (max_retries c) (replan_count c) (max_replans c) v
        (emit_cb c) (emitted c) (clock c).
Definition set_emitted (c : AgentContext) (v : list Event) :=
  mkCtx (goal c) (memory c) (steps c) (outputs c) (current_step_idx c)
        (retry_count c) (max_retries c) (replan_count c) (max_replans c)
        (last_failure_reason c) (emit_cb c) v (clock c).
Definition tick (c : AgentContext) :=
  mkCtx (goal c) (memory c) (steps c) (outputs c) (current_step_idx c)
        (retry_count c) (max_retries c) (replan_count c) (max_replans c)
        (last_failure_reason c) (emit_cb c) (emitted c) (S (clock c)).

(** [ctx.memory.append({"role": role, "content": content})]. *)
Definition memory_append (c : AgentContext) (role content : string) :=
  set_memory c (memory c ++ [(role, content)]).

(** [ctx.get_current_step()]. *)
Definition get_current_step (c : AgentContext) : option Step :=
  nth_error (steps c) (current_step_idx c).

(** [ctx.steps[i] = s] for the step object at index [i], mutated in place. *)
Fixpoint list_set {A} (l : list A) (i : nat) (v : A) : list A :=
  match l, i with
  | [], _ => []
  | _ :: t, O => v :: t
  | h :: t, S j => h :: list_set t j v
  end.

Definition update_step (c : AgentContext) (i : nat) (f : Step -> Step) :=
  match nth_error (steps c) i with
  | Some s => set_steps c (list_set (steps c) i (f s))
  | None => c
  end.

(** [AgentResult]; its [data] dictionary, which nothing reads, is left out. *)
Record AgentResult : Type := mkResult {
  success    : bool;
  next_agent : option string;
  message    : string
}.

(** [BaseAgent.emit]: without a callback nothing happens; with one it is
    called, and an exception it raises is logged and dropped. *)
Definition emit (c : AgentContext) (kind content : string) : AgentContext :=
  match emit_cb c with
  | Some _ => set_emitted c (emitted c ++ [Ev kind content])
  | None => c
  end.

(** [BaseAgent.emit_tasks]. *)
Definition emit_tasks (c : AgentContext) : AgentContext :=
  match emit_cb c with
  | Some _ => set_emitted c (emitted c ++ [EvTasks (steps c)])
  | None => c
  end.

(** The answers of the injected capabilities. *)
Inductive Reply : Type :=
| Text   : string -> Reply        (* the call returns this text *)
| Raises : Exn -> Reply.          (* the call raises an [Exception] *)

Inductive ShellOutcome : Type :=
| ShOutput  : string -> ShellOutcome    (* [run_command] returns *)
| ShTimeout : Exn -> ShellOutcome       (* it raises [TimeoutError] *)
| ShError   : Exn -> ShellOutcome.      (* it raises another [Exception] *)

Record Oracle : Type := mkOracle {
  llm_complete : nat -> Reply;                   (* [ctx.llm.complete_async] *)
  (* [ctx.shell.run_command(command, handlers=..., timeout=...)] *)
  shell_run    : nat -> string -> list (string * string) -> nat -> ShellOutcome;
  shell_start  : nat -> option Exn               (* [ctx.shell.start()] *)
}.

End Base.

(* ================================================================== *)
(** * agents/prompts.py *)
(* ================================================================== *)

Module Prompts.
Import PyStr Re.

Definition FATAL_ERROR_PATTERNS : list string :=
  [ "command not found"; "未找到命令"; "No such file or directory";
    "没有那个文件或目录"; "Permission denied"; "权限不够"; "拒绝访问";
    "Operation not permitted"; "unable to locate package";
    "No package .* available"; "E: Unable to"; "E: Package"; "fatal:";
    "Fatal:"; "FATAL:"; "Cannot allocate memory"; "No space left on device";
    "Read-only file system"; "Unit .* not found"; "Failed to start";
    "Failed to enable"; "Job for .* failed" ].

Definition SUCCESS_PATTERNS : list string :=
  [ "Complete!"; "完成"; "Successfully"; "成功"; "is already installed";
    "已安装"; "already the newest version"; "已经是最新版"; "nothing to do";
    "无需处理"; "Nothing to do"; "is newest version";
    "Active: active (running)"; "active (running)"; "active (exited)";
    "enabled"; "Created symlink"; "Loaded: loaded"; "Dependencies resolved";
    "Running transaction"; "Installed:"; "Upgraded:" ].

(** [re.compile] on the syntax the table uses: ordinary characters, [.] and
    a postfix [*].  [None] is [re.error]: a [*] with nothing to repeat, or a
    second [*].  The other metacharacters occur in no entry of the table and
    are not represented (the reading stops with [None] there too). *)
Definition other_meta (c : ascii) : bool := mem c "+?()[]{}|^$\".

Fixpoint re_compile (p : string) : option regex :=
  match p with
  | EmptyString => Some Eps
  | String c rest =>
      if Ascii.eqb c "*" || other_meta c then None
      else
        let atom := if Ascii.eqb c "." then Dot else Chr c in
        match rest with
        | String "*" rest' => option_map (Seq (Star atom)) (re_compile rest')
        | _ => option_map (Seq atom) (re_compile rest)
        end
  end.

(** One turn of the loop over the fatal patterns:
    [re.search(pattern.lower(), output_lower)], and the literal test when the
    pattern does not compile. *)
Definition pattern_hits (pattern output_lower : string) : bool :=
  match re_compile (lower pattern) with
  | Some r => search r output_lower
  | None => contains (lower pattern) output_lower
  end.

Definition check_fatal_error (output : string) : bool :=
  let output_lower := lower output in
  if existsb (fun p => contains (lower p) output_lower) SUCCESS_PATTERNS
  then false
  else existsb (fun p => pattern_hits p output_lower) FATAL_ERROR_PATTERNS.

Definition error_keywords : list string :=
  [ "error"; "failed"; "denied"; "not found"; "unable"; "cannot" ].

Definition last3 {A} (l : list A) : list A := skipn (List.length l - 3) l.

Definition extract_error_message (output : string) : string :=
  let lines := splitlines (strip output) in
  match find (fun line =>
                existsb (fun kw => contains kw (lower line)) error_keywords)
             lines with
  | Some line => take 200 (strip line)
  | None => take 300 (join (String LF "") (last3 lines))
  end.

End Prompts.

(* ================================================================== *)
(** * agents/executor.py *)
(* ================================================================== *)

Module Executor.
Import PyStr Re Base Prompts.

(** ** Timeouts and interactive handlers *)

Definition any_in (needles : list string) (s : string) : bool :=
  existsb (fun n => contains n s) needles.

(** [_get_timeout], in seconds. *)
Definition _get_timeout (command : string) : nat :=
  if any_in ["apt"; "yum"; "dnf"; "pip"; "npm"; "wget"; "curl"; "git clone"]
            command then 180
  else if contains "systemctl" command then 60
  else if any_in ["make"; "cmake"; "configure"; "build"] command then 300
  else 60.

(** [_get_handlers]: (pattern, response) pairs. *)
Definition _get_handlers (command : string) : list (string * string) :=
  (if any_in ["apt"; "yum"; "dnf"] command
   then [ ("Do you want to continue\? \[Y/n\]", "y");
          ("是否继续.*\[Y/n\]", "y");
          ("Is this ok \[y/N\]", "y");
          ("Is this ok \[y/d/N\]", "y");
          ("\[Y/n\]", "y");
          ("\[y/N\]", "y") ]
   else [])
  ++ (if any_in ["mysql"; "mariadb"] command
      then [ ("Enter password:", ""); ("Password:", "") ] else [])
  ++ (if contains "rm" command
      then [ ("remove.*\?", "y"); ("是否删除", "y") ] else [])
  ++ (if any_in ["ssh"; "scp"] command
      then [ ("Are you sure you want to continue connecting", "yes");
             ("password:", "") ]
      else [])
  ++ (if contains "git" command
      then [ ("Username for", ""); ("Password for", "") ] else []).

(** ** The catastrophic-command gate *)

(** [rm\s+(-[rf]+\s+)+], the head shared by the gate's patterns. *)
Definition RM_FLAGS : regex :=
  Seq (lit "rm")
   (Seq (Plus Ws)
        (Plus (Seq (Chr "-")
                (Seq (Plus (Cls (fun c => mem c "rf"))) (Plus Ws))))).

(** [rm\s+(-[rf]+\s+)+/\s*$] *)
Definition RE_ROOT_END : regex :=
  Seq RM_FLAGS (Seq (Chr "/") (Seq (Star Ws) Eol)).

(** [rm\s+(-[rf]+\s+)+/\s*&&] *)
Definition RE_ROOT_AND : regex :=
  Seq RM_FLAGS (Seq (Chr "/") (Seq (Star Ws) (lit "&&"))).

(** [rm\s+(-[rf]+\s+)+{re.escape(path)}/?(\s|$|&&|\|)]; the paths hold no
    character [re.escape] changes. *)
Definition RE_CRITICAL (path : string) : regex :=
  Seq RM_FLAGS
   (Seq (lit path)
     (Seq (Opt (Chr "/"))
          (Alt Ws (Alt Eol (Alt (lit "&&") (Chr "|")))))).

Definition critical_paths : list string :=
  [ "/bin"; "/sbin"; "/usr"; "/lib"; "/lib64"; "/boot"; "/etc" ].

Definition _is_catastrophic (command : string) : bool :=
  let cmd_lower := replace " " "" (lower command) in
  if (contains "rm" cmd_lower
      && (contains "-rf" cmd_lower || contains "-fr" cmd_lower
          || contains "-r" cmd_lower))
     && (contains "rm-rf/" (replace " " "" cmd_lower)
         || contains "rm-fr/" (replace " " "" cmd_lower))
     && (search RE_ROOT_END command || search RE_ROOT_AND command)
  then true
  else if contains "mkfs" cmd_lower && contains "/dev/" command then true
  else if contains "dd" cmd_lower && contains "of=/dev/" command then true
  else if contains ">/dev/sd" cmd_lower || contains ">/dev/nvme" cmd_lower
  then true
  else if contains ":(){" command || contains ":()" command then true
  else
    (contains "rm" cmd_lower
     && (contains "-rf" cmd_lower || contains "-fr" cmd_lower))
    && existsb (fun path => search (RE_CRITICAL path) command) critical_paths.

(** ** Goal-completion evaluation *)

Definition count_status (st : Status) (l : list Step) : nat :=
  List.length (filter (fun s => Status_eqb (status s) st) l).

(** The [float] literal [0.7]: the binary64 number nearest to 7/10. *)
Definition float_0_7 : spec_float :=
  S754_finite false 6305039478318694 (-53).

Definition float_of_nat (n : nat) : spec_float :=
  binary_normalize 53 1024 (Z.of_nat n) 0 false.

(** [done_count >= n * 0.7] with [n = len(ctx.steps)]. *)
Definition ge_len_times_0_7 (done_count n : nat) : bool :=
  match SFcompare (float_of_nat done_count)
                  (SFmul 53 1024 (float_of_nat n) float_0_7) with
  | Some Gt | Some Eq => true
  | _ => false
  end.

Section WithOracle.
Variable orc : Oracle.

(** [_evaluate_goal_completion].  The prompt (goal and execution summary)
    only reaches the language model, whose answer is the oracle's. *)
Definition _evaluate_goal_completion (c : AgentContext)
  : AgentContext * string :=
  let done_count := count_status done (steps c) in
  let failed_count := count_status failed (steps c) in
  match llm_complete orc (clock c) with
  | Text result =>
      let result := upper (strip result) in
      if startswith "COMPLETED" result then (tick c, "COMPLETED")
      else if startswith "INCOMPLETE" result then (tick c, result)
      else if startswith "BLOCKED" result then (tick c, result)
      else if ge_len_times_0_7 done_count (List.length (steps c))
           then (tick c, "COMPLETED")
           else (tick c, "INCOMPLETE:部分步骤失败")
  | Raises _ =>
      if Nat.eqb failed_count 0 then (tick c, "COMPLETED")
      else if Nat.ltb failed_count done_count then (tick c, "COMPLETED")
      else (tick c, "INCOMPLETE:执行失败")
  end.

(** ** One step *)

(** [_execute_step(ctx, step)] for the step object at index [i]. *)
Definition _execute_step (c : AgentContext) (i : nat) (cmd : string)
  : AgentContext * bool :=
  let handlers := _get_handlers cmd in
  let timeout := _get_timeout cmd in
  match shell_run orc (clock c) cmd handlers timeout with
  | ShOutput raw_output =>
      let out := clean_output raw_output in
      let c := update_step (tick c) i (fun s => set_output s out) in
      let c := emit c "terminal" out in
      let c := emit c "log" ("输出: " ++ take 300 out) in
      if check_fatal_error out
      then (update_step c i (fun s => set_error s (extract_error_message out)),
            false)
      else (c, true)
  | ShTimeout e =>
      let c := update_step (tick c) i (fun s => set_error s ("命令超时: " ++ e)) in
      (emit c "log" ("超时: " ++ cmd), false)
  | ShError e =>
      let c := update_step (tick c) i (fun s => set_error s e) in
      (emit c "log" ("失败: " ++ e), false)
  end.

Definition BLOCKED_ERROR : string :=
  "系统安全保护：此命令可能导致系统不可恢复，已被阻止".

(** The body of the [while] loop of [run]; [Some r] is [return r]. *)
Definition exec_iter (c : AgentContext) : AgentContext * option AgentResult :=
  let i := current_step_idx c in
  match nth_error (steps c) i with
  | None => (c, None)
  | Some step =>
      let c := update_step c i (fun s => set_status s running) in
      let c := emit_tasks c in
      let c := emit c "log" ("开始: " ++ title step) in
      match command step with
      | None | Some EmptyString =>
          let c := update_step c i (fun s =>
                     set_error (set_status s failed) "缺少可执行命令") in
          let c := emit_tasks c in
          (set_current_step_idx c (i + 1), None)
      | Some cmd =>
          if _is_catastrophic cmd then
            let c := update_step c i (fun s =>
                       set_error (set_status s failed) BLOCKED_ERROR) in
            let c := emit c "log" ("安全阻止: " ++ cmd) in
            let c := emit_tasks c in
            (set_current_step_idx c (i + 1), None)
          else
            let (c, ok) := _execute_step c i cmd in
            if ok then
              let c := update_step c i (fun s => set_status s done) in
              let out := match nth_error (steps c) i with
                         | Some s => output s | None => "" end in
              let c := set_outputs c
                         (outputs c ++ ["[" ++ title step ++ "]" ++ String LF out]) in
              let c := emit_tasks c in
              (set_retry_count (set_current_step_idx c (i + 1)) 0, None)
            else
              let c := update_step c i (fun s => set_status s failed) in
              let c := emit_tasks c in
              let err := match nth_error (steps c) i with
                         | Some s => error s | None => "" end in
              if Nat.ltb (retry_count c) (max_retries c) then
                (c, Some (mkResult false (Some "RepairAgent")
                                   ("Step failed: " ++ err)))
              else
                (set_retry_count (set_current_step_idx c (i + 1)) 0, None)
      end
  end.

(** [while ctx.current_step_idx < len(ctx.steps): ...].  Every turn of the
    loop returns or moves the index forward, so [len - idx] turns exhaust it
    (lemma [exec_loop_exit] below). *)
Fixpoint exec_loop (fuel : nat) (c : AgentContext)
  : AgentContext * option AgentResult :=
  match fuel with
  | O => (c, None)
  | S f =>
      if Nat.ltb (current_step_idx c) (List.length (steps c)) then
        match exec_iter c with
        | (c', Some r) => (c', Some r)
        | (c', None) => exec_loop f c'
        end
      else (c, None)
  end.

(** The tail of [run]: what is done with the evaluation. *)
Definition handle_evaluation (c : AgentContext) (evaluation : string)
  : AgentContext * AgentResult :=
  if startswith "COMPLETED" evaluation then
    (c, mkResult true (Some "SummaryAgent") "Goal completed")
  else if startswith "INCOMPLETE" evaluation then
    let reason := match split_once ":" evaluation with
                  | Some (_, r) => r
                  | None => "目标未完成"
                  end in
    let c := if String.eqb reason (last_failure_reason c)
             then set_replan_count c (replan_count c + 1)
             else set_replan_count (set_last_failure_reason c reason) 0 in
    if Nat.ltb (replan_count c) (max_replans c) then
      let c := emit c "log" ("目标未完成: " ++ reason ++ "，尝试重新规划...") in
      let c := set_steps c [] in
      let c := set_current_step_idx c 0 in
      let c := set_retry_count c 0 in
      let c := memory_append c "assistant" ("上次执行未能完成目标：" ++ reason) in
      (c, mkResult false (Some "PlannerAgent")
                   ("Goal incomplete, replanning: " ++ reason))
    else
      let c := emit c "log" "已达到最大重试次数，结束执行" in
      (c, mkResult false (Some "SummaryAgent") "Max replans reached")
  else
    let reason := match split_once ":" evaluation with
                  | Some (_, r) => r
                  | None => "遇到无法克服的障碍"
                  end in
    let c := emit c "log" ("无法继续: " ++ reason) in
    (c, mkResult false (Some "SummaryAgent") ("Goal blocked: " ++ reason)).

(** [ExecutorAgent.run]. *)
Definition run (c : AgentContext) : AgentContext * AgentResult :=
  match exec_loop (List.length (steps c) - current_step_idx c) c with
  | (c', Some r) => (c', r)
  | (c', None) =>
      let (c'', evaluation) := _evaluate_goal_completion c' in
      handle_evaluation c'' evaluation
  end.

End WithOracle.
End Executor.

(* ================================================================== *)
(** * agents/repair.py *)
(* ================================================================== *)

Module Repair.
Import PyStr Re Base Prompts.

Fixpoint filter_map {A B} (f : A -> option B) (l : list A) : list B :=
  match l with
  | [] => []
  | x :: rest =>
      match f x with
      | Some y => y :: filter_map f rest
      | None => filter_map f rest
      end
  end.

Definition REPAIR_MARK : string := "[修复] ".

(** One turn of the loop over [suggestion.splitlines()]: [Some step] when
    the line reaches [steps.append], [None] at a [continue]. *)
Definition parse_line (line : string) : option Step :=
  let line := strip line in
  if negb (contains "::" line) then None
  else
    let line := strip (lstrip_chars "0123456789.-) " line) in
    if negb (contains "::" line) then None
    else
      match split_once "::" line with
      | None => None
      | Some (title, cmd) =>
          let cmd := strip_chars "`" (strip cmd) in
          if String.eqb cmd "" || contains "/path/to" cmd then None
          else Some (new_step (REPAIR_MARK ++ strip title) cmd)
      end.

(** The parsing half of [_generate_repair], down to [return steps[:2]]. *)
Definition parse_repair (suggestion : string) : list Step :=
  firstn 2 (filter_map parse_line (splitlines suggestion)).

(** [l.insert(i, x)]: behind the end of the list it appends. *)
Definition py_insert {A} (l : list A) (i : nat) (x : A) : list A :=
  firstn i l ++ x :: skipn i l.

(** [for i, step in enumerate(new): l.insert(at + i, step)]. *)
Fixpoint insert_each {A} (l : list A) (at_ : nat) (new : list A) : list A :=
  match new with
  | [] => l
  | x :: rest => insert_each (py_insert l at_ x) (S at_) rest
  end.

Section WithOracle.
Variable orc : Oracle.

(** [_generate_repair]: the prompt only reaches the language model; an
    exception of the call leaves the function. *)
Definition _generate_repair (c : AgentContext) : AgentContext * (Exn + list Step) :=
  match llm_complete orc (clock c) with
  | Text suggestion => (tick c, inr (parse_repair suggestion))
  | Raises e => (tick c, inl e)
  end.

(** [RepairAgent.run]. *)
Definition run (c : AgentContext) : AgentContext * AgentResult :=
  match get_current_step c with
  | None => (c, mkResult false (Some "SummaryAgent") "No step to repair")
  | Some _ =>
      let c := set_retry_count c (retry_count c + 1) in
      match _generate_repair c with
      | (c, inr []) =>
          let c := set_current_step_idx c (current_step_idx c + 1) in
          let c := set_retry_count c 0 in
          (c, mkResult false (Some "ExecutorAgent")
                       "No repair possible, skipping step")
      | (c, inr repair_steps) =>
          let n := str_of_nat (List.length repair_steps) in
          let insert_idx := current_step_idx c + 1 in
          let c := set_steps c (insert_each (steps c) insert_idx repair_steps) in
          let c := set_current_step_idx c (current_step_idx c + 1) in
          let c := emit_tasks c in
          let c := emit c "log" ("生成 " ++ n ++ " 个修复步骤") in
          (c, mkResult true (Some "ExecutorAgent")
                       ("Generated " ++ n ++ " repair steps"))
      | (c, inl e) =>
          let c := set_current_step_idx c (current_step_idx c + 1) in
          let c := set_retry_count c 0 in
          (c, mkResult false (Some "ExecutorAgent") e)
      end
  end.

End WithOracle.
End Repair.

(* ================================================================== *)
(** * agents/planner.py *)
(* ================================================================== *)

Module Planner.
Import PyStr Re Base Prompts.

Definition placeholder_patterns : list string :=
  [ "/path/to"; "xxx"; "用户名"; "文件名"; "目录名"; "服务名"; "包名";
    "your_"; "YOUR_"; "[name]"; "{name}" ].

Definition dangerous_patterns : list string :=
  [ "rm -rf /"; "rm -rf /*"; "rm -fr /"; "rm -fr /*"; "> /dev/sda";
    "mkfs."; "dd if="; ":(){:|:&};:" ].

Definition parse_line (line : string) : option Step :=
  let line := strip line in
  if negb (contains "::" line) then None
  else
    let line := strip (lstrip_chars "0123456789.-) *" line) in
    if negb (contains "::" line) then None
    else
      match split_once "::" line with
      | None => None
      | Some (title, cmd) =>
          let cmd := strip (strip_chars "`" (strip cmd)) in
          if String.eqb cmd "" then None
          else if existsb (fun p => contains p cmd) placeholder_patterns then None
          else if existsb (fun p => contains p cmd) dangerous_patterns then None
          else Some (new_step (strip title) cmd)
      end.

Section WithOracle.
Variable orc : Oracle.

(** [_generate_plan]: raises [ValueError] when no line survives. *)
Definition _generate_plan (c : AgentContext) : AgentContext * (Exn + list Step) :=
  match llm_complete orc (clock c) with
  | Text plan_text =>
      match Repair.filter_map parse_line (splitlines plan_text) with
      | [] => (tick c, inl ("无法为任务 '" ++ take 50 (goal c)
                            ++ "' 生成有效的执行计划，请尝试更具体的描述"))
      | steps => (tick c, inr steps)
      end
  | Raises e => (tick c, inl e)
  end.

(** [_generate_intro]. *)
Definition _generate_intro (c : AgentContext) : AgentContext * string :=
  match llm_complete orc (clock c) with
  | Text intro => (tick c, intro)
  | Raises _ =>
      (tick c, "好的，我将分 " ++ str_of_nat (List.length (steps c))
               ++ " 步来完成这个任务。")
  end.

(** The [except Exception] branch of [run]. *)
Definition planning_failed (c : AgentContext) (e : Exn)
  : AgentContext * AgentResult :=
  (emit c "error" ("规划失败: " ++ e), mkResult false None e).

(** [PlannerAgent.run]. *)
Definition run (c : AgentContext) : AgentContext * AgentResult :=
  match shell_start orc (clock c) with
  | Some e => planning_failed (tick c) e
  | None =>
      match _generate_plan (tick c) with
      | (c, inl e) => planning_failed c e
      | (c, inr new_steps) =>
          let c := set_steps c new_steps in
          let (c, intro) := _generate_intro c in
          let c := emit c "reply" intro in
          let c := memory_append c "assistant" intro in
          let c := emit_tasks c in
          (c, mkResult true (Some "ExecutorAgent")
                ("Plan created with " ++ str_of_nat (List.length new_steps)
                 ++ " steps"))
      end
  end.

End WithOracle.
End Planner.

(* ================================================================== *)
(** * agents/router.py, agents/chat.py, agents/summary.py *)
(* ================================================================== *)

Module Router.
Import PyStr Base.
Section WithOracle.
Variable orc : Oracle.

(** [_classify_intent]. *)
Definition _classify_intent (c : AgentContext) : AgentContext * bool :=
  match llm_complete orc (clock c) with
  | Text result => (tick c, contains "CHAT" (upper result))
  | Raises _ => (tick c, false)
  end.

(** [RouterAgent.run]. *)
Definition run (c : AgentContext) : AgentContext * AgentResult :=
  let c := memory_append c "user" (goal c) in
  let (c, is_chat) := _classify_intent c in
  if is_chat
  then (c, mkResult true (Some "ChatAgent") "Routing to ChatAgent")
  else (c, mkResult true (Some "PlannerAgent") "Routing to PlannerAgent").

End WithOracle.
End Router.

Module Chat.
Import PyStr Base.
Section WithOracle.
Variable orc : Oracle.

(** [ChatAgent.run]. *)
Definition run (c : AgentContext) : AgentContext * AgentResult :=
  match llm_complete orc (clock c) with
  | Text reply =>
      let c := emit (tick c) "reply" reply in
      let c := memory_append c "assistant" reply in
      (c, mkResult true None "Chat reply sent")
  | Raises e =>
      let c := emit (tick c) "reply" "抱歉，我暂时无法回复，请稍后再试。" in
      (c, mkResult false None e)
  end.

End WithOracle.
End Chat.

Module Summary.
Import PyStr Base.
Section WithOracle.
Variable orc : Oracle.

(** [SummaryAgent.run]; the execution log only reaches the language model. *)
Definition run (c : AgentContext) : AgentContext * AgentResult :=
  let done_count := Executor.count_status done (steps c) in
  let failed_count := Executor.count_status failed (steps c) in
  let total_count := List.length (steps c) in
  match llm_complete orc (clock c) with
  | Text summary =>
      let c := emit (tick c) "summary" summary in
      let c := memory_append c "assistant" summary in
      (c, mkResult true None "Summary generated")
  | Raises e =>
      let fallback := "执行完成。共 " ++ str_of_nat total_count ++ " 步，成功 "
                      ++ str_of_nat done_count ++ " 步，失败 "
                      ++ str_of_nat failed_count ++ " 步。" in
      let c := emit (tick c) "summary" fallback in
      (c, mkResult false None e)
  end.

End WithOracle.
End Summary.

(* ================================================================== *)
(** * agents/orchestrator.py *)
(* ================================================================== *)

Module Orchestrator.
Import PyStr Base.

(** A computation on the shared context. *)
Definition Comp (A : Type) : Type := AgentContext -> AgentContext * Outcome A.

Definition ret {A} (a : A) : Comp A := fun c => (c, Returns a).

Definition bind {A B} (m : Comp A) (k : A -> Comp B) : Comp B :=
  fun c =>
    match m c with
    | (c', Returns a) => k a c'
    | (c', Raised e) => (c', Raised e)
    end.

(** [try: body  except Exception as e: handler(e)]. *)
Definition try_except {A} (body : Comp A) (handler : Exn -> Comp A) : Comp A :=
  fun c =>
    match body c with
    | (c', Returns a) => (c', Returns a)
    | (c', Raised e) => handler e c'
    end.

Notation "x <- m ;; k" := (bind m (fun x => k))
  (at level 61, m at next level, right associativity).

(** [agent.run(ctx)] for an arbitrary agent: it mutates the context and
    returns a result or raises. *)
Definition Agent : Type := Comp AgentResult.

(** [await ctx.emit(kind, content)], the direct call of the callback. *)
Definition call_stream (cb : StreamCallback) (kind content : string) : Comp unit :=
  fun c =>
    let c' := set_emitted c (emitted c ++ [Ev kind content]) in
    match cb (Ev kind content) with
    | None => (c', Returns tt)
    | Some e => (c', Raised e)
    end.

Definition max_iterations : nat := 20.

(** What one turn of the [while] loop decides. *)
Inductive Control : Type :=
| Continue : option string -> Control     (* [current_agent = result.next_agent] *)
| Crashed : Exn -> Control.               (* the [break] of the [except] branch *)

(** The run of one turn, as the loop leaves it. *)
Record Turn : Type := mkTurn {
  ctx       : AgentContext;
  iteration : nat;
  invoked   : list string;            (* the agents whose [run] was called *)
  crashed   : option (string * Exn)   (* the agent and exception of the [except] branch *)
}.

(** A name is truthy unless it is [None] or the empty string. *)
Definition truthy (a : option string) : option string :=
  match a with
  | Some EmptyString => None
  | other => other
  end.

Section WithAgents.
(** [self.agents.get]. *)
Variable agents : string -> option Agent.

(** The [except Exception as e] branch. *)
Definition on_crash (e : Exn) : Comp Control :=
  fun c =>
    (match emit_cb c with
     | Some cb =>
         _ <- try_except (call_stream cb "error" ("Agent 错误: " ++ e))
                         (fun _ => ret tt) ;;
         ret (Crashed e)
     | None => ret (Crashed e)
     end) c.

(** The [try] statement of the loop body for a registered agent. *)
Definition invoke (agent : Agent) : Comp Control :=
  try_except
    (result <- agent ;; ret (Continue (next_agent result)))
    on_crash.

(** [while current_agent and iteration < max_iterations].  The counter grows
    by one each turn, so [max_iterations] turns exhaust the loop. *)
Fixpoint loop (fuel : nat) (current_agent : option string) (t : Turn)
  : Turn * Outcome unit :=
  match fuel with
  | O => (t, Returns tt)
  | S f =>
      match truthy current_agent with
      | None => (t, Returns tt)
      | Some name =>
          if Nat.ltb (iteration t) max_iterations then
            let it := iteration t + 1 in
            match agents name with
            | None => (mkTurn (ctx t) it (invoked t) (crashed t), Returns tt)
            | Some agent =>
                let inv := (invoked t ++ [name])%list in
                match invoke agent (ctx t) with
                | (c', Returns (Continue next)) =>
                    loop f next (mkTurn c' it inv (crashed t))
                | (c', Returns (Crashed e)) =>
                    (mkTurn c' it inv (Some (name, e)), Returns tt)
                | (c', Raised e) => (mkTurn c' it inv (crashed t), Raised e)
                end
            end
          else (t, Returns tt)
      end
  end.

(** [AgentOrchestrator.run]. *)
Definition run (goal : string) (stream : option StreamCallback)
    (memory : option (list (string * string)))
  : Turn * Outcome (list Step) :=
  let c := new_context goal (match memory with Some m => m | None => [] end)
                       stream 3 in
  match loop max_iterations (Some "RouterAgent") (mkTurn c 0 [] None) with
  | (t, Returns _) => (t, Returns (steps (ctx t)))
  | (t, Raised e) => (t, Raised e)
  end.

End WithAgents.

(** The registry built by [__init__]. *)
Definition lift (f : AgentContext -> AgentContext * AgentResult) : Agent :=
  fun c => let (c', r) := f c in (c', Returns r).

Definition registry (orc : Oracle) (name : string) : option Agent :=
  if String.eqb name "RouterAgent" then Some (lift (Router.run orc))
  else if String.eqb name "ChatAgent" then Some (lift (Chat.run orc))
  else if String.eqb name "PlannerAgent" then Some (lift (Planner.run orc))
  else if String.eqb name "ExecutorAgent" then Some (lift (Executor.run orc))
  else if String.eqb name "RepairAgent" then Some (lift (Repair.run orc))
  else if String.eqb name "SummaryAgent" then Some (lift (Summary.run orc))
  else None.

End Orchestrator.

(* ================================================================== *)
(** * shell/manager.py *)
(* ================================================================== *)

Module Shell.
Import PyStr Re Base.

Definition END_MARKER : string := "<<::CMD_DONE_7f3e9a::>>".

(** [_ansi_escape]: [\x1B(?:[@-Z\\-_]|\[[0-?]*[ -/]*[@-~])]. *)
Definition ANSI_ESCAPE : regex :=
  Seq (Chr ESC)
      (Alt (Cls (fun c => in_range "@" "Z" c || in_range "\" "_" c))
           (Seq (Chr "[")
                (Seq (Star (Cls (in_range "0" "?")))
                     (Seq (Star (Cls (in_range " " "/")))
                          (Cls (in_range "@" "~")))))).

Definition DQUOTE : string := String "034" "".

(** The lines [enumerate(lines)] keeps, [i] being the index of the head. *)
Fixpoint keep_lines (command : string) (i : nat) (lines : list string)
  : list string :=
  match lines with
  | [] => []
  | line :: rest =>
      if Nat.eqb i 0 && contains command line then keep_lines command (S i) rest
      else if contains ("echo '" ++ END_MARKER ++ "'") line
              || contains ("echo " ++ DQUOTE ++ END_MARKER ++ DQUOTE) line
      then keep_lines command (S i) rest
      else line :: keep_lines command (S i) rest
  end.

(** [_clean_output(text, command)]. *)
Definition _clean_output (text command : string) : string :=
  let text := sub_empty ANSI_ESCAPE text in
  let text := replace END_MARKER "" text in
  let lines := splitlines text in
  strip (join (String LF "") (keep_lines command 0 lines)).

(** What the session does to its lock, to the PTY and to the streaming
    callback, in order. *)
Inductive Action : Type :=
| LockAcquire | LockRelease
| Drain                         (* [_drain_buffer] *)
| Sendline : string -> Action   (* [child.sendline] *)
| Expect : nat -> Action        (* [child.expect(patterns, timeout=...)] *)
| Stream : string -> Action.    (* [on_stream("terminal", text)] *)

Record Child : Type := mkChild { isalive : bool }.

Record ShellManager : Type := mkShell {
  child : option Child;
  default_timeout : nat;         (* milliseconds *)
  history : list string;         (* [deque(maxlen=history_limit)] *)
  history_limit : nat;
  started : bool;
  actions : list Action
}.

Definition act (sm : ShellManager) (new : list Action) : ShellManager :=
  mkShell (child sm) (default_timeout sm) (history sm) (history_limit sm)
          (started sm) (actions sm ++ new).

(** [_push_history]. *)
Definition _push_history (sm : ShellManager) (chunk : string) : ShellManager :=
  if String.eqb chunk "" then sm
  else
    let h := (history sm ++ [chunk])%list in
    mkShell (child sm) (default_timeout sm)
            (skipn (List.length h - history_limit sm) h)
            (history_limit sm) (started sm) (actions sm).

(** What [child.expect] does: it returns the index of the pattern that
    matched, or raises; [child.before] is the text read before the match. *)
Inductive ExpectResult : Type :=
| Index : nat -> option string -> ExpectResult
| TimeoutExc : ExpectResult
| EofExc : option string -> ExpectResult.

(** The terminal during one call: the clock read at the head of the k-th
    turn of the loop (milliseconds), and what the k-th [expect] does. *)
Record Pty : Type := mkPty {
  start_time : nat;
  time_at    : nat -> nat;
  expect_at  : nat -> ExpectResult
}.

Definition or_empty (s : option string) : string :=
  match s with Some t => t | None => "" end.

Section Reading.
Variable pty : Pty.
Variable command : string.
Variable handler_list : list (string * string).
Variable eff_timeout : nat.
Variable on_stream : bool.

(** The [while True] loop of [run_command]; [None] when [fuel] turns did
    not end it. *)
Fixpoint read_loop (fuel k : nat) (sm : ShellManager) (output_chunks : list string)
  : option (ShellManager * Outcome (list string)) :=
  match fuel with
  | O => None
  | S f =>
      let elapsed := time_at pty k - start_time pty in
      if Nat.leb eff_timeout elapsed then
        Some (sm, Raised ("Command timeout after " ++ str_of_nat eff_timeout
                          ++ "ms: " ++ command))
      else
        let remaining := Nat.max 100 (eff_timeout - elapsed) in
        let sm := act sm [Expect (Nat.min remaining 2000)] in
        let n := List.length handler_list in
        match expect_at pty k with
        | TimeoutExc => read_loop f (S k) sm output_chunks
        | EofExc before =>
            match before with
            | Some (String a b) =>
                Some (sm, Returns (output_chunks ++ [String a b])%list)
            | _ => Some (sm, Returns output_chunks)
            end
        | Index idx before =>
            let before_text := or_empty before in
            match nth_error handler_list idx with
            | Some (_, response) =>
                let sm := if on_stream && negb (String.eqb before_text "")
                          then act sm [Stream before_text] else sm in
                let sm := act sm [LockAcquire; Sendline response; LockRelease] in
                read_loop f (S k) sm (output_chunks ++ [before_text])%list
            | None =>
                if Nat.eqb idx (n + 1) then read_loop f (S k) sm output_chunks
                else Some (sm, Returns (output_chunks ++ [before_text])%list)
            end
        end
  end.

End Reading.

(** [run_command(command, handlers, timeout, on_stream)]. *)
Definition run_command (pty : Pty) (fuel : nat) (sm : ShellManager)
    (command : string) (handlers : option (list (string * string)))
    (timeout : option nat) (on_stream : bool)
  : option (ShellManager * Outcome string) :=
  match child sm with
  | None => Some (sm, Raised "Shell not started")
  | Some ch =>
      if negb (isalive ch) then Some (sm, Raised "Shell not started")
      else
        let eff_timeout := match timeout with
                           | None | Some O => default_timeout sm
                           | Some t => t
                           end in
        let handler_list := match handlers with Some h => h | None => [] end in
        let full_command := command ++ "; echo '" ++ END_MARKER ++ "'" in
        let sm := act sm [LockAcquire; Drain; Sendline full_command; LockRelease] in
        match read_loop pty command handler_list eff_timeout on_stream
                        fuel 0 sm [] with
        | None => None
        | Some (sm, Raised e) => Some (sm, Raised e)
        | Some (sm, Returns output_chunks) =>
            let full_output := String.concat "" output_chunks in
            let cleaned := _clean_output full_output command in
            Some (_push_history sm cleaned, Returns cleaned)
        end
  end.

End Shell.

(* ================================================================== *)
(** * The turn as a transition system *)
(* ================================================================== *)

Module Machine.
Import PyStr Base.

(** The states a turn passes through: the agent about to run (or running)
    and the shared context.  A turn starts at the Router with a fresh
    context; a registered agent that returns hands over to the agent it
    names; and inside the Executor every completed pass of its loop is a
    state of its own. *)
Inductive reachable (orc : Oracle) (goal : string)
    (stream : option StreamCallback) (mem : list (string * string))
  : option string -> AgentContext -> Prop :=
| reach_start :
    reachable orc goal stream mem (Some "RouterAgent")
              (new_context goal mem stream 3)
| reach_handoff : forall name c agent c' r,
    reachable orc goal stream mem (Some name) c ->
    Orchestrator.registry orc name = Some agent ->
    agent c = (c', Returns r) ->
    reachable orc goal stream mem (next_agent r) c'
| reach_executor_pass : forall c c',
    reachable orc goal stream mem (Some "ExecutorAgent") c ->
    current_step_idx c < List.length (steps c) ->
    Executor.exec_iter orc c = (c', None) ->
    reachable orc goal stream mem (Some "ExecutorAgent") c'.

(** The targets the gate is to protect: the root, and each critical root
    bare or with a trailing slash. *)
Definition protected_targets : list string :=
  "/" :: (Executor.critical_paths
          ++ map (fun p => (p ++ "/")%string) Executor.critical_paths)%list.

(** [n] evaluations in a row that all return [INCOMPLETE:X]; [between] is
    whatever the turn does to the context before an evaluation (planning,
    executing, repairing). *)
Fixpoint after_evaluations (between : AgentContext -> AgentContext)
    (X : string) (n : nat) (c0 : AgentContext)
  : AgentContext * option AgentResult :=
  match n with
  | O => (c0, None)
  | S m =>
      let (c, _) := after_evaluations between X m c0 in
      let (c', r) := Executor.handle_evaluation (between c) ("INCOMPLETE:" ++ X) in
      (c', Some r)
  end.

(** A language model that plans one harmless step and judges every
    execution [INCOMPLETE:X]; a terminal that prints nothing.  The clock
    runs through Router (0), then Planner (start, plan, intro) and
    Executor (command, evaluation) in cycles of five. *)
Definition stubborn : Oracle :=
  mkOracle
    (fun k => match k mod 5 with
              | 0 => Text "INCOMPLETE:X"
              | 2 => Text "check::true"
              | _ => Text "ok"
              end)
    (fun _ _ _ _ => ShOutput "")
    (fun _ => None).

(** Every call of the language model raises. *)
Definition offline : Oracle :=
  mkOracle (fun _ => Raises "connection refused")
           (fun _ _ _ _ => ShError "Shell not started")
           (fun _ => Some "spawn failed").

(** A language model whose every answer is off the evaluation grammar. *)
Definition vague : Oracle :=
  mkOracle (fun _ => Text "It depends")
           (fun _ _ _ _ => ShOutput "")
           (fun _ => None).

(** A context at evaluation time: two steps done, one failed. *)
Definition two_done_one_failed : AgentContext :=
  set_current_step_idx
    (set_steps (new_context "install htop" [] None 3)
       [ mkStep "update" (Some "apt-get update") done "ok" "";
         mkStep "install" (Some "apt-get install -y htop") done "ok" "";
         mkStep "verify" (Some "htop --version") failed
                "htop: command not found" "htop: command not found" ])
    3.




(** The same model with a terminal on which the planned command is missing,
    and the context of the turn once Router, Planner, Executor and Repair
    have run. *)
Definition flaky : Oracle :=
  mkOracle (fun _ => Text "1. 使用 yum::`yum install -y htop`")
           (fun _ _ _ _ => ShOutput "bash: yum: command not found")
           (fun _ => None).

Definition after_first_repair : AgentContext :=
  fst (Repair.run flaky
    (fst (Executor.run flaky
      (fst (Planner.run flaky
        (fst (Router.run flaky (new_context "install htop" [] None 3)))))))).

Definition before_first_repair : AgentContext :=
  fst (Executor.run flaky
    (fst (Planner.run flaky
      (fst (Router.run flaky (new_context "install htop" [] None 3)))))).

(** A context whose current step has no command, and one whose current
    step is the catastrophic [rm -rf /]. *)
Definition with_empty_command : AgentContext :=
  set_steps (new_context "noop" [] None 3) [mkStep "noop" None pending "" ""].

Definition with_rm_rf_root : AgentContext :=
  set_steps (new_context "clean" [] None 3) [new_step "clean" "rm -rf /"].

(** A model that plans [uptime] and judges the goal COMPLETED, with a
    terminal that answers; and the context the Executor leaves for Summary. *)
Definition obliging : Oracle :=
  mkOracle (fun k => if Nat.eqb k 5 then Text "COMPLETED"
                     else Text "show uptime::uptime")
           (fun _ _ _ _ => ShOutput " 10:00:00 up 1 day, load average: 0.00")
           (fun _ => None).

Definition after_execution : AgentContext :=
  fst (Executor.run obliging
    (fst (Planner.run obliging
      (fst (Router.run obliging (new_context "show uptime" [] None 3)))))).

(** A started session, and a terminal on which the command's output and
    the end marker arrive at the second read. *)
Definition live_session : Shell.ShellManager :=
  Shell.mkShell (Some (Shell.mkChild true)) 3000 ["earlier output"] 2 true [].

Definition prompt_terminal : Shell.Pty :=
  Shell.mkPty 10 (fun k => 10 + 50 * k)
    (fun k => match k with
              | 0 => Shell.Index 1 None
              | _ => Shell.Index 0 (Some "up 1 day")
              end).

(** A context whose only step has used up its retries, and a terminal
    that times out. *)
Definition out_of_retries : AgentContext :=
  set_retry_count
    (set_steps (new_context "install htop" [] None 3)
               [new_step "install" "yum install -y htop"]) 3.

Definition hanging : Oracle :=
  mkOracle (fun _ => Text "COMPLETED")
           (fun _ _ _ _ => ShTimeout "Command timeout after 180s")
           (fun _ => None).

(** A context whose only step installs with [yum]. *)
Definition yum_planned : AgentContext :=
  set_steps (new_context "install htop" [] None 3)
            [new_step "install" "yum install -y htop"].

(** An agent table whose Router raises. *)
Definition crashing_agents (name : string) : option Orchestrator.Agent :=
  if String.eqb name "RouterAgent"
  then Some (fun c => (c, Raised "boom"))
  else None.

End Machine.

(* ================================================================== *)
(** * Properties *)
(* ================================================================== *)

Import PyStr Re Base Prompts.

(** ** Strings *)

Section StringFacts.

Lemma prefix_empty : forall s, String.prefix "" s = true.
Proof. destruct s; reflexivity. Qed.

Lemma mem_append : forall c s t, mem c (s ++ t) = mem c s || mem c t.
Proof.
  induction s as [|d s IH]; intros t; simpl.
  - reflexivity.
  - rewrite IH. now rewrite orb_assoc.
Qed.

(** Replacing a one-character string by nothing removes the character. *)
Lemma replace_char_removes : forall c s,
  mem c (replace (String c "") "" s) = false.
Proof.
  intros c s. unfold replace.
  induction s as [|d s IH]; simpl.
  - reflexivity.
  - destruct (ascii_dec c d) as [->|Hne].
    + rewrite prefix_empty. simpl. exact IH.
    + simpl. rewrite IH.
      destruct (Ascii.eqb_spec c d); [contradiction | reflexivity].
Qed.

(** It never brings in a character that was not there. *)
Lemma replace_char_keeps_absent : forall c e s,
  mem e s = false -> mem e (replace (String c "") "" s) = false.
Proof.
  intros c e s. unfold replace.
  induction s as [|d s IH]; simpl; intros H.
  - reflexivity.
  - apply orb_false_iff in H as [Hd Hs].
    destruct (ascii_dec c d) as [->|Hne].
    + rewrite prefix_empty. simpl. auto.
    + simpl. rewrite Hd. auto.
Qed.

Lemma lstrip_by_absent : forall p e s,
  mem e s = false -> mem e (lstrip_by p s) = false.
Proof.
  induction s as [|d s IH]; simpl; intros H; [reflexivity|].
  destruct (p d); [| exact H].
  apply orb_false_iff in H as [_ Hs]. auto.
Qed.

Lemma rstrip_by_absent : forall p e s,
  mem e s = false -> mem e (rstrip_by p s) = false.
Proof.
  induction s as [|d s IH]; simpl; intros H; [reflexivity|].
  apply orb_false_iff in H as [Hd Hs].
  specialize (IH Hs).
  destruct (rstrip_by p s) eqn:E.
  - destruct (p d); simpl; [reflexivity | now rewrite Hd].
  - simpl in *. now rewrite Hd, IH.
Qed.

Lemma strip_absent : forall e s, mem e s = false -> mem e (strip s) = false.
Proof.
  intros e s H. unfold strip, strip_by.
  now apply rstrip_by_absent, lstrip_by_absent.
Qed.

End StringFacts.

(** ** The context under the primitive updates *)

Section ContextFacts.

Lemma nth_error_list_set : forall {A} (l : list A) i v,
  i < List.length l -> nth_error (list_set l i v) i = Some v.
Proof.
  induction l as [|h t IH]; intros [|i] v H; simpl in *; try lia.
  - reflexivity.
  - apply IH. lia.
Qed.

Lemma length_list_set : forall {A} (l : list A) i v,
  List.length (list_set l i v) = List.length l.
Proof.
  induction l as [|h t IH]; intros [|i] v; simpl; auto.
Qed.

Lemma update_step_steps : forall c i f,
  i < List.length (steps c) ->
  nth_error (steps (update_step c i f)) i = option_map f (nth_error (steps c) i).
Proof.
  intros c i f H. unfold update_step.
  destruct (nth_error (steps c) i) eqn:E; simpl.
  - now apply nth_error_list_set.
  - exact E.
Qed.

Lemma update_step_length : forall c i f,
  List.length (steps (update_step c i f)) = List.length (steps c).
Proof.
  intros c i f. unfold update_step.
  destruct (nth_error (steps c) i); simpl; [apply length_list_set | reflexivity].
Qed.

(** The fields [update_step], [emit] and [emit_tasks] leave alone. *)
Definition counters (c : AgentContext) :=
  (current_step_idx c, retry_count c, max_retries c,
   replan_count c, max_replans c, last_failure_reason c, emit_cb c).

Lemma update_step_counters : forall c i f,
  counters (update_step c i f) = counters c
  /\ emitted (update_step c i f) = emitted c
  /\ clock (update_step c i f) = clock c
  /\ outputs (update_step c i f) = outputs c.
Proof.
  intros c i f. unfold update_step.
  destruct (nth_error (steps c) i); auto.
Qed.

Lemma emit_counters : forall c k t,
  counters (emit c k t) = counters c /\ steps (emit c k t) = steps c
  /\ clock (emit c k t) = clock c /\ outputs (emit c k t) = outputs c.
Proof. intros c k t. unfold emit. destruct (emit_cb c); auto. Qed.

Lemma emit_tasks_counters : forall c,
  counters (emit_tasks c) = counters c /\ steps (emit_tasks c) = steps c
  /\ clock (emit_tasks c) = clock c /\ outputs (emit_tasks c) = outputs c.
Proof. intros c. unfold emit_tasks. destruct (emit_cb c); auto. Qed.

Lemma emit_emitted : forall c k t,
  emitted (emit c k t) =
  match emit_cb c with
  | Some _ => (emitted c ++ [Ev k t])%list
  | None => emitted c
  end.
Proof. intros c k t. unfold emit. destruct (emit_cb c); reflexivity. Qed.

End ContextFacts.

(** Field by field, for rewriting. *)
Lemma current_step_idx_update_step : forall c i f, current_step_idx (update_step c i f) = current_step_idx c.
Proof. intros c i f. unfold update_step. destruct (nth_error (steps c) i); reflexivity. Qed.
Lemma retry_count_update_step : forall c i f, retry_count (update_step c i f) = retry_count c.
Proof. intros c i f. unfold update_step. destruct (nth_error (steps c) i); reflexivity. Qed.
Lemma max_retries_update_step : forall c i f, max_retries (update_step c i f) = max_retries c.
Proof. intros c i f. unfold update_step. destruct (nth_error (steps c) i); reflexivity. Qed.
Lemma replan_count_update_step : forall c i f, replan_count (update_step c i f) = replan_count c.
Proof. intros c i f. unfold update_step. destruct (nth_error (steps c) i); reflexivity. Qed.
Lemma max_replans_update_step : forall c i f, max_replans (update_step c i f) = max_replans c.
Proof. intros c i f. unfold update_step. destruct (nth_error (steps c) i); reflexivity. Qed.
Lemma last_failure_reason_update_step : forall c i f, last_failure_reason (update_step c i f) = last_failure_reason c.
Proof. intros c i f. unfold update_step. destruct (nth_error (steps c) i); reflexivity. Qed.
Lemma emit_cb_update_step : forall c i f, emit_cb (update_step c i f) = emit_cb c.
Proof. intros c i f. unfold update_step. destruct (nth_error (steps c) i); reflexivity. Qed.
Lemma clock_update_step : forall c i f, clock (update_step c i f) = clock c.
Proof. intros c i f. unfold update_step. destruct (nth_error (steps c) i); reflexivity. Qed.
Lemma outputs_update_step : forall c i f, outputs (update_step c i f) = outputs c.
Proof. intros c i f. unfold update_step. destruct (nth_error (steps c) i); reflexivity. Qed.
Lemma goal_update_step : forall c i f, goal (update_step c i f) = goal c.
Proof. intros c i f. unfold update_step. destruct (nth_error (steps c) i); reflexivity. Qed.
Lemma memory_update_step : forall c i f, memory (update_step c i f) = memory c.
Proof. intros c i f. unfold update_step. destruct (nth_error (steps c) i); reflexivity. Qed.
Lemma emitted_update_step : forall c i f, emitted (update_step c i f) = emitted c.
Proof. intros c i f. unfold update_step. destruct (nth_error (steps c) i); reflexivity. Qed.
Lemma current_step_idx_emit : forall c k t, current_step_idx (emit c k t) = current_step_idx c.
Proof. intros c k t. unfold emit. destruct (emit_cb c); reflexivity. Qed.
Lemma current_step_idx_emit_tasks : forall c, current_step_idx (emit_tasks c) = current_step_idx c.
Proof. intros c. unfold emit_tasks. destruct (emit_cb c); reflexivity. Qed.
Lemma retry_count_emit : forall c k t, retry_count (emit c k t) = retry_count c.
Proof. intros c k t. unfold emit. destruct (emit_cb c); reflexivity. Qed.
Lemma retry_count_emit_tasks : forall c, retry_count (emit_tasks c) = retry_count c.
Proof. intros c. unfold emit_tasks. destruct (emit_cb c); reflexivity. Qed.
Lemma max_retries_emit : forall c k t, max_retries (emit c k t) = max_retries c.
Proof. intros c k t. unfold emit. destruct (emit_cb c); reflexivity. Qed.
Lemma max_retries_emit_tasks : forall c, max_retries (emit_tasks c) = max_retries c.
Proof. intros c. unfold emit_tasks. destruct (emit_cb c); reflexivity. Qed.
Lemma replan_count_emit : forall c k t, replan_count (emit c k t) = replan_count c.
Proof. intros c k t. unfold emit. destruct (emit_cb c); reflexivity. Qed.
Lemma replan_count_emit_tasks : forall c, replan_count (emit_tasks c) = replan_count c.
Proof. intros c. unfold emit_tasks. destruct (emit_cb c); reflexivity. Qed.
Lemma max_replans_emit : forall c k t, max_replans (emit c k t) = max_replans c.
Proof. intros c k t. unfold emit. destruct (emit_cb c); reflexivity. Qed.
Lemma max_replans_emit_tasks : forall c, max_replans (emit_tasks c) = max_replans c.
Proof. intros c. unfold emit_tasks. destruct (emit_cb c); reflexivity. Qed.
Lemma last_failure_reason_emit : forall c k t, last_failure_reason (emit c k t) = last_failure_reason c.
Proof. intros c k t. unfold emit. destruct (emit_cb c); reflexivity. Qed.
Lemma last_failure_reason_emit_tasks : forall c, last_failure_reason (emit_tasks c) = last_failure_reason c.
Proof. intros c. unfold emit_tasks. destruct (emit_cb c); reflexivity. Qed.
Lemma emit_cb_emit : forall c k t, emit_cb (emit c k t) = emit_cb c.
Proof. intros c k t. unfold emit. destruct (emit_cb c) eqn:E; [cbn; now rewrite E | exact E]. Qed.
Lemma emit_cb_emit_tasks : forall c, emit_cb (emit_tasks c) = emit_cb c.
Proof. intros c. unfold emit_tasks. destruct (emit_cb c) eqn:E; [cbn; now rewrite E | exact E]. Qed.
Lemma clock_emit : forall c k t, clock (emit c k t) = clock c.
Proof. intros c k t. unfold emit. destruct (emit_cb c); reflexivity. Qed.
Lemma clock_emit_tasks : forall c, clock (emit_tasks c) = clock c.
Proof. intros c. unfold emit_tasks. destruct (emit_cb c); reflexivity. Qed.
Lemma outputs_emit : forall c k t, outputs (emit c k t) = outputs c.
Proof. intros c k t. unfold emit. destruct (emit_cb c); reflexivity. Qed.
Lemma outputs_emit_tasks : forall c, outputs (emit_tasks c) = outputs c.
Proof. intros c. unfold emit_tasks. destruct (emit_cb c); reflexivity. Qed.
Lemma goal_emit : forall c k t, goal (emit c k t) = goal c.
Proof. intros c k t. unfold emit. destruct (emit_cb c); reflexivity. Qed.
Lemma goal_emit_tasks : forall c, goal (emit_tasks c) = goal c.
Proof. intros c. unfold emit_tasks. destruct (emit_cb c); reflexivity. Qed.
Lemma memory_emit : forall c k t, memory (emit c k t) = memory c.
Proof. intros c k t. unfold emit. destruct (emit_cb c); reflexivity. Qed.
Lemma memory_emit_tasks : forall c, memory (emit_tasks c) = memory c.
Proof. intros c. unfold emit_tasks. destruct (emit_cb c); reflexivity. Qed.
Lemma steps_emit : forall c k t, steps (emit c k t) = steps c.
Proof. intros c k t. unfold emit. destruct (emit_cb c); reflexivity. Qed.
Lemma steps_emit_tasks : forall c, steps (emit_tasks c) = steps c.
Proof. intros c. unfold emit_tasks. destruct (emit_cb c); reflexivity. Qed.

Create Rewrite HintDb ctx.
#[global] Hint Rewrite current_step_idx_update_step
  retry_count_update_step
  max_retries_update_step
  replan_count_update_step
  max_replans_update_step
  last_failure_reason_update_step
  emit_cb_update_step
  clock_update_step
  outputs_update_step
  goal_update_step
  memory_update_step
  emitted_update_step
  current_step_idx_emit
  current_step_idx_emit_tasks
  retry_count_emit
  retry_count_emit_tasks
  max_retries_emit
  max_retries_emit_tasks
  replan_count_emit
  replan_count_emit_tasks
  max_replans_emit
  max_replans_emit_tasks
  last_failure_reason_emit
  last_failure_reason_emit_tasks
  emit_cb_emit
  emit_cb_emit_tasks
  clock_emit
  clock_emit_tasks
  outputs_emit
  outputs_emit_tasks
  goal_emit
  goal_emit_tasks
  memory_emit
  memory_emit_tasks
  steps_emit
  steps_emit_tasks
  update_step_length : ctx.

Ltac ctx_simpl :=
  repeat (autorewrite with ctx;
          cbn [goal memory steps outputs current_step_idx retry_count
               max_retries replan_count max_replans last_failure_reason
               emit_cb emitted clock
               set_memory set_steps set_outputs set_current_step_idx
               set_retry_count set_replan_count set_last_failure_reason
               set_emitted tick memory_append new_context fst snd
               success next_agent message]).

Ltac ctx_simpl_in H :=
  repeat (autorewrite with ctx in H;
          cbn [goal memory steps outputs current_step_idx retry_count
               max_retries replan_count max_replans last_failure_reason
               emit_cb emitted clock
               set_memory set_steps set_outputs set_current_step_idx
               set_retry_count set_replan_count set_last_failure_reason
               set_emitted tick memory_append new_context fst snd
               success next_agent message] in H).

(** ** The second-layer cleaner (C10) *)

(** C10. For every raw shell output, [clean_output] returns a text without
    any ESC (0x1B) or BEL (0x07) byte, whether or not the bytes belonged to
    a well-formed CSI or OSC sequence; and when the shell returns that raw
    output, [_execute_step] assigns exactly this text to [step.output] and
    hands exactly this text to the stream callback as the [terminal]
    event. *)
Theorem clean_output_no_esc_bel : forall (orc : Oracle) (raw : string),
  mem ESC (clean_output raw) = false
  /\ mem BEL (clean_output raw) = false
  /\ forall c i cmd,
       shell_run orc (clock c) cmd (Executor._get_handlers cmd)
                 (Executor._get_timeout cmd) = ShOutput raw ->
       i < List.length (steps c) ->
       let c' := fst (Executor._execute_step orc c i cmd) in
       option_map output (nth_error (steps c') i) = Some (clean_output raw)
       /\ emitted c' =
          match emit_cb c with
          | Some _ => (emitted c ++ [Ev "terminal" (clean_output raw);
                                     Ev "log" ("输出: " ++ take 300 (clean_output raw))])%list
          | None => emitted c
          end.
Proof.
  intros orc raw.
  assert (HE : mem ESC (clean_output raw) = false).
  { unfold clean_output. apply strip_absent, replace_char_keeps_absent.
    apply replace_char_removes. }
  assert (HB : mem BEL (clean_output raw) = false).
  { unfold clean_output. apply strip_absent, replace_char_removes. }
  split; [exact HE | split; [exact HB |]].
  intros c i cmd H H0 c'. subst c'. split.
  - unfold Executor._execute_step. rewrite H.
    set (out := clean_output raw).
    set (c1 := update_step (tick c) i (fun s => set_output s out)).
    assert (L1 : nth_error (steps c1) i = option_map (fun s => set_output s out)
                                            (nth_error (steps c) i)).
    { unfold c1. rewrite update_step_steps; [reflexivity | exact H0]. }
    assert (L2 : steps (emit (emit c1 "terminal" out) "log"
                          ("输出: " ++ take 300 out)) = steps c1).
    { destruct (emit_counters (emit c1 "terminal" out) "log"
                  ("输出: " ++ take 300 out)) as (_ & -> & _).
      now destruct (emit_counters c1 "terminal" out) as (_ & -> & _). }
    destruct (nth_error (steps c) i) as [s0|] eqn:E0;
      [| apply nth_error_None in E0; lia].
    destruct (check_fatal_error out); cbn [fst].
    + rewrite update_step_steps by (rewrite L2; unfold c1;
        rewrite update_step_length; exact H0).
      rewrite L2, L1. reflexivity.
    + rewrite L2, L1. reflexivity.
  - unfold Executor._execute_step. rewrite H.
    set (out := clean_output raw).
    set (c1 := update_step (tick c) i (fun s => set_output s out)).
    assert (Hcb : emit_cb c1 = emit_cb c).
    { unfold c1. destruct (update_step_counters (tick c) i
                             (fun s => set_output s out)) as (Hc & _).
      unfold counters in Hc. now inversion Hc. }
    assert (Hem : emitted c1 = emitted c).
    { unfold c1. now destruct (update_step_counters (tick c) i
                                 (fun s => set_output s out)) as (_ & -> & _). }
    assert (Hfin : emitted (emit (emit c1 "terminal" out) "log"
                              ("输出: " ++ take 300 out)) =
                   match emit_cb c with
                   | Some _ => (emitted c ++ [Ev "terminal" out;
                                  Ev "log" ("输出: " ++ take 300 out)])%list
                   | None => emitted c
                   end).
    { rewrite emit_emitted.
      assert (Hcb2 : emit_cb (emit c1 "terminal" out) = emit_cb c).
      { destruct (emit_counters c1 "terminal" out) as (Hc & _).
        unfold counters in Hc. inversion Hc. congruence. }
      rewrite Hcb2, emit_emitted, Hcb, Hem.
      destruct (emit_cb c); [| reflexivity].
      now rewrite <- app_assoc. }
    destruct (check_fatal_error out); cbn [fst].
    + destruct (update_step_counters
                  (emit (emit c1 "terminal" out) "log" ("输出: " ++ take 300 out))
                  i (fun s => set_error s (Prompts.extract_error_message out)))
        as (_ & -> & _).
      exact Hfin.
    + exact Hfin.
Qed.

(** ** The catastrophic-command gate (C1) *)

(** X9. A command the gate flags is never run: the step is recorded as failed
    with the safety error, the terminal and the language model are not
    called, no hand-off to Repair is returned, and the index moves past the
    step. *)
Lemma blocked_step_recorded_and_skipped : forall orc c step cmd,
  nth_error (steps c) (current_step_idx c) = Some step ->
  command step = Some cmd ->
  cmd <> "" ->
  Executor._is_catastrophic cmd = true ->
  let (c', r) := Executor.exec_iter orc c in
  r = None
  /\ current_step_idx c' = current_step_idx c + 1
  /\ option_map (fun s => (status s, error s))
                (nth_error (steps c') (current_step_idx c))
     = Some (failed, Executor.BLOCKED_ERROR)
  /\ retry_count c' = retry_count c
  /\ clock c' = clock c.
Proof.
  intros orc c step cmd Hnth Hcmd Hne Hcat.
  unfold Executor.exec_iter. rewrite Hnth, Hcmd.
  destruct cmd as [|a cmd]; [congruence|].
  rewrite Hcat.
  set (i := current_step_idx c).
  set (c1 := emit (emit_tasks (update_step c i (fun s => set_status s running)))
                  "log" ("开始: " ++ title step)).
  assert (Hlen : i < List.length (steps c)).
  { apply nth_error_Some. unfold i. congruence. }
  assert (Hs1 : List.length (steps c1) = List.length (steps c)).
  { unfold c1. destruct (emit_counters
      (emit_tasks (update_step c i (fun s => set_status s running)))
      "log" ("开始: " ++ title step)) as (_ & -> & _).
    destruct (emit_tasks_counters
      (update_step c i (fun s => set_status s running))) as (_ & -> & _).
    apply update_step_length. }
  assert (Hc1 : counters c1 = counters c /\ clock c1 = clock c).
  { unfold c1. destruct (emit_counters
      (emit_tasks (update_step c i (fun s => set_status s running)))
      "log" ("开始: " ++ title step)) as (-> & _ & -> & _).
    destruct (emit_tasks_counters
      (update_step c i (fun s => set_status s running))) as (-> & _ & -> & _).
    destruct (update_step_counters c i (fun s => set_status s running))
      as (-> & _ & -> & _). auto. }
  set (f := fun s => set_error (set_status s failed) Executor.BLOCKED_ERROR).
  set (c2 := emit_tasks (emit (update_step c1 i f) "log"
                              ("安全阻止: " ++ String a cmd))).
  assert (Hc2 : counters c2 = counters c1 /\ clock c2 = clock c1
                /\ steps c2 = steps (update_step c1 i f)).
  { unfold c2.
    destruct (emit_tasks_counters (emit (update_step c1 i f) "log"
                ("安全阻止: " ++ String a cmd))) as (-> & -> & -> & _).
    destruct (emit_counters (update_step c1 i f) "log"
                ("安全阻止: " ++ String a cmd)) as (-> & -> & -> & _).
    destruct (update_step_counters c1 i f) as (-> & _ & -> & _). auto. }
  destruct Hc1 as [Hc1 Hk1]. destruct Hc2 as (Hc2 & Hk2 & Hst2).
  unfold counters in Hc1, Hc2. inversion Hc1. inversion Hc2.
  cbn [current_step_idx set_current_step_idx steps retry_count clock].
  repeat split; try congruence.
  rewrite Hst2, update_step_steps by lia.
  destruct (nth_error (steps c1) i) eqn:E; [reflexivity|].
  apply nth_error_None in E. lia.
Qed.

(** C1. The gate does not flag a recursive [rm] spelled with [-r] alone:
    [rm -r T] passes it for the root and for every critical root [T], bare
    or with a trailing slash, and the Executor runs such a step on the
    terminal instead of recording the safety error.  With [-rf] or [-fr]
    the same commands are flagged (and [rm -rf /bin/foo] is not); a [-r]
    that follows another forced [rm] is flagged by the same patterns. *)
Theorem gate_misses_plain_recursive_rm :
  (forall target, In target Machine.protected_targets ->
     Executor._is_catastrophic ("rm -r " ++ target) = false)
  /\ (forall flags target,
        In flags ["-rf"; "-fr"] -> In target Machine.protected_targets ->
        Executor._is_catastrophic ("rm " ++ flags ++ " " ++ target) = true)
  /\ Executor._is_catastrophic "rm -rf /bin/foo" = false
  /\ Executor._is_catastrophic "rm -rf /tmp/x && rm -r /" = true
  /\ (let c := set_steps (new_context "clean" [] None 3)
                         [new_step "clean" "rm -r /"] in
      let (c', r) := Executor.exec_iter Machine.stubborn c in
      r = None /\ clock c' = 1
      /\ map (fun s => (status s, error s)) (steps c') = [(done, "")]).
Proof.
  split; [| split; [| split; [| split]]].
  - intros target H.
    assert (T : forallb (fun t => negb (Executor._is_catastrophic ("rm -r " ++ t)))
                        Machine.protected_targets = true)
      by (vm_compute; reflexivity).
    rewrite forallb_forall in T. apply T in H.
    now apply negb_true_iff in H.
  - intros flags target Hf Ht.
    assert (T : forallb (fun f => forallb (fun t =>
                  Executor._is_catastrophic ("rm " ++ f ++ " " ++ t))
                  Machine.protected_targets) ["-rf"; "-fr"] = true)
      by (vm_compute; reflexivity).
    rewrite forallb_forall in T. apply T in Hf.
    rewrite forallb_forall in Hf. now apply Hf.
  - vm_compute; reflexivity.
  - vm_compute; reflexivity.
  - vm_compute. repeat split; reflexivity.
Qed.

(** ** The session's sanitizer (C6) *)

(** C6. [_clean_output] leaves ANSI material and the end marker in its
    result: of an OSC title sequence only the two-byte introducer is
    removed (payload and BEL stay); a CSI sequence split by another one is
    put together by the deletion; and so is an end marker wrapped around
    another end marker. *)
Theorem sanitizer_leaves_osc_csi_and_marker :
  Shell._clean_output (String ESC "]0;title" ++ String BEL "hello") "ls"
    = "0;title" ++ String BEL "hello"
  /\ Shell._clean_output (String ESC (String ESC "[A[0m")) "ls"
     = String ESC "[0m"
  /\ Shell._clean_output "<<::CMD_<<::CMD_DONE_7f3e9a::>>DONE_7f3e9a::>>" "ls"
     = Shell.END_MARKER
  /\ clean_output (String ESC "]0;title" ++ String BEL "hello") = "hello".
Proof. vm_compute. repeat split; reflexivity. Qed.

(** ** [run_command] without a live shell (C9) *)

(** C9. When the child process is absent or not alive, [run_command] raises
    [RuntimeError("Shell not started")] at once, whatever the terminal
    would have answered: the session (child, history, and the record of
    lock operations and PTY writes) is the one it was called with, so the
    lock was not taken and nothing was sent. *)
Theorem run_command_requires_live_shell :
  forall pty fuel sm command handlers timeout on_stream,
    (Shell.child sm = None
     \/ exists ch, Shell.child sm = Some ch /\ Shell.isalive ch = false) ->
    Shell.run_command pty fuel sm command handlers timeout on_stream
    = Some (sm, Raised "Shell not started").
Proof.
  intros pty fuel sm command handlers timeout on_stream [H | (ch & H & Ha)];
    unfold Shell.run_command; rewrite H.
  - reflexivity.
  - now rewrite Ha.
Qed.

(** With a live shell the first things done are: take the lock, drain the
    buffer, send the command followed by the marker's [echo], release. *)
Lemma run_command_live_shell_writes :
  forall pty fuel sm command handlers timeout on_stream sm' r,
    Shell.child sm = Some (Shell.mkChild true) ->
    Shell.run_command pty fuel sm command handlers timeout on_stream
    = Some (sm', r) ->
    exists later,
      Shell.actions sm' =
      (Shell.actions sm
       ++ [Shell.LockAcquire; Shell.Drain;
           Shell.Sendline (command ++ "; echo '" ++ Shell.END_MARKER ++ "'");
           Shell.LockRelease] ++ later)%list.
Proof.
  intros pty fuel sm command handlers timeout on_stream sm' r Hch.
  unfold Shell.run_command. rewrite Hch. cbn [Shell.isalive negb].
  set (eff := match timeout with None | Some 0 => _ | Some t => t end).
  set (hl := match handlers with Some h => h | None => [] end).
  set (full := command ++ "; echo '" ++ Shell.END_MARKER ++ "'").
  set (w := [Shell.LockAcquire; Shell.Drain; Shell.Sendline full;
             Shell.LockRelease]).
  assert (G : forall fuel k s chunks s' o,
             Shell.read_loop pty command hl eff on_stream fuel k s chunks
             = Some (s', o) ->
             exists later, Shell.actions s' = (Shell.actions s ++ later)%list).
  { induction fuel0 as [|f IH]; intros k s chunks s' o; cbn [Shell.read_loop].
    - discriminate.
    - destruct (Nat.leb eff (Shell.time_at pty k - Shell.start_time pty)).
      + intros E; inversion E; subst. exists []. now rewrite app_nil_r.
      + set (e1 := [Shell.Expect _]).
        destruct (Shell.expect_at pty k) as [idx before | | before].
        * destruct (nth_error hl idx) as [[pat resp]|].
          -- intros E. apply IH in E as [later E]. rewrite E.
             destruct (on_stream && negb (String.eqb (Shell.or_empty before) ""));
               cbn [Shell.act Shell.actions];
               rewrite <- !app_assoc; eexists; reflexivity.
          -- destruct (Nat.eqb idx (List.length hl + 1)).
             ++ intros E. apply IH in E as [later E]. rewrite E.
                cbn [Shell.act Shell.actions]. rewrite <- app_assoc.
                eexists; reflexivity.
             ++ intros E; inversion E; subst. cbn. eexists; reflexivity.
        * intros E. apply IH in E as [later E]. rewrite E.
          cbn [Shell.act Shell.actions]. rewrite <- app_assoc.
          eexists; reflexivity.
        * destruct before as [[|a b]|]; intros E; inversion E; subst; cbn;
            eexists; reflexivity. }
  destruct (Shell.read_loop pty command hl eff on_stream fuel 0
              (Shell.act sm w) []) as [[s o]|] eqn:E; [| discriminate].
  apply G in E as [later E].
  assert (Hp : forall t, Shell.actions (Shell._push_history s t) = Shell.actions s).
  { intros t. unfold Shell._push_history. destruct (String.eqb t ""); reflexivity. }
  destruct o; intros E'; inversion E'; subst;
    rewrite ?Hp, E; cbn [Shell.act Shell.actions];
    rewrite <- app_assoc; eexists; reflexivity.
Qed.

(** A witness of C9's hypothesis: a session that was never started. *)
Lemma run_command_requires_live_shell_witness :
  Shell.run_command (Shell.mkPty 0 (fun _ => 0) (fun _ => Shell.TimeoutExc)) 5
    (Shell.mkShell None 3000 [] 2000 false []) "uptime" None None false
  = Some (Shell.mkShell None 3000 [] 2000 false [], Raised "Shell not started").
Proof.
  apply (run_command_requires_live_shell
           (Shell.mkPty 0 (fun _ => 0) (fun _ => Shell.TimeoutExc)) 5
           (Shell.mkShell None 3000 [] 2000 false []) "uptime" None None false).
  left. reflexivity.
Defined.

(** ** Goal-completion evaluation off the grammar (C4) *)

(** On plans of up to 64 steps the floating-point test [done >= n * 0.7]
    is the exact test [7 n <= 10 done]. *)
Lemma ge_len_times_0_7_exact : forall d n,
  d <= 64 -> n <= 64 ->
  Executor.ge_len_times_0_7 d n = Nat.leb (7 * n) (10 * d).
Proof.
  intros d n Hd Hn.
  assert (T : forallb (fun n => forallb (fun d =>
                Bool.eqb (Executor.ge_len_times_0_7 d n) (Nat.leb (7 * n) (10 * d)))
                (seq 0 65)) (seq 0 65) = true) by (vm_compute; reflexivity).
  rewrite forallb_forall in T.
  assert (Tn := T n). rewrite forallb_forall in Tn.
  apply eqb_prop, Tn; apply in_seq; lia.
Qed.

Lemma count_status_le : forall st l,
  Executor.count_status st l <= List.length l.
Proof. intros st l. unfold Executor.count_status. apply filter_length_le. Qed.

(** C4, as stated, fails: with two steps done and one failed, [done]
    exceeds [failed], and the answer ["It depends"] is off the grammar; the
    claim makes the evaluation COMPLETED, the code returns INCOMPLETE. *)
Lemma unparseable_done_exceeding_failed_is_incomplete :
  ~ (Executor.count_status failed (steps Machine.two_done_one_failed)
       < Executor.count_status done (steps Machine.two_done_one_failed) ->
     snd (Executor._evaluate_goal_completion Machine.vague
            Machine.two_done_one_failed) = "COMPLETED").
Proof.
  intros H.
  assert (L : Executor.count_status failed (steps Machine.two_done_one_failed)
              < Executor.count_status done (steps Machine.two_done_one_failed))
    by (vm_compute; lia).
  specialize (H L). vm_compute in H. discriminate H.
Qed.

(** C4 (amended). When the language model answers and the normalized answer
    starts with none of COMPLETED, INCOMPLETE, BLOCKED, the evaluation is
    COMPLETED exactly when [done >= len(steps) * 0.7] and otherwise
    INCOMPLETE with the partial-failure reason; whether [done] exceeds
    [failed] plays no part.  On plans of up to 64 steps the test is
    [7 * len(steps) <= 10 * done]. *)
Theorem unparseable_evaluation_is_the_70_percent_test : forall orc c reply,
  llm_complete orc (clock c) = Text reply ->
  startswith "COMPLETED" (upper (strip reply)) = false ->
  startswith "INCOMPLETE" (upper (strip reply)) = false ->
  startswith "BLOCKED" (upper (strip reply)) = false ->
  let done_count := Executor.count_status done (steps c) in
  let n := List.length (steps c) in
  snd (Executor._evaluate_goal_completion orc c)
  = (if Executor.ge_len_times_0_7 done_count n
     then "COMPLETED" else "INCOMPLETE:部分步骤失败")
  /\ (n <= 64 ->
      Executor.ge_len_times_0_7 done_count n = Nat.leb (7 * n) (10 * done_count)).
Proof.
  intros orc c reply Hllm H1 H2 H3 done_count n. split.
  - unfold Executor._evaluate_goal_completion.
    rewrite Hllm, H1, H2, H3. fold done_count. fold n.
    destruct (Executor.ge_len_times_0_7 done_count n); reflexivity.
  - intros Hn. apply ge_len_times_0_7_exact; [| exact Hn].
    pose proof (count_status_le done (steps c)). fold done_count n in H. lia.
Qed.

(** A witness of the amended C4: the context and the model above. *)
Lemma unparseable_evaluation_is_the_70_percent_test_witness :
  snd (Executor._evaluate_goal_completion Machine.vague
         Machine.two_done_one_failed) = "INCOMPLETE:部分步骤失败".
Proof.
  exact (proj1 (unparseable_evaluation_is_the_70_percent_test
                  Machine.vague Machine.two_done_one_failed "It depends"
                  eq_refl eq_refl eq_refl eq_refl)).
Defined.

(** ** Error detection in the output (C5) *)

(** Every entry of the fatal table compiles, so its literal fall-back is
    never taken. *)
Lemma fatal_patterns_compile : forall p,
  In p FATAL_ERROR_PATTERNS -> exists r, re_compile (lower p) = Some r.
Proof.
  intros p H. unfold FATAL_ERROR_PATTERNS in H. simpl in H.
  repeat (destruct H as [<- | H]; [vm_compute; eexists; reflexivity |]).
  contradiction.
Qed.

(** The status the loop gives a step whose command ran and printed [raw]. *)
Lemma exec_iter_status_after_output : forall orc c step cmd raw,
  nth_error (steps c) (current_step_idx c) = Some step ->
  command step = Some cmd ->
  cmd <> "" ->
  Executor._is_catastrophic cmd = false ->
  shell_run orc (clock c) cmd (Executor._get_handlers cmd)
            (Executor._get_timeout cmd) = ShOutput raw ->
  option_map status
    (nth_error (steps (fst (Executor.exec_iter orc c))) (current_step_idx c))
  = Some (if check_fatal_error (clean_output raw) then failed else done).
Proof.
  intros orc c step cmd raw Hnth Hcmd Hne Hcat Hsh.
  assert (Hi : current_step_idx c < List.length (steps c)).
  { apply nth_error_Some. congruence. }
  unfold Executor.exec_iter. rewrite Hnth, Hcmd.
  destruct cmd as [|a cmd]; [congruence|]. rewrite Hcat.
  set (i := current_step_idx c) in *.
  set (c1 := emit (emit_tasks (update_step c i (fun s => set_status s running)))
                  "log" ("开始: " ++ title step)).
  assert (K1 : clock c1 = clock c) by (unfold c1; ctx_simpl; reflexivity).
  assert (L1 : List.length (steps c1) = List.length (steps c))
    by (unfold c1; ctx_simpl; reflexivity).
  assert (N1 : exists s1, nth_error (steps c1) i = Some s1).
  { destruct (nth_error (steps c1) i) eqn:E; [eauto|].
    apply nth_error_None in E. lia. }
  destruct N1 as (s1 & N1).
  unfold Executor._execute_step. rewrite K1, Hsh.
  set (out := clean_output raw).
  set (c2 := emit (emit (update_step (tick c1) i (fun s => set_output s out))
                        "terminal" out) "log" ("输出: " ++ take 300 out)).
  assert (L2 : List.length (steps c2) = List.length (steps c))
    by (unfold c2; ctx_simpl; exact L1).
  destruct (check_fatal_error out).
  - set (c3 := update_step c2 i _).
    assert (L3 : List.length (steps c3) = List.length (steps c))
      by (unfold c3; ctx_simpl; exact L2).
    assert (N3 : exists s3, nth_error (steps c3) i = Some s3).
    { destruct (nth_error (steps c3) i) eqn:E; [eauto|].
      apply nth_error_None in E. lia. }
    destruct N3 as (s3 & N3).
    destruct (Nat.ltb _ _); cbn [fst]; ctx_simpl;
      rewrite update_step_steps by lia; rewrite N3; reflexivity.
  - assert (N2 : exists s2, nth_error (steps c2) i = Some s2).
    { destruct (nth_error (steps c2) i) eqn:E; [eauto|].
      apply nth_error_None in E. lia. }
    destruct N2 as (s2 & N2).
    cbn [fst]. ctx_simpl. rewrite update_step_steps by lia.
    rewrite N2. reflexivity.
Qed.

(** The check by its own tests.  For every output: if a success token
    occurs in it (as a substring,
    both sides lowercased) [check_fatal_error] answers [False]; if none
    occurs, it answers [True] exactly when some fatal pattern hits the
    lowercased output, a hit being a regex search of the lowercased pattern
    (every entry of the table compiles) or, for a pattern that does not
    compile, the substring test.  A command whose cleaned output this is
    counts as failed ([_execute_step] returns [False], and the loop sets
    the step's status to [failed], otherwise to [done]) exactly when the
    check answers [True]. *)
Lemma check_fatal_error_by_its_tests : forall (orc : Oracle) (output : string),
  ((exists p, In p SUCCESS_PATTERNS
              /\ contains (lower p) (lower output) = true) ->
   check_fatal_error output = false)
  /\ ((forall p, In p SUCCESS_PATTERNS ->
                 contains (lower p) (lower output) = false) ->
      (check_fatal_error output = true <->
       exists p, In p FATAL_ERROR_PATTERNS
                 /\ pattern_hits p (lower output) = true))
  /\ (forall p, pattern_hits p (lower output) =
                match re_compile (lower p) with
                | Some r => search r (lower output)
                | None => contains (lower p) (lower output)
                end)
  /\ (forall p, In p FATAL_ERROR_PATTERNS ->
                exists r, re_compile (lower p) = Some r)
  /\ (forall c i cmd raw,
        shell_run orc (clock c) cmd (Executor._get_handlers cmd)
                  (Executor._get_timeout cmd) = ShOutput raw ->
        output = clean_output raw ->
        snd (Executor._execute_step orc c i cmd) = negb (check_fatal_error output))
  /\ (forall c step cmd raw,
        nth_error (steps c) (current_step_idx c) = Some step ->
        command step = Some cmd ->
        cmd <> "" ->
        Executor._is_catastrophic cmd = false ->
        shell_run orc (clock c) cmd (Executor._get_handlers cmd)
                  (Executor._get_timeout cmd) = ShOutput raw ->
        output = clean_output raw ->
        option_map status
          (nth_error (steps (fst (Executor.exec_iter orc c))) (current_step_idx c))
        = Some (if check_fatal_error output then failed else done)).
Proof.
  intros orc output.
  refine (conj _ (conj _ (conj _ (conj _ (conj _ _)))));
    [| split | intros p; reflexivity | | |
     intros c step cmd raw H1 H2 H3 H4 H5 ->;
     apply (exec_iter_status_after_output orc c step cmd raw); assumption].
  - intros (p & Hin & Hp). unfold check_fatal_error.
    replace (existsb _ SUCCESS_PATTERNS) with true; [reflexivity|].
    symmetry. apply existsb_exists. eauto.
  - unfold check_fatal_error.
    replace (existsb (fun p => contains (lower p) (lower output)) SUCCESS_PATTERNS)
      with false.
    + intros E. apply existsb_exists in E. exact E.
    + symmetry. apply not_true_is_false. intros E.
      apply existsb_exists in E as (p & Hin & Hp). rewrite H in Hp by exact Hin.
      discriminate.
  - unfold check_fatal_error.
    replace (existsb (fun p => contains (lower p) (lower output)) SUCCESS_PATTERNS)
      with false.
    + intros E. apply existsb_exists. exact E.
    + symmetry. apply not_true_is_false. intros E.
      apply existsb_exists in E as (p & Hin & Hp). rewrite H in Hp by exact Hin.
      discriminate.
  - exact fatal_patterns_compile.
  - intros c i cmd raw Hsh ->. unfold Executor._execute_step. rewrite Hsh.
    destruct (check_fatal_error (clean_output raw)); reflexivity.
Qed.

Lemma prefix_append : forall a b, String.prefix a (a ++ b) = true.
Proof.
  induction a as [|x a IH]; intros b; simpl.
  - apply prefix_empty.
  - destruct (ascii_dec x x); [apply IH | congruence].
Qed.

(** ** What error detection looks for (C5) *)

(** Two characters that are the same letter, whatever their case. *)
Definition same_letter (c d : ascii) : bool :=
  Ascii.eqb c d
  || (in_range "A" "Z" c && Nat.eqb (code d) (code c + 32))
  || (in_range "A" "Z" d && Nat.eqb (code c) (code d + 32)).

Fixpoint same_ignoring_case (a b : string) : bool :=
  match a, b with
  | EmptyString, EmptyString => true
  | String c a', String d b' => same_letter c d && same_ignoring_case a' b'
  | _, _ => false
  end.

(** [token] occurs in [output], case ignored. *)
Definition occurs_ignoring_case (token output : string) : Prop :=
  exists pre m post,
    output = pre ++ m ++ post /\ same_ignoring_case m token = true.

(** [x] occurs in [output] and [y] behind it on the same line, case
    ignored: what the regular expression [x.*y] looks for. *)
Definition occurs_with_gap (x y output : string) : Prop :=
  exists pre mx gap my post,
    output = pre ++ mx ++ gap ++ my ++ post
    /\ same_ignoring_case mx x = true
    /\ same_ignoring_case my y = true
    /\ mem LF gap = false.

(** A fatal pattern read as a regular expression: the entries of the table
    hold no metacharacter but one [.*]. *)
Definition fatal_pattern_matches (p output : string) : Prop :=
  match split_once ".*" p with
  | Some (x, y) => occurs_with_gap x y output
  | None => occurs_ignoring_case p output
  end.

Section DetectionFacts.

Definition all_ascii : list ascii := List.map ascii_of_nat (List.seq 0 256).

Lemma in_all_ascii : forall c, In c all_ascii.
Proof.
  intros c. rewrite <- (ascii_nat_embedding c). apply in_map, in_seq.
  pose proof (nat_ascii_bounded c). lia.
Qed.

Lemma same_letter_lower : forall c d,
  same_letter c d = Ascii.eqb (lower_char c) (lower_char d).
Proof.
  assert (H : forallb (fun c => forallb (fun d =>
                Bool.eqb (same_letter c d)
                         (Ascii.eqb (lower_char c) (lower_char d)))
              all_ascii) all_ascii = true) by (vm_compute; reflexivity).
  intros c d. rewrite forallb_forall in H. specialize (H c (in_all_ascii c)).
  rewrite forallb_forall in H. specialize (H d (in_all_ascii d)).
  apply Bool.eqb_prop in H. exact H.
Qed.

Lemma lower_char_newline : forall d,
  Ascii.eqb LF (lower_char d) = Ascii.eqb LF d.
Proof.
  assert (H : forallb (fun d => Bool.eqb (Ascii.eqb LF (lower_char d))
                                         (Ascii.eqb LF d))
                      all_ascii = true) by (vm_compute; reflexivity).
  intros d. rewrite forallb_forall in H. specialize (H d (in_all_ascii d)).
  apply Bool.eqb_prop in H. exact H.
Qed.

Lemma same_ignoring_case_lower : forall a b,
  same_ignoring_case a b = true <-> lower a = lower b.
Proof.
  unfold lower.
  induction a as [|c a IH]; intros [|d b]; cbn [same_ignoring_case map_str];
    try (split; [reflexivity | reflexivity]);
    try (split; discriminate).
  rewrite andb_true_iff, same_letter_lower, Ascii.eqb_eq, IH.
  split; [intros [-> ->]; reflexivity | intros [= -> ->]; auto].
Qed.

Lemma mem_newline_lower : forall g, mem LF (lower g) = mem LF g.
Proof.
  unfold lower. induction g as [|d g IH]; cbn [map_str mem]; [reflexivity|].
  now rewrite lower_char_newline, IH.
Qed.

Lemma append_assoc : forall a b c : string, (a ++ b) ++ c = a ++ (b ++ c).
Proof.
  induction a as [|x a IH]; intros b c; cbn [append]; [reflexivity|].
  now rewrite IH.
Qed.

Lemma map_str_app : forall f a b,
  map_str f (a ++ b) = map_str f a ++ map_str f b.
Proof.
  induction a as [|c a IH]; intros b; cbn [append map_str]; [reflexivity|].
  now rewrite IH.
Qed.

Lemma map_str_app_inv : forall f x y t,
  map_str f t = x ++ y ->
  exists x' y', t = x' ++ y' /\ map_str f x' = x /\ map_str f y' = y.
Proof.
  induction x as [|c x IH]; intros y t H.
  - exists "", t. auto.
  - destruct t as [|d t]; cbn [append map_str] in H; [discriminate|].
    injection H as H1 H2. destruct (IH _ _ H2) as (x' & y' & -> & E1 & E2).
    exists (String d x'), y'. cbn [append map_str]. now rewrite H1, E1.
Qed.

Lemma prefix_split : forall p s,
  String.prefix p s = true -> exists b, s = p ++ b.
Proof.
  induction p as [|c p IH]; intros s H.
  - exists s. reflexivity.
  - destruct s as [|d s]; [discriminate|]. cbn in H.
    destruct (ascii_dec c d) as [<- |]; [| discriminate].
    destruct (IH s H) as (b & ->). exists b. reflexivity.
Qed.

Lemma contains_split : forall sub t,
  contains sub t = true -> exists a b, t = a ++ sub ++ b.
Proof.
  induction t as [|d t IH]; cbn [contains]; intros H.
  - rewrite orb_false_r in H. apply prefix_split in H as (b & E).
    exists "", b. exact E.
  - apply orb_true_iff in H as [H | H].
    + apply prefix_split in H as (b & E). exists "", b. exact E.
    + destruct (IH H) as (x & b & ->). exists (String d x), b. reflexivity.
Qed.

Lemma contains_join : forall sub a b, contains sub (a ++ sub ++ b) = true.
Proof.
  intros sub a b. induction a as [|c a IH]; cbn [append].
  - destruct (sub ++ b) eqn:E; cbn [contains]; rewrite <- E, prefix_append;
      reflexivity.
  - cbn [contains]. rewrite IH. apply orb_true_r.
Qed.

Lemma contains_iff : forall sub t,
  contains sub t = true <-> exists a b, t = a ++ sub ++ b.
Proof.
  intros sub t. split; [apply contains_split|].
  intros (a & b & ->). apply contains_join.
Qed.

(** The substring test on lowercased texts is the occurrence of the token,
    case ignored. *)
Lemma contains_lower_occurs : forall p out,
  contains (lower p) (lower out) = true <-> occurs_ignoring_case p out.
Proof.
  intros p out. rewrite contains_iff. unfold occurs_ignoring_case. split.
  - intros (a & b & E). unfold lower in E.
    apply map_str_app_inv in E as (pre & rest & -> & E1 & E2).
    apply map_str_app_inv in E2 as (m & post & -> & E2 & E3).
    exists pre, m, post. split; [reflexivity|].
    apply same_ignoring_case_lower. exact E2.
  - intros (pre & m & post & -> & E). apply same_ignoring_case_lower in E.
    exists (lower pre), (lower post). unfold lower in *.
    now rewrite !map_str_app, E.
Qed.

(** *** The engine on the patterns of the table *)

(** [r] matches at the head of a text exactly the words of [L]. *)
Definition accepts (r : regex) (L : string -> Prop) : Prop :=
  forall s k,
    exec r s k <> None <->
    exists m rest, s = m ++ rest /\ L m /\ k rest <> None.

Lemma accepts_ext : forall r (L L' : string -> Prop),
  accepts r L -> (forall m, L m <-> L' m) -> accepts r L'.
Proof.
  intros r L L' A E s k. rewrite (A s k).
  split; intros (m & rest & H1 & H2 & H3); exists m, rest;
    (split; [exact H1 | split; [apply E; exact H2 | exact H3]]).
Qed.

Lemma accepts_eps : accepts Eps (fun m => m = "").
Proof.
  intros s k. cbn [exec]. split.
  - intros H. exists "", s. auto.
  - intros (m & rest & -> & -> & H). exact H.
Qed.

Lemma accepts_chr_then : forall c r L,
  accepts r L ->
  accepts (Seq (Chr c) r) (fun m => exists m', m = String c m' /\ L m').
Proof.
  intros c r L A s k. cbn [exec]. destruct s as [|d s].
  - split; [congruence|].
    intros (m & rest & E & (m' & -> & _) & _). discriminate.
  - destruct (Ascii.eqb_spec c d) as [<- | Hne].
    + rewrite (A s k). split.
      * intros (m & rest & -> & Hm & Hk). exists (String c m), rest. eauto.
      * intros (m & rest & E & (m' & -> & Hm) & Hk).
        cbn [append] in E. injection E as ->. eauto.
    + split; [congruence|].
      intros (m & rest & E & (m' & -> & _) & _).
      cbn [append] in E. congruence.
Qed.

Lemma accepts_lit : forall x, accepts (lit x) (fun m => m = x).
Proof.
  induction x as [|c x IH]; cbn [lit]; [exact accepts_eps|].
  eapply accepts_ext; [apply accepts_chr_then, IH|].
  intros m. split; [intros (m' & -> & ->); reflexivity | intros ->; eauto].
Qed.

(** The characters of [x], then [r]: what [re_compile] builds. *)
Fixpoint lit_then (x : string) (r : regex) : regex :=
  match x with
  | EmptyString => r
  | String c rest => Seq (Chr c) (lit_then rest r)
  end.

Lemma accepts_lit_then : forall x r L,
  accepts r L ->
  accepts (lit_then x r) (fun m => exists m', m = x ++ m' /\ L m').
Proof.
  induction x as [|c x IH]; intros r L A; cbn [lit_then].
  - eapply accepts_ext; [exact A|].
    intros m. split; [intros H; exists m; split; [reflexivity | exact H]
                     | intros (m' & -> & H); exact H].
  - eapply accepts_ext; [apply accepts_chr_then, IH, A|].
    intros m. split.
    + intros (m1 & -> & m' & -> & H). exists m'. split; [reflexivity | exact H].
    + intros (m' & -> & H). cbn [append]. exists (x ++ m').
      split; [reflexivity|]. exists m'. split; [reflexivity | exact H].
Qed.

Section StarLoop.
Variable k : string -> option string.

(** The repetition of [.], as [exec] runs it. *)
Fixpoint dot_loop (n : nat) (s : string) {struct n} : option string :=
  match n with
  | O => k s
  | S n' =>
      or_else
        (exec Dot s (fun s1 =>
           if Nat.ltb (String.length s1) (String.length s) then dot_loop n' s1
           else None))
        (k s)
  end.

Lemma dot_loop_spec : forall n s,
  String.length s <= n ->
  (dot_loop n s <> None <->
   exists m rest, s = m ++ rest /\ mem LF m = false /\ k rest <> None).
Proof.
  assert (Z : forall s, k s <> None <->
            exists m rest, s = m ++ rest /\ mem LF m = false /\ k rest <> None
                           /\ m = "").
  { intros s. split.
    - intros H. exists "", s. auto.
    - intros (m & rest & -> & _ & H & ->). exact H. }
  induction n as [|n IH]; intros s Hn.
  - destruct s; [| cbn in Hn; lia]. cbn [dot_loop]. split.
    + intros H. exists "", "". repeat split; auto.
    + intros (m & rest & E & _ & H).
      destruct m; [| discriminate]. cbn in E. now subst rest.
  - cbn [dot_loop]. unfold Dot. cbn [exec]. destruct s as [|d s].
    + cbn [or_else]. split.
      * intros H. exists "", "". repeat split; auto.
      * intros (m & rest & E & _ & H).
        destruct m; [| discriminate]. cbn in E. now subst rest.
    + cbn [String.length] in Hn.
      destruct (Ascii.eqb d LF) eqn:Ed; cbn [negb].
      * cbn [or_else]. split.
        -- intros H. exists "", (String d s). auto.
        -- intros (m & rest & E & Hm & H). destruct m as [|e m].
           ++ cbn in E. now subst rest.
           ++ cbn [append] in E. injection E as <- _. cbn [mem] in Hm.
              rewrite Ascii.eqb_sym, Ed in Hm. discriminate.
      * assert (T : Nat.ltb (String.length s) (String.length (String d s)) = true).
        { apply Nat.ltb_lt. cbn. lia. }
        rewrite T. specialize (IH s ltac:(lia)).
        destruct (dot_loop n s) as [v|] eqn:El; cbn [or_else].
        -- split; [intros _ | congruence].
           destruct (proj1 IH ltac:(congruence)) as (m & rest & -> & Hm & Hk).
           exists (String d m), rest. cbn [append mem].
           rewrite Ascii.eqb_sym, Ed, Hm. auto.
        -- split.
           ++ intros H. exists "", (String d s). auto.
           ++ intros (m & rest & E & Hm & H). destruct m as [|e m].
              ** cbn in E. now subst rest.
              ** cbn [append] in E. injection E as <- ->. cbn [mem] in Hm.
                 apply orb_false_iff in Hm as [_ Hm].
                 exfalso. apply (proj2 IH); eauto.
Qed.

End StarLoop.

Lemma accepts_star_dot : accepts (Star Dot) (fun m => mem LF m = false).
Proof.
  intros s k.
  change (exec (Star Dot) s k) with (dot_loop k (String.length s) s).
  apply dot_loop_spec. lia.
Qed.

Lemma accepts_star_dot_then : forall r L,
  accepts r L ->
  accepts (Seq (Star Dot) r)
          (fun m => exists g m', m = g ++ m' /\ mem LF g = false /\ L m').
Proof.
  intros r L A s k. cbn [exec].
  change (exec (Star Dot) s (fun s1 => exec r s1 k))
    with (exec (Star Dot) s (fun s1 => exec r s1 k)).
  rewrite (accepts_star_dot s (fun s1 => exec r s1 k)). split.
  - intros (g & rest & -> & Hg & H). apply (A rest k) in H.
    destruct H as (m' & rest' & -> & Hm & Hk).
    exists (g ++ m'), rest'. rewrite <- append_assoc at 1. eauto 10.
  - intros (m & rest & -> & (g & m' & -> & Hg & Hm) & Hk).
    exists g, (m' ++ rest). rewrite append_assoc.
    split; [reflexivity|]. split; [exact Hg|].
    apply (A (m' ++ rest) k). eauto.
Qed.

Lemma search_accepts : forall r L,
  accepts r L ->
  forall s, search r s = true <-> exists a m b, s = a ++ m ++ b /\ L m.
Proof.
  intros r L A.
  assert (M : forall s, match_at r s <> None <->
                        exists m rest, s = m ++ rest /\ L m).
  { intros s. unfold match_at. rewrite (A s). split.
    - intros (m & rest & E & H & _). eauto.
    - intros (m & rest & E & H). exists m, rest. repeat split; auto; discriminate. }
  induction s as [|c s IH]; cbn [search].
  - destruct (match_at r "") eqn:E.
    + split; [intros _ | reflexivity].
      destruct (proj1 (M "") ltac:(congruence)) as (m & rest & E' & H).
      exists "", m, rest. split; [exact E' | exact H].
    + split; [discriminate|].
      intros (a & m & b & E' & H). destruct a; [| discriminate].
      cbn [append] in E'.
      exfalso. apply (proj2 (M "")); [| exact E]. exists m, b. auto.
  - destruct (match_at r (String c s)) eqn:E.
    + split; [intros _ | reflexivity].
      destruct (proj1 (M (String c s)) ltac:(congruence)) as (m & rest & E' & H).
      exists "", m, rest. split; [exact E' | exact H].
    + rewrite IH. split.
      * intros (a & m & b & -> & H). exists (String c a), m, b.
        split; [reflexivity | exact H].
      * intros (a & m & b & E' & H). destruct a as [|d a].
        -- cbn [append] in E'.
           exfalso. apply (proj2 (M (String c s))); [| exact E].
           exists m, b. auto.
        -- cbn [append] in E'. injection E' as <- ->.
           exists a, m, b. split; [reflexivity | exact H].
Qed.

(** What [re.compile] makes of the entries of the fatal table. *)
Lemma fatal_table_compiled : forall p,
  In p FATAL_ERROR_PATTERNS ->
  re_compile (lower p) =
  Some (match split_once ".*" p with
        | Some (x, y) => lit_then (lower x) (Seq (Star Dot) (lit (lower y)))
        | None => lit (lower p)
        end).
Proof.
  intros p H. unfold FATAL_ERROR_PATTERNS in H. cbn [In] in H.
  repeat (destruct H as [<- | H]; [vm_compute; reflexivity |]).
  contradiction.
Qed.

(** A hit of a fatal pattern on the lowercased output is a match of the
    pattern, read as a regular expression, case ignored. *)
Lemma pattern_hits_meaning : forall p out,
  In p FATAL_ERROR_PATTERNS ->
  (pattern_hits p (lower out) = true <-> fatal_pattern_matches p out).
Proof.
  intros p out Hin. unfold pattern_hits, fatal_pattern_matches.
  rewrite (fatal_table_compiled p Hin).
  destruct (split_once ".*" p) as [[x y]|].
  - rewrite (search_accepts _ _
               (accepts_lit_then (lower x) _ _
                  (accepts_star_dot_then _ _ (accepts_lit (lower y))))).
    unfold occurs_with_gap. split.
    + intros (a & m & b & E & m1 & -> & g & m2 & -> & Hg & ->).
      unfold lower in E.
      apply map_str_app_inv in E as (pre & t1 & -> & E0 & E).
      rewrite !append_assoc in E.
      apply map_str_app_inv in E as (mx & t2 & -> & E1 & E).
      apply map_str_app_inv in E as (gap & t3 & -> & E2 & E).
      apply map_str_app_inv in E as (my & post & -> & E3 & E4).
      exists pre, mx, gap, my, post.
      split; [reflexivity|].
      split; [apply same_ignoring_case_lower; exact E1|].
      split; [apply same_ignoring_case_lower; exact E3|].
      rewrite <- mem_newline_lower. unfold lower. rewrite E2. exact Hg.
    + intros (pre & mx & gap & my & post & -> & E1 & E3 & Hg).
      apply same_ignoring_case_lower in E1, E3.
      exists (lower pre), (lower x ++ lower gap ++ lower y), (lower post).
      split.
      * unfold lower in *. rewrite !map_str_app, E1, E3.
        now rewrite !append_assoc.
      * exists (lower gap ++ lower y). split; [reflexivity|].
        exists (lower gap), (lower y). rewrite mem_newline_lower. auto.
  - rewrite (search_accepts _ _ (accepts_lit (lower p))).
    rewrite <- contains_lower_occurs, contains_iff. split.
    + intros (a & m & b & E & ->). eauto.
    + intros (a & b & E). eauto.
Qed.

End DetectionFacts.

(** C5. For every output: if a success token occurs in it, whatever the
    case of its letters, [check_fatal_error] answers [False], whatever fatal
    patterns occur too; if none occurs, it answers [True] exactly when some
    fatal pattern, read as a regular expression, matches the output with
    case ignored: [x.*y] asks for [x] and, behind it on the same line, [y],
    and an entry without [.*] asks for itself.  The code's tests are these:
    the substring test on the lowercased texts is the occurrence with case
    ignored, and a hit of [re.search] with the lowercased pattern on the
    lowercased output is the match just described; every entry of the table
    compiles, and the literal test stands in for a pattern that does not.
    A command whose cleaned output this is counts as failed
    ([_execute_step] returns [False], and the loop sets the step's status
    to [failed], otherwise to [done]) exactly when the check answers
    [True]. *)
Theorem check_fatal_error_success_tokens_first : forall (orc : Oracle) (output : string),
  ((exists p, In p SUCCESS_PATTERNS /\ occurs_ignoring_case p output) ->
   check_fatal_error output = false)
  /\ ((forall p, In p SUCCESS_PATTERNS -> ~ occurs_ignoring_case p output) ->
      (check_fatal_error output = true <->
       exists p, In p FATAL_ERROR_PATTERNS /\ fatal_pattern_matches p output))
  /\ (forall p, contains (lower p) (lower output) = true <->
                occurs_ignoring_case p output)
  /\ (forall p, In p FATAL_ERROR_PATTERNS ->
                (pattern_hits p (lower output) = true <->
                 fatal_pattern_matches p output))
  /\ ((exists p, In p SUCCESS_PATTERNS
                 /\ contains (lower p) (lower output) = true) ->
      check_fatal_error output = false)
  /\ ((forall p, In p SUCCESS_PATTERNS ->
                 contains (lower p) (lower output) = false) ->
      (check_fatal_error output = true <->
       exists p, In p FATAL_ERROR_PATTERNS
                 /\ pattern_hits p (lower output) = true))
  /\ (forall p, pattern_hits p (lower output) =
                match re_compile (lower p) with
                | Some r => search r (lower output)
                | None => contains (lower p) (lower output)
                end)
  /\ (forall p, In p FATAL_ERROR_PATTERNS ->
                exists r, re_compile (lower p) = Some r)
  /\ (forall c i cmd raw,
        shell_run orc (clock c) cmd (Executor._get_handlers cmd)
                  (Executor._get_timeout cmd) = ShOutput raw ->
        output = clean_output raw ->
        snd (Executor._execute_step orc c i cmd) = negb (check_fatal_error output))
  /\ (forall c step cmd raw,
        nth_error (steps c) (current_step_idx c) = Some step ->
        command step = Some cmd ->
        cmd <> "" ->
        Executor._is_catastrophic cmd = false ->
        shell_run orc (clock c) cmd (Executor._get_handlers cmd)
                  (Executor._get_timeout cmd) = ShOutput raw ->
        output = clean_output raw ->
        option_map status
          (nth_error (steps (fst (Executor.exec_iter orc c))) (current_step_idx c))
        = Some (if check_fatal_error output then failed else done)).
Proof.
  intros orc output.
  pose proof (check_fatal_error_by_its_tests orc output) as T.
  destruct T as (T1 & T2 & T).
  split; [| split; [| split; [| split; [| split; [| split]]]]].
  - intros (p & Hin & Hp). apply T1. exists p. split; [exact Hin|].
    apply contains_lower_occurs. exact Hp.
  - intros Hno. rewrite T2.
    + split; intros (p & Hin & Hp); exists p; (split; [exact Hin|]);
        apply (pattern_hits_meaning p output Hin); exact Hp.
    + intros p Hin. destruct (contains (lower p) (lower output)) eqn:E;
        [| reflexivity].
      exfalso. apply (Hno p Hin). apply contains_lower_occurs. exact E.
  - intros p. apply contains_lower_occurs.
  - intros p Hin. apply pattern_hits_meaning. exact Hin.
  - exact T1.
  - exact T2.
  - exact T.
Qed.

(** A witness of C5: a fatal pattern in capitals, met through its [.*]; the
    same with a success token in capitals behind it; and the two halves of
    the pattern on two lines. *)
Lemma check_fatal_error_success_tokens_first_witness :
  check_fatal_error "yum: NO PACKAGE htop AVAILABLE." = true
  /\ check_fatal_error "No package htop available. NOTHING to do." = false
  /\ check_fatal_error ("No package htop" ++ String LF "available") = false.
Proof.
  assert (orc : Oracle)
    by exact (mkOracle (fun _ => Text "") (fun _ _ _ _ => ShOutput "")
                       (fun _ => None)).
  split; [| split].
  - destruct (check_fatal_error_success_tokens_first orc
                "yum: NO PACKAGE htop AVAILABLE.") as (_ & T2 & T3 & _).
    apply T2.
    + intros p Hin Hoc. apply T3 in Hoc.
      unfold SUCCESS_PATTERNS in Hin. cbn [In] in Hin.
      repeat (destruct Hin as [<- | Hin]; [vm_compute in Hoc; discriminate |]).
      contradiction.
    + exists "No package .* available". split; [cbn; tauto|].
      exists "yum: ", "NO PACKAGE ", "htop", " AVAILABLE", ".".
      repeat split; reflexivity.
  - destruct (check_fatal_error_success_tokens_first orc
                "No package htop available. NOTHING to do.") as (T1 & _).
    apply T1. exists "nothing to do". split; [cbn; tauto|].
    exists "No package htop available. ", "NOTHING to do", ".".
    split; reflexivity.
  - destruct (check_fatal_error_success_tokens_first orc
                ("No package htop" ++ String LF "available"))
      as (_ & T2 & T3 & T4 & _).
    apply not_true_is_false. intros E. apply T2 in E.
    + destruct E as (p & Hin & Hm). apply (T4 p Hin) in Hm.
      unfold FATAL_ERROR_PATTERNS in Hin. cbn [In] in Hin.
      repeat (destruct Hin as [<- | Hin]; [vm_compute in Hm; discriminate |]).
      contradiction.
    + intros p Hin Hoc. apply T3 in Hoc.
      unfold SUCCESS_PATTERNS in Hin. cbn [In] in Hin.
      repeat (destruct Hin as [<- | Hin]; [vm_compute in Hoc; discriminate |]).
      contradiction.
Defined.

(** ** Repair (C7) *)

Section RepairFacts.


Lemma filter_map_Forall : forall {A B} (f : A -> option B) (P : B -> Prop) l,
  (forall x y, f x = Some y -> P y) -> Forall P (Repair.filter_map f l).
Proof.
  intros A B f P l H. induction l as [|x l IH]; simpl.
  - constructor.
  - destruct (f x) eqn:E; [constructor; eauto | exact IH].
Qed.

Lemma Forall_firstn : forall {A} (P : A -> Prop) n l,
  Forall P l -> Forall P (firstn n l).
Proof.
  intros A P n l H. revert n.
  induction H as [|x l Hx Hl IH]; intros [|n]; simpl; constructor; auto.
Qed.

(** The loop of [list.insert] calls places the new steps, in order, at the
    position of the first insertion. *)
Lemma insert_each_spec : forall {A} (new l : list A) at_,
  at_ <= List.length l ->
  Repair.insert_each l at_ new = (firstn at_ l ++ new ++ skipn at_ l)%list.
Proof.
  induction new as [|x new IH]; intros l at_ H; simpl.
  - now rewrite firstn_skipn.
  - unfold Repair.py_insert. rewrite IH.
    + assert (L : List.length (firstn at_ l) = at_) by (apply firstn_length_le; exact H).
      replace (S at_) with (List.length (firstn at_ l) + 1) by lia.
      rewrite firstn_app_2, skipn_app. rewrite L.
      replace (at_ + 1 - at_) with 1 by lia.
      assert (E : skipn (at_ + 1) (firstn at_ l) = []) by (apply skipn_all2; lia).
      rewrite E. simpl.
      now rewrite <- app_assoc.
    + rewrite length_app, firstn_length_le by exact H. simpl.
      rewrite length_skipn. lia.
Qed.

End RepairFacts.



(** ** Re-planning on a repeated reason (C3) *)

Section ReplanFacts.

Lemma split_incomplete : forall X,
  split_once ":" ("INCOMPLETE:" ++ X) = Some ("INCOMPLETE", X).
Proof. intros X. cbn. now rewrite prefix_empty. Qed.

(** An evaluation [INCOMPLETE:X] when [X] is not the recorded reason. *)
Lemma evaluation_new_reason : forall c X,
  String.eqb X (last_failure_reason c) = false ->
  let (c', r) := Executor.handle_evaluation c ("INCOMPLETE:" ++ X) in
  replan_count c' = 0 /\ last_failure_reason c' = X
  /\ max_replans c' = max_replans c
  /\ next_agent r = Some (if Nat.ltb 0 (max_replans c)
                          then "PlannerAgent" else "SummaryAgent").
Proof.
  intros c X H. unfold Executor.handle_evaluation.
  rewrite split_incomplete.
  change (startswith "COMPLETED" ("INCOMPLETE:" ++ X)) with false.
  change (startswith "INCOMPLETE" ("INCOMPLETE:" ++ X)) with (String.prefix "" (":" ++ X)).
  rewrite prefix_empty, H. ctx_simpl.
  destruct (Nat.ltb 0 (max_replans c)); ctx_simpl; auto.
Qed.

(** An evaluation [INCOMPLETE:X] when [X] is the recorded reason. *)
Lemma evaluation_same_reason : forall c X,
  last_failure_reason c = X ->
  let (c', r) := Executor.handle_evaluation c ("INCOMPLETE:" ++ X) in
  replan_count c' = replan_count c + 1 /\ last_failure_reason c' = X
  /\ max_replans c' = max_replans c
  /\ next_agent r = Some (if Nat.ltb (replan_count c + 1) (max_replans c)
                          then "PlannerAgent" else "SummaryAgent").
Proof.
  intros c X H. unfold Executor.handle_evaluation.
  rewrite split_incomplete.
  change (startswith "COMPLETED" ("INCOMPLETE:" ++ X)) with false.
  change (startswith "INCOMPLETE" ("INCOMPLETE:" ++ X)) with (String.prefix "" (":" ++ X)).
  rewrite prefix_empty, H, String.eqb_refl. ctx_simpl.
  destruct (Nat.ltb (replan_count c + 1) (max_replans c)); ctx_simpl; auto.
Qed.

End ReplanFacts.

(** C3, as stated, fails: from a fresh context (no recorded reason, cap 3)
    two evaluations [INCOMPLETE:X] leave [replan_count] at 1, and the
    evaluation after them, on the same reason, hands off to the Planner. *)
Lemma two_same_reasons_do_not_reach_the_cap :
  let c2 := fst (Machine.after_evaluations (fun c => c) "X" 2
                   (new_context "g" [] None 3)) in
  ~ (replan_count c2 = max_replans c2
     /\ next_agent (snd (Executor.handle_evaluation c2 "INCOMPLETE:X"))
        = Some "SummaryAgent").
Proof. vm_compute. intros [H _]. discriminate H. Qed.

(** The same seen from the orchestrator: with a model that always answers
    [INCOMPLETE:X] the Planner is re-invoked after the first, second and
    third evaluation, and the fourth goes to Summary with the cap reached. *)
Lemma stubborn_turn_trace :
  let t := fst (Orchestrator.run (Orchestrator.registry Machine.stubborn)
                                 "g" None None) in
  Orchestrator.invoked t =
    [ "RouterAgent"; "PlannerAgent"; "ExecutorAgent"; "PlannerAgent";
      "ExecutorAgent"; "PlannerAgent"; "ExecutorAgent"; "PlannerAgent";
      "ExecutorAgent"; "SummaryAgent" ]
  /\ replan_count (Orchestrator.ctx t) = 3.
Proof. vm_compute. split; reflexivity. Qed.

(** C3 (amended). From a context with no recorded reason and
    [replan_count = 0], when every evaluation returns [INCOMPLETE:X] with the
    same non-empty [X] (and what happens in between leaves [replan_count],
    [max_replans] and [last_failure_reason] alone), the n-th evaluation
    leaves [replan_count = n - 1]: the first records [X], each later one
    adds one.  It hands off to the Planner while [n - 1 < max_replans] and
    to Summary otherwise; so with the cap 3 the fourth evaluation reaches
    the cap and is the first to go to Summary. *)
Theorem same_reason_reaches_cap_after_cap_plus_one_evaluations :
  forall (between : AgentContext -> AgentContext) (X : string)
         (c0 : AgentContext) (n : nat),
    (forall c, replan_count (between c) = replan_count c
               /\ max_replans (between c) = max_replans c
               /\ last_failure_reason (between c) = last_failure_reason c) ->
    X <> "" ->
    last_failure_reason c0 = "" ->
    replan_count c0 = 0 ->
    1 <= n ->
    let (c, r) := Machine.after_evaluations between X n c0 in
    replan_count c = n - 1
    /\ last_failure_reason c = X
    /\ max_replans c = max_replans c0
    /\ option_map next_agent r
       = Some (Some (if Nat.ltb (n - 1) (max_replans c0)
                     then "PlannerAgent" else "SummaryAgent")).
Proof.
  intros between X c0 n Hb HX Hl Hr Hn.
  induction n as [|n IH]; [lia|].
  cbn [Machine.after_evaluations].
  destruct n as [|n].
  - cbn [Machine.after_evaluations].
    destruct (Hb c0) as (B1 & B2 & B3).
    assert (E : String.eqb X (last_failure_reason (between c0)) = false).
    { rewrite B3, Hl. apply String.eqb_neq. exact HX. }
    pose proof (evaluation_new_reason (between c0) X E) as P.
    destruct (Executor.handle_evaluation (between c0) ("INCOMPLETE:" ++ X)) as [c' r].
    destruct P as (P1 & P2 & P3 & P4). cbn [option_map].
    rewrite P1, P2, P3, P4, B2. auto.
  - specialize (IH ltac:(lia)).
    destruct (Machine.after_evaluations between X (S n) c0) as [c r0].
    destruct IH as (I1 & I2 & I3 & _).
    destruct (Hb c) as (B1 & B2 & B3).
    assert (E : last_failure_reason (between c) = X) by congruence.
    pose proof (evaluation_same_reason (between c) X E) as P.
    destruct (Executor.handle_evaluation (between c) ("INCOMPLETE:" ++ X)) as [c' r].
    destruct P as (P1 & P2 & P3 & P4). cbn [option_map].
    rewrite P1, P2, P3, P4, B1, B2, I1, I3.
    replace (S n - 1 + 1) with (S (S n) - 1) by lia. auto.
Qed.

(** A witness of the amended C3: four evaluations on the reason ["X"] from
    a fresh context of the orchestrator. *)
Lemma same_reason_reaches_cap_after_cap_plus_one_evaluations_witness :
  let (c, r) := Machine.after_evaluations (fun c => c) "X" 4
                  (new_context "g" [] None 3) in
  replan_count c = 3
  /\ last_failure_reason c = "X"
  /\ max_replans c = 3
  /\ option_map next_agent r = Some (Some "SummaryAgent").
Proof.
  apply (same_reason_reaches_cap_after_cap_plus_one_evaluations
           (fun c => c) "X" (new_context "g" [] None 3) 4).
  - intros c. auto.
  - discriminate.
  - reflexivity.
  - reflexivity.
  - lia.
Defined.

(** ** The bounded counters (C8) *)

Section CounterFacts.
Variable orc : Oracle.

(** What only the evaluation at the end of the Executor may change. *)
Definition plan_counters (c : AgentContext) :=
  (max_retries c, max_replans c, replan_count c, last_failure_reason c).

Lemma execute_step_frame : forall c i cmd,
  let c' := fst (Executor._execute_step orc c i cmd) in
  plan_counters c' = plan_counters c
  /\ retry_count c' = retry_count c
  /\ current_step_idx c' = current_step_idx c
  /\ List.length (steps c') = List.length (steps c).
Proof.
  intros c i cmd. unfold Executor._execute_step, plan_counters.
  destruct (shell_run orc (clock c) cmd _ _) as [raw | e | e].
  - destruct (check_fatal_error (clean_output raw)); ctx_simpl; auto.
  - ctx_simpl; auto.
  - ctx_simpl; auto.
Qed.

(** One pass of the Executor's loop: [retry_count] is kept or reset, never
    raised; a hand-off out of the loop goes to Repair and only below the
    retry cap; a pass that does not return moves the index forward. *)
Lemma exec_iter_spec : forall c c' r,
  Executor.exec_iter orc c = (c', r) ->
  plan_counters c' = plan_counters c
  /\ (retry_count c' = retry_count c \/ retry_count c' = 0)
  /\ List.length (steps c') = List.length (steps c)
  /\ match r with
     | Some res => next_agent res = Some "RepairAgent"
                   /\ retry_count c' < max_retries c'
                   /\ current_step_idx c' = current_step_idx c
     | None => current_step_idx c < List.length (steps c) ->
               current_step_idx c' = current_step_idx c + 1
     end.
Proof.
  intros c c' r. unfold Executor.exec_iter.
  destruct (nth_error (steps c) (current_step_idx c)) as [step|] eqn:E.
  2:{ intros [= <- <-]. repeat split; auto.
      intros H. apply nth_error_None in E. lia. }
  set (c1 := emit (emit_tasks (update_step c (current_step_idx c)
                                 (fun s => set_status s running)))
                  "log" ("开始: " ++ title step)).
  assert (F1 : plan_counters c1 = plan_counters c
               /\ retry_count c1 = retry_count c
               /\ current_step_idx c1 = current_step_idx c
               /\ List.length (steps c1) = List.length (steps c)).
  { unfold c1, plan_counters. ctx_simpl. auto. }
  destruct F1 as (P1 & R1 & I1 & L1).
  destruct (command step) as [[|a cmd]|].
  - intros [= <- <-]. unfold plan_counters in *. ctx_simpl. repeat split; auto.
  - destruct (Executor._is_catastrophic (String a cmd)).
    + intros [= <- <-]. unfold plan_counters in *. ctx_simpl. repeat split; auto.
    + pose proof (execute_step_frame c1 (current_step_idx c) (String a cmd)) as F2.
      destruct (Executor._execute_step orc c1 (current_step_idx c) (String a cmd))
        as [c2 ok].
      cbn [fst] in F2. destruct F2 as (P2 & R2 & I2 & L2).
      destruct ok.
      * intros [= <- <-]. unfold plan_counters in *. ctx_simpl.
        repeat split; auto; congruence.
      * destruct (Nat.ltb _ _) eqn:Hlt; intros [= <- <-];
          unfold plan_counters in *; ctx_simpl; ctx_simpl_in Hlt.
        -- apply Nat.ltb_lt in Hlt.
           repeat split; auto; try congruence; left; congruence.
        -- repeat split; auto; congruence.
  - intros [= <- <-]. unfold plan_counters in *. ctx_simpl. repeat split; auto.
Qed.

(** The loop: the same, and an exit through the loop condition finds the
    steps exhausted when the fuel was [len - idx] or more. *)
Lemma exec_loop_spec : forall fuel c c' r,
  Executor.exec_loop orc fuel c = (c', r) ->
  plan_counters c' = plan_counters c
  /\ (retry_count c' = retry_count c \/ retry_count c' = 0)
  /\ match r with
     | Some res => next_agent res = Some "RepairAgent"
                   /\ retry_count c' < max_retries c'
     | None => List.length (steps c) - current_step_idx c <= fuel ->
               List.length (steps c') <= current_step_idx c'
     end.
Proof.
  induction fuel as [|f IH]; intros c c' r; cbn [Executor.exec_loop].
  - intros [= <- <-]. repeat split; auto. lia.
  - destruct (Nat.ltb (current_step_idx c) (List.length (steps c))) eqn:Hlt.
    + apply Nat.ltb_lt in Hlt.
      destruct (Executor.exec_iter orc c) as [c1 [res|]] eqn:E1;
        apply exec_iter_spec in E1; destruct E1 as (P1 & R1 & L1 & N1).
      * intros [= <- <-]. destruct N1 as (N1 & N2 & _). auto.
      * intros E2. apply IH in E2. destruct E2 as (P2 & R2 & N2).
        specialize (N1 Hlt).
        split; [congruence|]. split; [destruct R1, R2; auto; first [left; congruence | right; congruence]|].
        destruct r; [exact N2|]. intros Hf. apply N2. lia.
    + apply Nat.ltb_ge in Hlt. intros [= <- <-]. repeat split; auto.
Qed.

(** The tail of the Executor: [replan_count] is reset or raised by one, and
    a hand-off to the Planner is made only below the re-plan cap. *)
Lemma handle_evaluation_spec : forall c ev c' r,
  Executor.handle_evaluation c ev = (c', r) ->
  max_retries c' = max_retries c /\ max_replans c' = max_replans c
  /\ (retry_count c' = retry_count c \/ retry_count c' = 0)
  /\ (replan_count c' = replan_count c \/ replan_count c' = replan_count c + 1
      \/ replan_count c' = 0)
  /\ (next_agent r = Some "SummaryAgent"
      \/ (next_agent r = Some "PlannerAgent"
          /\ replan_count c' < max_replans c')).
Proof.
  intros c ev c' r. unfold Executor.handle_evaluation.
  destruct (startswith "COMPLETED" ev).
  { intros [= <- <-]. ctx_simpl. auto 10. }
  destruct (startswith "INCOMPLETE" ev).
  2:{ intros [= <- <-]. ctx_simpl. auto 10. }
  set (reason := match split_once ":" ev with Some (_, r0) => r0 | None => _ end).
  destruct (String.eqb reason (last_failure_reason c)).
  - destruct (Nat.ltb _ _) eqn:Hlt; intros [= <- <-]; ctx_simpl; ctx_simpl_in Hlt.
    + apply Nat.ltb_lt in Hlt. repeat split; auto.
    + auto 10.
  - destruct (Nat.ltb _ _) eqn:Hlt; intros [= <- <-]; ctx_simpl; ctx_simpl_in Hlt.
    + apply Nat.ltb_lt in Hlt. repeat split; auto.
    + auto 10.
Qed.

Lemma evaluate_frame : forall c,
  let c' := fst (Executor._evaluate_goal_completion orc c) in
  plan_counters c' = plan_counters c /\ retry_count c' = retry_count c.
Proof.
  intros c. unfold Executor._evaluate_goal_completion, plan_counters.
  destruct (llm_complete orc (clock c)) as [reply | e].
  - repeat match goal with |- context [if ?b then _ else _] => destruct b end;
      ctx_simpl; auto.
  - repeat match goal with |- context [if ?b then _ else _] => destruct b end;
      ctx_simpl; auto.
Qed.

(** [ExecutorAgent.run] as a whole. *)
Lemma executor_run_spec : forall c c' r,
  Executor.run orc c = (c', r) ->
  max_retries c' = max_retries c /\ max_replans c' = max_replans c
  /\ (retry_count c' = retry_count c \/ retry_count c' = 0)
  /\ (replan_count c' = replan_count c \/ replan_count c' = replan_count c + 1
      \/ replan_count c' = 0)
  /\ ((next_agent r = Some "RepairAgent" /\ retry_count c' < max_retries c'
       /\ replan_count c' = replan_count c)
      \/ next_agent r = Some "SummaryAgent"
      \/ (next_agent r = Some "PlannerAgent"
          /\ replan_count c' < max_replans c')).
Proof.
  intros c c' r. unfold Executor.run.
  destruct (Executor.exec_loop orc _ c) as [c1 [res|]] eqn:E1;
    apply exec_loop_spec in E1; destruct E1 as (P1 & R1 & N1);
    unfold plan_counters in P1; injection P1 as M1 M2 M3 M4.
  - intros [= <- <-]. destruct N1 as (N1 & N2). auto 10.
  - pose proof (evaluate_frame c1) as F.
    destruct (Executor._evaluate_goal_completion orc c1) as [c2 ev].
    cbn [fst] in F. destruct F as (P2 & R2).
    unfold plan_counters in P2; injection P2 as K1 K2 K3 K4.
    intros E3. apply handle_evaluation_spec in E3.
    destruct E3 as (H1 & H2 & H3 & H4 & H5).
    split; [congruence|]. split; [congruence|].
    split; [destruct R1, H3; auto; first [left; congruence | right; congruence]|].
    split; [destruct H4 as [H4|[H4|H4]]; auto; [left | right; left]; congruence|].
    destruct H5 as [H5|H5]; auto.
Qed.

(** [RepairAgent.run]: the one place where [retry_count] grows. *)
Lemma repair_run_spec : forall c c' r,
  Repair.run orc c = (c', r) ->
  plan_counters c' = plan_counters c
  /\ ((next_agent r = Some "SummaryAgent" /\ c' = c)
      \/ (next_agent r = Some "ExecutorAgent"
          /\ (retry_count c' = retry_count c + 1 \/ retry_count c' = 0))).
Proof.
  intros c c' r. unfold Repair.run, Repair._generate_repair, plan_counters.
  destruct (get_current_step c).
  2:{ intros [= <- <-]. auto. }
  cbn [clock set_retry_count].
  destruct (llm_complete orc (clock c)) as [suggestion | e].
  - destruct (Repair.parse_repair suggestion);
      intros [= <- <-]; ctx_simpl; auto 10.
  - intros [= <- <-]; ctx_simpl; auto 10.
Qed.

(** Planner, Router, Chat and Summary leave the four counters and the two
    caps alone. *)
Lemma planner_run_spec : forall c c' r,
  Planner.run orc c = (c', r) ->
  plan_counters c' = plan_counters c /\ retry_count c' = retry_count c
  /\ (next_agent r = Some "ExecutorAgent" \/ next_agent r = None).
Proof.
  intros c c' r. unfold Planner.run, Planner._generate_plan,
    Planner._generate_intro, Planner.planning_failed, plan_counters.
  destruct (shell_start orc (clock c)).
  { intros [= <- <-]; ctx_simpl; auto. }
  cbn [clock tick].
  destruct (llm_complete orc (S (clock c))) as [plan | e].
  2:{ intros [= <- <-]; ctx_simpl; auto. }
  destruct (Repair.filter_map Planner.parse_line (splitlines plan)).
  { intros [= <- <-]; ctx_simpl; auto. }
  cbn [clock tick set_steps].
  destruct (llm_complete orc (S (S (clock c))));
    intros [= <- <-]; ctx_simpl; auto.
Qed.

Lemma router_run_spec : forall c c' r,
  Router.run orc c = (c', r) ->
  plan_counters c' = plan_counters c /\ retry_count c' = retry_count c
  /\ (next_agent r = Some "ChatAgent" \/ next_agent r = Some "PlannerAgent").
Proof.
  intros c c' r. unfold Router.run, Router._classify_intent, plan_counters.
  cbn [clock memory_append set_memory].
  destruct (llm_complete orc (clock c)) as [reply | e].
  - destruct (contains "CHAT" (upper reply)); intros [= <- <-]; ctx_simpl; auto.
  - intros [= <- <-]; ctx_simpl; auto.
Qed.

Lemma chat_run_spec : forall c c' r,
  Chat.run orc c = (c', r) ->
  plan_counters c' = plan_counters c /\ retry_count c' = retry_count c
  /\ next_agent r = None.
Proof.
  intros c c' r. unfold Chat.run, plan_counters.
  destruct (llm_complete orc (clock c)); intros [= <- <-]; ctx_simpl; auto.
Qed.

Lemma summary_run_spec : forall c c' r,
  Summary.run orc c = (c', r) ->
  plan_counters c' = plan_counters c /\ retry_count c' = retry_count c
  /\ next_agent r = None.
Proof.
  intros c c' r. unfold Summary.run, plan_counters.
  destruct (llm_complete orc (clock c)); intros [= <- <-]; ctx_simpl; auto.
Qed.

End CounterFacts.

Section TurnFacts.
Variable orc : Oracle.

Lemma lift_returns : forall f c c' (o : Outcome AgentResult),
  Orchestrator.lift f c = (c', o) ->
  exists r, o = Returns r /\ f c = (c', r).
Proof.
  intros f c c' o. unfold Orchestrator.lift.
  destruct (f c) as [c1 r1]. intros [= <- <-]. eauto.
Qed.

(** The six entries of the registry. *)
Lemma registry_cases : forall n agent,
  Orchestrator.registry orc n = Some agent ->
  (n = "RouterAgent" /\ agent = Orchestrator.lift (Router.run orc))
  \/ (n = "ChatAgent" /\ agent = Orchestrator.lift (Chat.run orc))
  \/ (n = "PlannerAgent" /\ agent = Orchestrator.lift (Planner.run orc))
  \/ (n = "ExecutorAgent" /\ agent = Orchestrator.lift (Executor.run orc))
  \/ (n = "RepairAgent" /\ agent = Orchestrator.lift (Repair.run orc))
  \/ (n = "SummaryAgent" /\ agent = Orchestrator.lift (Summary.run orc)).
Proof.
  intros n agent. unfold Orchestrator.registry.
  repeat match goal with
         | |- context [String.eqb n ?k] =>
             destruct (String.eqb_spec n k) as [-> | _];
             [intros [= <-]; auto 10 |]
         end.
  discriminate.
Qed.

(** The invariant carried along a turn. *)
Definition within_caps (name : option string) (c : AgentContext) : Prop :=
  retry_count c <= max_retries c
  /\ replan_count c <= max_replans c
  /\ (name = Some "RepairAgent" -> retry_count c < max_retries c)
  /\ (name = Some "SummaryAgent" \/ name = None
      \/ replan_count c < max_replans c).

(** What one hand-off does to the counters. *)
Lemma handoff_spec : forall n agent c c' r,
  Orchestrator.registry orc n = Some agent ->
  agent c = (c', Returns r) ->
  within_caps (Some n) c ->
  within_caps (next_agent r) c'
  /\ (retry_count c < retry_count c' ->
      n = "RepairAgent" /\ retry_count c' = retry_count c + 1
      /\ retry_count c < max_retries c)
  /\ (replan_count c < replan_count c' ->
      n = "ExecutorAgent" /\ replan_count c' = replan_count c + 1
      /\ replan_count c < max_replans c).
Proof.
  intros n agent c c' r Hreg Hrun (I1 & I2 & I3 & I4).
  assert (I4' : n <> "SummaryAgent" -> replan_count c < max_replans c).
  { intros Hn. destruct I4 as [[= ->] | [? | ?]];
      [contradiction | discriminate | assumption]. }
  apply registry_cases in Hreg.
  destruct Hreg as [(-> & ->) | [(-> & ->) | [(-> & ->) | [(-> & ->)
                   | [(-> & ->) | (-> & ->)]]]]];
    apply lift_returns in Hrun as (r' & [= <-] & Hrun).
  - apply router_run_spec in Hrun as (P & R & N).
    unfold plan_counters in P. injection P as M1 M2 M3 M4.
    specialize (I4' ltac:(discriminate)).
    unfold within_caps.
    refine (conj (conj _ (conj _ (conj _ _))) (conj _ _));
      [lia | lia | | | | ].
    + intros E. destruct N as [N | N]; congruence.
    + right; right; lia.
    + intros Hlt. lia.
    + intros Hlt. lia.
  - apply chat_run_spec in Hrun as (P & R & N).
    unfold plan_counters in P. injection P as M1 M2 M3 M4.
    unfold within_caps.
    refine (conj (conj _ (conj _ (conj _ _))) (conj _ _));
      [lia | lia | | | | ].
    + intros E. congruence.
    + right; left; exact N.
    + intros Hlt. lia.
    + intros Hlt. lia.
  - apply planner_run_spec in Hrun as (P & R & N).
    unfold plan_counters in P. injection P as M1 M2 M3 M4.
    specialize (I4' ltac:(discriminate)).
    unfold within_caps.
    refine (conj (conj _ (conj _ (conj _ _))) (conj _ _));
      [lia | lia | | | | ].
    + intros E. destruct N as [N | N]; congruence.
    + right; right; lia.
    + intros Hlt. lia.
    + intros Hlt. lia.
  - apply executor_run_spec in Hrun as (M1 & M2 & R & P & N).
    specialize (I4' ltac:(discriminate)).
    unfold within_caps.
    refine (conj (conj _ (conj _ (conj _ _))) (conj _ _));
      [destruct R; lia | destruct P as [?|[?|?]]; lia | | | | ].
    + intros E. destruct N as [(N & ? & ?) | [N | (N & ?)]];
        [lia | congruence | congruence].
    + destruct N as [(N & ? & ?) | [N | (N & ?)]];
        [right; right; lia | left; exact N | right; right; lia].
    + intros Hlt. destruct R; lia.
    + intros Hlt. split; [reflexivity|]. destruct P as [?|[?|?]]; lia.
  - apply repair_run_spec in Hrun as (P & N).
    unfold plan_counters in P. injection P as M1 M2 M3 M4.
    specialize (I3 eq_refl). specialize (I4' ltac:(discriminate)).
    unfold within_caps.
    destruct N as [(N & ->) | (N & R)].
    + refine (conj (conj _ (conj _ (conj _ _))) (conj _ _));
      [lia | lia | | | | ].
      * intros E. congruence.
      * left; exact N.
      * intros Hlt. lia.
      * intros Hlt. lia.
    + refine (conj (conj _ (conj _ (conj _ _))) (conj _ _));
      [destruct R; lia | lia | | | | ].
      * intros E. congruence.
      * right; right; lia.
      * intros Hlt. split; [reflexivity|]. destruct R; lia.
      * intros Hlt. lia.
  - apply summary_run_spec in Hrun as (P & R & N).
    unfold plan_counters in P. injection P as M1 M2 M3 M4.
    unfold within_caps.
    refine (conj (conj _ (conj _ (conj _ _))) (conj _ _));
      [lia | lia | | | | ].
    + intros E. congruence.
    + right; left; exact N.
    + intros Hlt. lia.
    + intros Hlt. lia.
Qed.

Lemma reachable_within_caps : forall goal stream mem name c,
  Machine.reachable orc goal stream mem name c -> within_caps name c.
Proof.
  intros goal stream mem name c H.
  induction H as [| name c agent c' r _ IH Hreg Hrun | c c' _ IH Hlt Hiter].
  - unfold within_caps. cbn. repeat split; try lia; try discriminate.
  - destruct (handoff_spec name agent c c' r Hreg Hrun IH) as (W & _). exact W.
  - apply exec_iter_spec in Hiter as (P & R & _).
    unfold plan_counters in P. injection P as M1 M2 M3 M4.
    destruct IH as (I1 & I2 & I3 & I4).
    unfold within_caps. rewrite M1, M2, M3.
    repeat split; try lia; auto. discriminate.
Qed.

(** The loop of the orchestrator only passes through reachable states, and
    with the registered agents it ends without an exception. *)
Lemma loop_reachable : forall goal stream mem fuel cur t,
  Machine.reachable orc goal stream mem cur (Orchestrator.ctx t) ->
  snd (Orchestrator.loop (Orchestrator.registry orc) fuel cur t) = Returns tt
  /\ exists name,
       Machine.reachable orc goal stream mem name
         (Orchestrator.ctx
            (fst (Orchestrator.loop (Orchestrator.registry orc) fuel cur t))).
Proof.
  intros goal stream mem.
  induction fuel as [|f IH]; intros cur t H; cbn [Orchestrator.loop].
  - split; [reflexivity | eauto].
  - destruct (Orchestrator.truthy cur) as [name|] eqn:Ht;
      [| split; [reflexivity | eauto]].
    assert (cur = Some name) as ->.
    { destruct cur as [[|a s0]|]; cbn in Ht; congruence. }
    destruct (Nat.ltb _ _); [| split; [reflexivity | eauto]].
    destruct (Orchestrator.registry orc name) as [agent|] eqn:Hreg;
      [| split; [reflexivity | eauto]].
    unfold Orchestrator.invoke, Orchestrator.try_except, Orchestrator.bind,
      Orchestrator.ret.
    destruct (agent (Orchestrator.ctx t)) as [c' o] eqn:Hrun.
    pose proof Hreg as Hreg'.
    apply registry_cases in Hreg'.
    assert (exists r, o = Returns r) as [r ->].
    { destruct Hreg' as [(_ & ->) | [(_ & ->) | [(_ & ->) | [(_ & ->)
                       | [(_ & ->) | (_ & ->)]]]]];
        apply lift_returns in Hrun as (r & -> & _); eauto. }
    apply IH. cbn [Orchestrator.ctx].
    eapply Machine.reach_handoff; eauto.
Qed.

End TurnFacts.

(** C8. In every state reachable during a turn [retry_count <= max_retries]
    and [replan_count <= max_replans].  Repair is entered only with
    [retry_count < max_retries], and the Executor and the Planner only with
    [replan_count < max_replans]; a hand-off that raises [retry_count] is
    Repair's, by one and from below the cap, and one that raises
    [replan_count] is the Executor's, by one and from below the cap. *)
Theorem counters_stay_within_their_caps :
  forall orc goal stream mem name c,
    Machine.reachable orc goal stream mem name c ->
    retry_count c <= max_retries c
    /\ replan_count c <= max_replans c
    /\ (name = Some "RepairAgent" -> retry_count c < max_retries c)
    /\ (name = Some "ExecutorAgent" \/ name = Some "PlannerAgent" ->
        replan_count c < max_replans c)
    /\ (forall n agent c' r,
          name = Some n ->
          Orchestrator.registry orc n = Some agent ->
          agent c = (c', Returns r) ->
          (retry_count c < retry_count c' ->
           n = "RepairAgent" /\ retry_count c' = retry_count c + 1
           /\ retry_count c < max_retries c)
          /\ (replan_count c < replan_count c' ->
              n = "ExecutorAgent" /\ replan_count c' = replan_count c + 1
              /\ replan_count c < max_replans c)).
Proof.
  intros orc goal stream mem name c H.
  destruct (reachable_within_caps orc goal stream mem name c H)
    as (I1 & I2 & I3 & I4).
  refine (conj I1 (conj I2 (conj I3 (conj _ _)))).
  - intros [-> | ->]; destruct I4 as [[= ] | [[= ] | ?]]; assumption.
  - intros n agent c' r -> Hreg Hrun.
    destruct (handoff_spec orc n agent c c' r Hreg Hrun
                (conj I1 (conj I2 (conj I3 I4)))) as (_ & A & B).
    split; assumption.
Qed.

(** A hand-off of a registered agent, with the next state computed. *)
Lemma reach_lifted : forall orc goal stream mem name c f next c',
  Machine.reachable orc goal stream mem (Some name) c ->
  Orchestrator.registry orc name = Some (Orchestrator.lift f) ->
  next_agent (snd (f c)) = next ->
  fst (f c) = c' ->
  Machine.reachable orc goal stream mem next c'.
Proof.
  intros orc goal stream mem name c f next c' H Hreg <- <-.
  eapply Machine.reach_handoff; [exact H | exact Hreg |].
  unfold Orchestrator.lift. destruct (f c); reflexivity.
Qed.

(** The turn of [Machine.flaky] reaches the Executor a second time, behind
    one repair. *)
Lemma after_first_repair_reachable :
  Machine.reachable Machine.flaky "install htop" None []
    (Some "ExecutorAgent") Machine.after_first_repair.
Proof.
  unfold Machine.after_first_repair.
  eapply (reach_lifted _ _ _ _ "RepairAgent");
    [| reflexivity | | reflexivity]; [| vm_compute; reflexivity].
  eapply (reach_lifted _ _ _ _ "ExecutorAgent");
    [| reflexivity | | reflexivity]; [| vm_compute; reflexivity].
  eapply (reach_lifted _ _ _ _ "PlannerAgent");
    [| reflexivity | | reflexivity]; [| vm_compute; reflexivity].
  eapply (reach_lifted _ _ _ _ "RouterAgent");
    [| reflexivity | | reflexivity]; [| vm_compute; reflexivity].
  apply Machine.reach_start.
Qed.

(** A witness of C8: the state behind the first repair, where
    [retry_count] is 1. *)
Lemma counters_stay_within_their_caps_witness :
  retry_count Machine.after_first_repair = 1
  /\ retry_count Machine.after_first_repair <= max_retries Machine.after_first_repair
  /\ replan_count Machine.after_first_repair <= max_replans Machine.after_first_repair
  /\ replan_count Machine.after_first_repair < max_replans Machine.after_first_repair.
Proof.
  destruct (counters_stay_within_their_caps Machine.flaky "install htop" None []
              (Some "ExecutorAgent") Machine.after_first_repair
              after_first_repair_reachable)
    as (H1 & H2 & _ & H4 & _).
  split; [vm_compute; reflexivity |].
  split; [exact H1 |]. split; [exact H2 |].
  apply H4. left. reflexivity.
Defined.

(** The context an orchestrated turn ends in is reachable, hence within the
    caps. *)
Lemma orchestrated_turn_within_caps : forall orc goal stream memory,
  let t := fst (Orchestrator.run (Orchestrator.registry orc) goal stream memory) in
  retry_count (Orchestrator.ctx t) <= max_retries (Orchestrator.ctx t)
  /\ replan_count (Orchestrator.ctx t) <= max_replans (Orchestrator.ctx t).
Proof.
  intros orc goal stream memory t. subst t. unfold Orchestrator.run.
  set (mem := match memory with Some m => m | None => [] end).
  set (t0 := Orchestrator.mkTurn (new_context goal mem stream 3) 0 [] None).
  destruct (loop_reachable orc goal stream mem Orchestrator.max_iterations
              (Some "RouterAgent") t0 (Machine.reach_start orc goal stream mem))
    as (Hret & name & Hreach).
  destruct (Orchestrator.loop _ _ _ t0) as [t o].
  cbn [fst snd] in *. subst o. cbn [fst].
  destruct (reachable_within_caps orc goal stream mem name _ Hreach) as (I1 & I2 & _).
  auto.
Qed.

(** ** The orchestrator's loop (C2) *)

Section OrchestratorFacts.
Import Orchestrator.
Variable agents : string -> option Agent.

(** What the [except] branch leaves behind an agent that raised [e] in the
    context [c1]: with a callback, one more event, the error; without one,
    nothing. *)
Definition after_crash (e : Exn) (c1 c' : AgentContext) : Prop :=
  match emit_cb c1 with
  | Some _ => c' = set_emitted c1 (emitted c1 ++ [Ev "error" ("Agent 错误: " ++ e)])
  | None => c' = c1
  end.

Lemma on_crash_spec : forall e c,
  exists c', on_crash e c = (c', Returns (Crashed e)) /\ after_crash e c c'.
Proof.
  intros e c. unfold on_crash, after_crash.
  destruct (emit_cb c) as [cb|].
  - unfold bind, try_except, call_stream, ret.
    destruct (cb (Ev "error" ("Agent 错误: " ++ e))); eexists; split; reflexivity.
  - unfold ret. eexists; split; reflexivity.
Qed.

(** The [try] statement never raises: it continues with the agent named by
    the result, or it ends the loop behind the [except] branch. *)
Lemma invoke_spec : forall agent c,
  (exists c' r, agent c = (c', Returns r)
                /\ invoke agent c = (c', Returns (Continue (next_agent r))))
  \/ (exists c1 e c', agent c = (c1, Raised e)
                      /\ invoke agent c = (c', Returns (Crashed e))
                      /\ after_crash e c1 c').
Proof.
  intros agent c. unfold invoke, try_except, bind, ret.
  destruct (agent c) as [c1 [r | e]].
  - left. eauto.
  - right. destruct (on_crash_spec e c1) as (c' & E & A). eauto 10.
Qed.

Lemma last_snoc : forall (l : list string) x d, last (l ++ [x]) d = x.
Proof.
  induction l as [|y l IH]; intros x d; [reflexivity|].
  cbn [app]. specialize (IH x d).
  destruct (l ++ [x])%list eqn:E.
  - destruct l; discriminate.
  - cbn [last]. exact IH.
Qed.

Lemma loop_spec : forall fuel cur t,
  let t' := fst (loop agents fuel cur t) in
  snd (loop agents fuel cur t) = Returns tt
  /\ iteration t <= iteration t'
  /\ (iteration t <= max_iterations -> iteration t' <= max_iterations)
  /\ List.length (invoked t') + iteration t <= List.length (invoked t) + iteration t'
  /\ (crashed t' = crashed t
      \/ exists name e agent c0 c1,
           crashed t' = Some (name, e)
           /\ agents name = Some agent
           /\ agent c0 = (c1, Raised e)
           /\ last (invoked t') "" = name
           /\ after_crash e c1 (ctx t')).
Proof.
  induction fuel as [|f IH]; intros cur t; cbn [loop].
  - cbn [fst snd]. repeat split; auto; lia.
  - destruct (truthy cur) as [name|]; [| cbn [fst snd]; repeat split; auto; lia].
    destruct (Nat.ltb (iteration t) max_iterations) eqn:Hlt;
      [| cbn [fst snd]; repeat split; auto; lia].
    apply Nat.ltb_lt in Hlt.
    destruct (agents name) as [agent|] eqn:Hag;
      [| cbn [fst snd iteration invoked crashed]; repeat split; auto; lia].
    destruct (invoke_spec agent (ctx t))
      as [(c' & r & Hrun & ->) | (c1 & e & c' & Hrun & -> & Hafter)].
    + specialize (IH (next_agent r)
                     (mkTurn c' (iteration t + 1) (invoked t ++ [name]) (crashed t))).
      cbn [iteration invoked crashed] in IH.
      destruct IH as (R & I1 & I2 & I3 & I4).
      rewrite length_app in I3. cbn [List.length] in I3.
      repeat split; auto; try lia.
    + cbn [fst snd iteration invoked crashed ctx].
      rewrite length_app. cbn [List.length].
      repeat split; auto; try lia.
      right. exists name, e, agent, (ctx t), c1.
      repeat split; auto. apply last_snoc.
Qed.

End OrchestratorFacts.

(** What happens along a turn, agent by agent. *)
Section CourseFacts.
Import Orchestrator.
Variable agents : string -> option Agent.
Variable c0 : AgentContext.

(** The course of a turn: the agent to run next, the context it will run
    in and the agents invoked so far, as long as every agent returned. *)
Inductive in_turn : option string -> AgentContext -> list string -> Prop :=
| in_turn_start : in_turn (Some "RouterAgent") c0 []
| in_turn_next : forall cur c inv name agent c1 r,
    in_turn cur c inv ->
    truthy cur = Some name ->
    agents name = Some agent ->
    agent c = (c1, Returns r) ->
    in_turn (next_agent r) c1 (inv ++ [name]).

Lemma loop_from_in_turn : forall cur c inv,
  in_turn cur c inv ->
  List.length inv <= max_iterations ->
  loop agents max_iterations (Some "RouterAgent") (mkTurn c0 0 [] None)
  = loop agents (max_iterations - List.length inv) cur
         (mkTurn c (List.length inv) inv None).
Proof.
  intros cur c inv H.
  induction H as [| cur c inv name agent c1 r _ IH Ht Hag Hrun]; intros Hn.
  - reflexivity.
  - rewrite length_app in *. cbn [List.length] in *.
    rewrite IH by lia.
    replace (max_iterations - List.length inv)
      with (S (max_iterations - (List.length inv + 1))) by lia.
    cbn [loop]. rewrite Ht. cbn [iteration ctx invoked crashed].
    assert (L : Nat.ltb (List.length inv) max_iterations = true)
      by (apply Nat.ltb_lt; lia).
    rewrite L, Hag.
    unfold invoke, try_except, bind, ret. rewrite Hrun. reflexivity.
Qed.

(** An agent that raises ends the loop on the spot. *)
Lemma loop_crash : forall fuel cur t name agent c1 e,
  truthy cur = Some name ->
  iteration t < max_iterations ->
  agents name = Some agent ->
  agent (ctx t) = (c1, Raised e) ->
  exists c',
    loop agents (S fuel) cur t
    = (mkTurn c' (iteration t + 1) (invoked t ++ [name]) (Some (name, e)),
       Returns tt)
    /\ after_crash e c1 c'.
Proof.
  intros fuel cur t name agent c1 e Ht Hlt Hag Hrun.
  cbn [loop]. rewrite Ht.
  assert (L : Nat.ltb (iteration t) max_iterations = true)
    by (apply Nat.ltb_lt; exact Hlt).
  rewrite L, Hag.
  destruct (invoke_spec agent (ctx t))
    as [(c' & r & Hrun' & _) | (c1' & e' & c' & Hrun' & -> & Hafter)].
  - congruence.
  - rewrite Hrun in Hrun'. injection Hrun' as <- <-.
    exists c'. split; [reflexivity | exact Hafter].
Qed.

(** How a turn ends when no agent raised. *)
Definition ends_quietly (cur : option string) (inv : list string) : Prop :=
  truthy cur = None
  \/ max_iterations <= List.length inv
  \/ exists name, truthy cur = Some name /\ agents name = None.

Lemma loop_course : forall fuel cur t,
  in_turn cur (ctx t) (invoked t) ->
  crashed t = None ->
  iteration t = List.length (invoked t) ->
  max_iterations <= fuel + iteration t ->
  let t' := fst (loop agents fuel cur t) in
  (crashed t' = None
   /\ exists cur', in_turn cur' (ctx t') (invoked t')
                   /\ ends_quietly cur' (invoked t'))
  \/ (exists cur' c inv name agent c1 e,
        in_turn cur' c inv
        /\ List.length inv < max_iterations
        /\ truthy cur' = Some name
        /\ agents name = Some agent
        /\ agent c = (c1, Raised e)
        /\ invoked t' = (inv ++ [name])%list
        /\ crashed t' = Some (name, e)
        /\ after_crash e c1 (ctx t')).
Proof.
  induction fuel as [|f IH]; intros cur t Hin Hc Hit Hfuel; cbn [loop].
  - cbn [fst]. left. split; [exact Hc|]. exists cur. split; [exact Hin|].
    right; left. cbn in Hfuel. lia.
  - destruct (truthy cur) as [name|] eqn:Ht.
    2:{ cbn [fst]. left. split; [exact Hc|]. exists cur.
        split; [exact Hin | left; exact Ht]. }
    destruct (Nat.ltb (iteration t) max_iterations) eqn:Hlt.
    2:{ apply Nat.ltb_ge in Hlt. cbn [fst]. left. split; [exact Hc|].
        exists cur. split; [exact Hin | right; left; lia]. }
    apply Nat.ltb_lt in Hlt.
    destruct (agents name) as [agent|] eqn:Hag.
    2:{ cbn [fst ctx invoked crashed]. left. split; [exact Hc|]. exists cur.
        split; [exact Hin | right; right; exists name; auto]. }
    destruct (invoke_spec agent (ctx t))
      as [(c' & r & Hrun & ->) | (c1 & e & c' & Hrun & -> & Hafter)].
    + apply IH; cbn [ctx invoked crashed iteration].
      * eapply in_turn_next; eauto.
      * exact Hc.
      * rewrite length_app. cbn [List.length]. lia.
      * lia.
    + cbn [fst ctx invoked crashed]. right.
      exists cur, (ctx t), (invoked t), name, agent, c1, e.
      repeat split; auto. lia.
Qed.

End CourseFacts.

(** C2, as stated, fails: a turn started without a stream callback (as the
    HTTP endpoint starts it) whose Router raises ends with the crash caught
    and no event emitted at all. *)
Lemma crash_without_callback_emits_nothing :
  let t := fst (Orchestrator.run Machine.crashing_agents "hello" None None) in
  ~ (forall name e,
       Orchestrator.crashed t = Some (name, e) ->
       exists content, In (Ev "error" content) (emitted (Orchestrator.ctx t))).
Proof.
  cbv zeta. intros H.
  destruct (H "RouterAgent" "boom" eq_refl) as (content & Hin).
  vm_compute in Hin. exact Hin.
Qed.

(** C2 (amended). Whatever the agents do, [AgentOrchestrator.run] returns
    the steps list and never raises, after at most 20 agent invocations.
    Whenever, in the course of a turn, the agent that is run raises, the
    exception is caught and the turn ends there: the agents invoked are
    those before it and that agent, last; if the context then holds a
    stream callback the [error] event is handed to it (and an exception of
    the callback is dropped), and if it holds none no event is emitted.  A
    turn ends in one of two ways: behind such a crash, or, no agent having
    raised, because no next agent is named, the 20 invocations are used up,
    or the name is not registered. *)
Theorem orchestrator_contains_agent_exceptions :
  forall (agents : string -> option Orchestrator.Agent) goal stream memory,
    let c0 := new_context goal (match memory with Some m => m | None => [] end)
                          stream 3 in
    let t := fst (Orchestrator.run agents goal stream memory) in
    snd (Orchestrator.run agents goal stream memory)
      = Returns (steps (Orchestrator.ctx t))
    /\ List.length (Orchestrator.invoked t) <= 20
    /\ Orchestrator.iteration t <= 20
    /\ (forall cur c inv name agent c1 e,
          in_turn agents c0 cur c inv ->
          List.length inv < 20 ->
          Orchestrator.truthy cur = Some name ->
          agents name = Some agent ->
          agent c = (c1, Raised e) ->
          Orchestrator.invoked t = (inv ++ [name])%list
          /\ Orchestrator.crashed t = Some (name, e)
          /\ Orchestrator.ctx t =
             match emit_cb c1 with
             | Some _ =>
                 set_emitted c1 (emitted c1 ++ [Ev "error" ("Agent 错误: " ++ e)])
             | None => c1
             end)
    /\ ((Orchestrator.crashed t = None
         /\ exists cur,
              in_turn agents c0 cur (Orchestrator.ctx t) (Orchestrator.invoked t)
              /\ ends_quietly agents cur (Orchestrator.invoked t))
        \/ (exists cur c inv name agent c1 e,
              in_turn agents c0 cur c inv
              /\ List.length inv < 20
              /\ Orchestrator.truthy cur = Some name
              /\ agents name = Some agent
              /\ agent c = (c1, Raised e)
              /\ Orchestrator.invoked t = (inv ++ [name])%list
              /\ Orchestrator.crashed t = Some (name, e))).
Proof.
  intros agents goal stream memory c0 t. subst t. unfold Orchestrator.run.
  fold c0.
  set (t0 := Orchestrator.mkTurn c0 0 [] None).
  pose proof (loop_spec agents Orchestrator.max_iterations (Some "RouterAgent") t0)
    as L.
  pose proof (loop_course agents c0 Orchestrator.max_iterations
                (Some "RouterAgent") t0 (in_turn_start agents c0)
                eq_refl eq_refl (Nat.le_add_r _ _)) as K.
  cbv zeta in L, K.
  assert (F : forall cur c inv name agent c1 e,
            in_turn agents c0 cur c inv ->
            List.length inv < 20 ->
            Orchestrator.truthy cur = Some name ->
            agents name = Some agent ->
            agent c = (c1, Raised e) ->
            exists c',
              Orchestrator.loop agents Orchestrator.max_iterations
                (Some "RouterAgent") t0
              = (Orchestrator.mkTurn c' (List.length inv + 1) (inv ++ [name])
                   (Some (name, e)), Returns tt)
              /\ after_crash e c1 c').
  { intros cur c inv name agent c1 e Hin Hlen Ht Hag Hrun.
    unfold t0.
    rewrite (loop_from_in_turn agents c0 cur c inv Hin)
      by (unfold Orchestrator.max_iterations; lia).
    replace (Orchestrator.max_iterations - List.length inv)
      with (S (Orchestrator.max_iterations - List.length inv - 1))
      by (unfold Orchestrator.max_iterations; lia).
    apply (loop_crash agents _ cur
             (Orchestrator.mkTurn c (List.length inv) inv None)
             name agent c1 e Ht); auto. }
  destruct (Orchestrator.loop agents Orchestrator.max_iterations
              (Some "RouterAgent") t0) as [t o].
  cbn [fst snd] in L, K. destruct L as (-> & I1 & I2 & I3 & _).
  cbn [fst snd]. unfold t0 in *.
  cbn [Orchestrator.iteration Orchestrator.invoked Orchestrator.crashed
       List.length] in *.
  unfold Orchestrator.max_iterations in I2.
  specialize (I2 ltac:(lia)).
  split; [reflexivity|]. split; [lia|]. split; [lia|]. split.
  - intros cur c inv name agent c1 e Hin Hlen Ht Hag Hrun.
    destruct (F cur c inv name agent c1 e Hin Hlen Ht Hag Hrun) as (c' & E & A).
    injection E as ->.
    cbn [Orchestrator.invoked Orchestrator.crashed Orchestrator.ctx].
    split; [reflexivity|]. split; [reflexivity|].
    unfold after_crash in A. destruct (emit_cb c1); exact A.
  - destruct K as [K | (cur & c & inv & name & agent & c1 & e
                        & K1 & K2 & K3 & K4 & K5 & K6 & K7 & _)].
    + left. exact K.
    + right. exists cur, c, inv, name, agent, c1, e.
      unfold Orchestrator.max_iterations in K2. repeat split; auto.
Qed.

(** A witness of C2: a Router that raises, in a turn with a stream
    callback. *)
Lemma orchestrator_contains_agent_exceptions_witness :
  let t := fst (Orchestrator.run Machine.crashing_agents "hello"
                  (Some (fun _ => None)) None) in
  Orchestrator.invoked t = ["RouterAgent"]
  /\ Orchestrator.crashed t = Some ("RouterAgent", "boom")
  /\ emitted (Orchestrator.ctx t) = [Ev "error" "Agent 错误: boom"].
Proof.
  cbv zeta.
  destruct (orchestrator_contains_agent_exceptions Machine.crashing_agents
              "hello" (Some (fun _ => None)) None)
    as (_ & _ & _ & F & _).
  destruct (F (Some "RouterAgent")
              (new_context "hello" [] (Some (fun _ => None)) 3) []
              "RouterAgent"
              (fun c => (c, Raised "boom"))
              (new_context "hello" [] (Some (fun _ => None)) 3) "boom"
              (in_turn_start _ _) ltac:(cbn; lia) eq_refl eq_refl eq_refl)
    as (A & B & C).
  split; [exact A|]. split; [exact B|]. rewrite C. reflexivity.
Defined.

(* ================================================================== *)
(** * Further properties of the agents and of the session *)
(* ================================================================== *)

(** ** Trimmed texts *)

Section StripFacts.
Variable p : ascii -> bool.

Lemma lstrip_by_head : forall s c rest,
  lstrip_by p s = String c rest -> p c = false.
Proof.
  induction s as [|d s IH]; simpl; intros c rest H; [discriminate|].
  destruct (p d) eqn:E; [eauto|]. now injection H as <- _.
Qed.

Lemma rstrip_by_keeps_head : forall s c rest,
  rstrip_by p s = String c rest -> exists rest', s = String c rest'.
Proof.
  destruct s as [|d s]; simpl; intros c rest H; [discriminate|].
  destruct (rstrip_by p s); [destruct (p d); [discriminate|] |];
    injection H as <- _; eauto.
Qed.

Lemma rstrip_by_last : forall s pre c,
  rstrip_by p s = pre ++ String c "" -> p c = false.
Proof.
  induction s as [|d s IH]; simpl; intros pre c H.
  - destruct pre; discriminate.
  - destruct (rstrip_by p s) as [|e r] eqn:E.
    + destruct (p d) eqn:Ed; [destruct pre; discriminate|].
      destruct pre as [|x pre]; simpl in H.
      * now injection H as <-.
      * injection H as _ H. destruct pre; discriminate.
    + destruct pre as [|x pre]; simpl in H; [discriminate|].
      injection H as _ H. eapply IH. exact H.
Qed.

(** A stripped text neither starts nor ends with a stripped character. *)
Lemma strip_by_trimmed : forall s,
  (forall c rest, strip_by p s = String c rest -> p c = false)
  /\ (forall pre c, strip_by p s = pre ++ String c "" -> p c = false).
Proof.
  intros s. unfold strip_by. split.
  - intros c rest H.
    destruct (rstrip_by_keeps_head _ _ _ H) as (rest' & H').
    eapply lstrip_by_head. exact H'.
  - intros pre c H. eapply rstrip_by_last. exact H.
Qed.

End StripFacts.

(** X14. What the session returns for a command, and what the Executor
    stores as a step's output, neither starts nor ends with a white-space
    character. *)
Theorem sanitized_output_is_trimmed : forall text command,
  (forall c rest, Shell._clean_output text command = String c rest ->
                  isspace c = false)
  /\ (forall pre c, Shell._clean_output text command = pre ++ String c "" ->
                    isspace c = false)
  /\ (forall c rest, clean_output text = String c rest -> isspace c = false)
  /\ (forall pre c, clean_output text = pre ++ String c "" ->
                    isspace c = false).
Proof.
  intros text command.
  unfold Shell._clean_output, clean_output, strip.
  split; [| split; [| split]];
    first [ apply (proj1 (strip_by_trimmed isspace _))
          | apply (proj2 (strip_by_trimmed isspace _)) ].
Qed.

(** ** What the parsers let through *)

Section ParserFacts.

(** A step the Planner's loop appends. *)
Definition plannable (s : Step) : Prop :=
  exists cmd,
    command s = Some cmd
    /\ cmd <> ""
    /\ (forall p, In p Planner.placeholder_patterns -> contains p cmd = false)
    /\ (forall p, In p Planner.dangerous_patterns -> contains p cmd = false)
    /\ (forall c rest, cmd = String c rest -> isspace c = false)
    /\ (forall pre c, cmd = pre ++ String c "" -> isspace c = false)
    /\ status s = pending /\ output s = "" /\ error s = "".

Lemma existsb_false_forall : forall (f : string -> bool) l,
  existsb f l = false -> forall p, In p l -> f p = false.
Proof.
  intros f l H p Hin. apply not_true_is_false. intros E.
  assert (existsb f l = true) by (apply existsb_exists; eauto). congruence.
Qed.

Lemma planner_parse_line_plannable : forall line s,
  Planner.parse_line line = Some s -> plannable s.
Proof.
  intros line s. unfold Planner.parse_line.
  destruct (negb (contains "::" (strip line))); [discriminate|].
  destruct (negb (contains "::" _)); [discriminate|].
  destruct (split_once "::" _) as [[t cmd0]|]; [| discriminate].
  set (cmd := strip (strip_chars "`" (strip cmd0))).
  destruct (String.eqb cmd "") eqn:E1; [discriminate|].
  destruct (existsb _ Planner.placeholder_patterns) eqn:E2; [discriminate|].
  destruct (existsb _ Planner.dangerous_patterns) eqn:E3; [discriminate|].
  intros [= <-]. exists cmd. cbn [command status output error new_step].
  apply String.eqb_neq in E1.
  repeat split; auto.
  - intros p. apply (existsb_false_forall (fun p => contains p cmd)). exact E2.
  - intros p. apply (existsb_false_forall (fun p => contains p cmd)). exact E3.
  - apply (proj1 (strip_by_trimmed isspace _)).
  - apply (proj2 (strip_by_trimmed isspace _)).
Qed.

(** A step the Repair agent's loop appends. *)
Definition repairable (s : Step) : Prop :=
  exists cmd,
    command s = Some cmd
    /\ cmd <> ""
    /\ contains "/path/to" cmd = false
    /\ (forall rest, cmd <> String "`" rest)
    /\ (forall pre, cmd <> pre ++ "`")
    /\ startswith Repair.REPAIR_MARK (title s) = true
    /\ status s = pending /\ output s = "" /\ error s = "".

Lemma repair_parse_line_repairable : forall line s,
  Repair.parse_line line = Some s -> repairable s.
Proof.
  intros line s. unfold Repair.parse_line.
  destruct (negb (contains "::" (strip line))); [discriminate|].
  destruct (negb (contains "::" _)); [discriminate|].
  destruct (split_once "::" _) as [[t cmd0]|]; [| discriminate].
  set (cmd := strip_chars "`" (strip cmd0)).
  destruct (String.eqb cmd "") eqn:E1; [discriminate|].
  destruct (contains "/path/to" cmd) eqn:E2; [discriminate|].
  intros [= <-]. exists cmd. cbn [command status output error title new_step].
  apply String.eqb_neq in E1.
  repeat split; auto.
  - intros rest H.
    pose proof (proj1 (strip_by_trimmed (fun c => mem c "`") (strip cmd0))
                  "`"%char rest H) as F.
    discriminate F.
  - intros pre H.
    pose proof (proj2 (strip_by_trimmed (fun c => mem c "`") (strip cmd0))
                  pre "`"%char H) as F.
    discriminate F.
  - exact (prefix_append Repair.REPAIR_MARK (strip t)).
Qed.

End ParserFacts.

Lemma generated_plan_aux : forall orc c,
  match snd (Planner._generate_plan orc c) with
  | inr plan => plan <> [] /\ Forall plannable plan
  | inl _ => True
  end.
Proof.
  intros orc c. unfold Planner._generate_plan.
  destruct (llm_complete orc (clock c)) as [plan_text | e]; cbn [snd]; [| exact I].
  pose proof (filter_map_Forall Planner.parse_line plannable (splitlines plan_text)
                planner_parse_line_plannable) as F.
  destruct (Repair.filter_map Planner.parse_line (splitlines plan_text));
    cbn [snd]; [exact I |].
  split; [discriminate | exact F].
Qed.

(** X1. Whatever the language model answers, a plan returned by
    [_generate_plan] is not empty and each of its steps is pending and has a
    non-empty command, trimmed of white space, that contains none of the
    placeholder fragments and none of the dangerous literal patterns. *)
Theorem generated_plan_is_filtered : forall orc c,
  match snd (Planner._generate_plan orc c) with
  | inr plan => plan <> [] /\ Forall plannable plan
  | inl _ => True
  end.
Proof. exact generated_plan_aux. Qed.

(** X15. Whatever the language model answers, [_generate_repair] returns at
    most two steps, each pending, titled with the repair marker, and with a
    non-empty command that holds no [/path/to] placeholder and neither
    starts nor ends with a backtick. *)
Theorem generated_repair_is_filtered : forall orc c,
  match snd (Repair._generate_repair orc c) with
  | inr repair_steps =>
      List.length repair_steps <= 2 /\ Forall repairable repair_steps
  | inl _ => True
  end.
Proof.
  intros orc c. unfold Repair._generate_repair.
  destruct (llm_complete orc (clock c)) as [suggestion | e]; cbn [snd]; [| exact I].
  unfold Repair.parse_repair. split.
  - rewrite length_firstn. lia.
  - apply Forall_firstn, filter_map_Forall. exact repair_parse_line_repairable.
Qed.

(** ** The Planner's two ways out *)

Lemma planner_hands_off_aux : forall orc c,
  current_step_idx (fst (Planner.run orc c)) = current_step_idx c.
Proof.
  intros orc c. unfold Planner.run, Planner._generate_plan,
    Planner._generate_intro, Planner.planning_failed.
  destruct (shell_start orc (clock c)); [ctx_simpl; reflexivity|].
  cbn [clock tick].
  destruct (llm_complete orc (S (clock c))) as [plan | e]; [| ctx_simpl; reflexivity].
  destruct (Repair.filter_map Planner.parse_line (splitlines plan));
    [ctx_simpl; reflexivity|].
  cbn [clock tick set_steps].
  destruct (llm_complete orc (S (S (clock c)))); ctx_simpl; reflexivity.
Qed.

(** X2. [PlannerAgent.run] never raises and has two outcomes.  Either it
    hands off to the Executor, and then [ctx.steps] is a non-empty filtered
    plan; or it ends the turn ([next_agent] absent, [success] false), and
    then steps and memory are untouched and the one event emitted is the
    [error] event (handed to the callback when there is one).  In both the
    index, the counters and the recorded reason are unchanged. *)
Theorem planner_hands_off_a_plan_or_ends_the_turn : forall orc c,
  let c' := fst (Planner.run orc c) in
  let r := snd (Planner.run orc c) in
  current_step_idx c' = current_step_idx c
  /\ retry_count c' = retry_count c
  /\ replan_count c' = replan_count c
  /\ last_failure_reason c' = last_failure_reason c
  /\ ((next_agent r = Some "ExecutorAgent" /\ success r = true
       /\ steps c' <> [] /\ Forall plannable (steps c')
       /\ exists intro, memory c' = (memory c ++ [("assistant", intro)])%list)
      \/ (next_agent r = None /\ success r = false
          /\ steps c' = steps c /\ memory c' = memory c
          /\ emitted c' =
             match emit_cb c with
             | Some _ => (emitted c ++ [Ev "error" ("规划失败: " ++ message r)])%list
             | None => emitted c
             end)).
Proof.
  intros orc c c' r. subst c' r.
  unfold Planner.run, Planner.planning_failed.
  destruct (shell_start orc (clock c)) as [e|].
  { ctx_simpl. rewrite emit_emitted. cbn [emit_cb emitted tick].
    repeat split; auto. right. repeat split; auto. }
  pose proof (generated_plan_aux orc (tick c)) as G.
  destruct (Planner._generate_plan orc (tick c)) as [c1 [e | plan]] eqn:E.
  - assert (F : steps c1 = steps c /\ memory c1 = memory c
                /\ emitted c1 = emitted c /\ emit_cb c1 = emit_cb c
                /\ current_step_idx c1 = current_step_idx c
                /\ retry_count c1 = retry_count c
                /\ replan_count c1 = replan_count c
                /\ last_failure_reason c1 = last_failure_reason c).
    { revert E. unfold Planner._generate_plan. cbn [clock tick].
      destruct (llm_complete orc (S (clock c))) as [t|x];
        [destruct (Repair.filter_map Planner.parse_line (splitlines t)) |];
        intros [= <- ?]; subst; ctx_simpl; auto 10. }
    destruct F as (F1 & F2 & F3 & F4 & F5 & F6 & F7 & F8).
    ctx_simpl. rewrite emit_emitted, F3, F4.
    repeat split; auto. right. repeat split; auto.
  - cbn [snd] in G. destruct G as (Gne & Gall).
    assert (F : memory c1 = memory c
                /\ current_step_idx c1 = current_step_idx c
                /\ retry_count c1 = retry_count c
                /\ replan_count c1 = replan_count c
                /\ last_failure_reason c1 = last_failure_reason c).
    { revert E. unfold Planner._generate_plan. cbn [clock tick].
      destruct (llm_complete orc (S (clock c))) as [t|x];
        [destruct (Repair.filter_map Planner.parse_line (splitlines t)) |];
        intros [= <- ?]; subst; ctx_simpl; auto 10. }
    destruct F as (F2 & F5 & F6 & F7 & F8).
    unfold Planner._generate_intro. cbn [clock set_steps].
    destruct (llm_complete orc (clock c1)) as [intro | x]; ctx_simpl;
      (repeat split; auto; left; repeat split; auto; rewrite F2; eauto).
Qed.

(** ** The evaluation's grammar *)

(** X17. Whatever the language model answers or raises,
    [_evaluate_goal_completion] returns a text that starts with COMPLETED,
    INCOMPLETE or BLOCKED, as its docstring says; so the last branch of
    [ExecutorAgent.run] is taken by a BLOCKED evaluation only, and the
    Executor's hand-off after an evaluation is to Summary or to the
    Planner. *)
Theorem evaluation_is_completed_incomplete_or_blocked : forall orc c,
  let evaluation := snd (Executor._evaluate_goal_completion orc c) in
  (startswith "COMPLETED" evaluation = true
   \/ startswith "INCOMPLETE" evaluation = true
   \/ startswith "BLOCKED" evaluation = true)
  /\ (startswith "COMPLETED" evaluation = false ->
      startswith "INCOMPLETE" evaluation = false ->
      startswith "BLOCKED" evaluation = true)
  /\ (let r := snd (Executor.handle_evaluation
                      (fst (Executor._evaluate_goal_completion orc c)) evaluation) in
      next_agent r = Some "SummaryAgent" \/ next_agent r = Some "PlannerAgent").
Proof.
  intros orc c evaluation.
  assert (G : startswith "COMPLETED" evaluation = true
              \/ startswith "INCOMPLETE" evaluation = true
              \/ startswith "BLOCKED" evaluation = true).
  { subst evaluation. unfold Executor._evaluate_goal_completion.
    destruct (llm_complete orc (clock c)) as [reply | e].
    - destruct (startswith "COMPLETED" (upper (strip reply))) eqn:E1; [left; reflexivity|].
      destruct (startswith "INCOMPLETE" (upper (strip reply))) eqn:E2; [right; left; exact E2|].
      destruct (startswith "BLOCKED" (upper (strip reply))) eqn:E3; [right; right; exact E3|].
      destruct (Executor.ge_len_times_0_7 _ _); [left | right; left]; reflexivity.
    - destruct (Nat.eqb _ 0); [left; reflexivity|].
      destruct (Nat.ltb _ _); [left | right; left]; reflexivity. }
  split; [exact G|]. split.
  - intros H1 H2. destruct G as [G | [G | G]]; congruence.
  - cbv zeta.
    destruct (Executor.handle_evaluation _ evaluation) as [c' r] eqn:E.
    apply handle_evaluation_spec in E. destruct E as (_ & _ & _ & _ & [N | (N & _)]);
      cbn [snd]; auto.
Qed.

(** ** More of the catastrophic-command gate *)

(** X8. The gate flags every command that holds a fork-bomb signature
    [:()], that names [mkfs] (in any case, blanks ignored) together with
    [/dev/], that names [dd] together with [of=/dev/], or whose text without
    blanks, lowercased, holds a redirection [>/dev/sd] or [>/dev/nvme]. *)
Theorem gate_flags_disk_writes_and_fork_bombs : forall command,
  let cmd_lower := replace " " "" (lower command) in
  contains ":()" command = true
  \/ (contains "mkfs" cmd_lower = true /\ contains "/dev/" command = true)
  \/ (contains "dd" cmd_lower = true /\ contains "of=/dev/" command = true)
  \/ contains ">/dev/sd" cmd_lower = true
  \/ contains ">/dev/nvme" cmd_lower = true ->
  Executor._is_catastrophic command = true.
Proof.
  intros command cmd_lower H. unfold Executor._is_catastrophic. fold cmd_lower.
  destruct (_ && _ && (search Executor.RE_ROOT_END command
                       || search Executor.RE_ROOT_AND command)); [reflexivity|].
  destruct (contains "mkfs" cmd_lower && contains "/dev/" command) eqn:E1;
    [reflexivity|].
  destruct (contains "dd" cmd_lower && contains "of=/dev/" command) eqn:E2;
    [reflexivity|].
  destruct (contains ">/dev/sd" cmd_lower || contains ">/dev/nvme" cmd_lower) eqn:E3;
    [reflexivity|].
  destruct (contains ":(){" command || contains ":()" command) eqn:E4;
    [reflexivity|].
  apply orb_false_iff in E3 as [E3 E3'], E4 as [E4 E4'].
  destruct H as [H | [[H H'] | [[H H'] | [H | H]]]]; try congruence.
  - rewrite H, H' in E1. discriminate.
  - rewrite H, H' in E2. discriminate.
Qed.

(** A witness of X8: formatting a disk. *)
Lemma gate_flags_disk_writes_and_fork_bombs_witness :
  Executor._is_catastrophic "sudo MKFS.ext4 /dev/sdb1" = true.
Proof.
  apply (gate_flags_disk_writes_and_fork_bombs "sudo MKFS.ext4 /dev/sdb1").
  right. left. split; reflexivity.
Defined.

(** ** Timeouts by command class *)

(** Every command gets a deadline of 60, 180 or 300 seconds; one that
    mentions a package manager or a network fetch gets 180 whatever else it
    mentions, and a build command 300 only when it mentions neither those
    nor [systemctl]. *)
Lemma timeout_is_60_180_or_300 : forall command,
  let t := Executor._get_timeout command in
  (t = 60 \/ t = 180 \/ t = 300)
  /\ (Executor.any_in ["apt"; "yum"; "dnf"; "pip"; "npm"; "wget"; "curl";
                       "git clone"] command = true -> t = 180)
  /\ (t = 300 ->
      Executor.any_in ["make"; "cmake"; "configure"; "build"] command = true
      /\ contains "systemctl" command = false
      /\ Executor.any_in ["apt"; "yum"; "dnf"; "pip"; "npm"; "wget"; "curl";
                          "git clone"] command = false).
Proof.
  intros command t. subst t. unfold Executor._get_timeout.
  destruct (Executor.any_in ["apt"; _; _; _; _; _; _; _] command).
  { repeat split; auto; discriminate. }
  destruct (contains "systemctl" command).
  { repeat split; auto; discriminate. }
  destruct (Executor.any_in ["make"; _; _; _] command);
    repeat split; auto; discriminate.
Qed.

(** ** Steps the Executor does not run *)

(** A witness of X9: the step [rm -rf /]. *)
Lemma blocked_step_recorded_and_skipped_witness :
  let (c', r) := Executor.exec_iter Machine.offline Machine.with_rm_rf_root in
  r = None
  /\ current_step_idx c' = 1
  /\ option_map (fun s => (status s, error s)) (nth_error (steps c') 0)
     = Some (failed, Executor.BLOCKED_ERROR)
  /\ retry_count c' = 0
  /\ clock c' = 0.
Proof.
  apply (blocked_step_recorded_and_skipped Machine.offline
           Machine.with_rm_rf_root (new_step "clean" "rm -rf /") "rm -rf /").
  - reflexivity.
  - reflexivity.
  - discriminate.
  - vm_compute. reflexivity.
Defined.

(** X10. A step without a command ([None] or the empty text) is not run:
    the pass records it as failed with the missing-command error, calls
    neither the terminal nor the language model, keeps [retry_count], returns
    no hand-off and moves the index past the step. *)
Theorem step_without_command_fails_unrun : forall orc c step,
  nth_error (steps c) (current_step_idx c) = Some step ->
  command step = None \/ command step = Some "" ->
  let (c', r) := Executor.exec_iter orc c in
  r = None
  /\ current_step_idx c' = current_step_idx c + 1
  /\ option_map (fun s => (status s, error s))
                (nth_error (steps c') (current_step_idx c))
     = Some (failed, "缺少可执行命令")
  /\ retry_count c' = retry_count c
  /\ clock c' = clock c.
Proof.
  intros orc c step Hnth Hcmd.
  assert (Hlen : current_step_idx c < List.length (steps c)).
  { apply nth_error_Some. congruence. }
  unfold Executor.exec_iter. rewrite Hnth.
  set (i := current_step_idx c) in *.
  set (c1 := emit (emit_tasks (update_step c i (fun s => set_status s running)))
                  "log" ("开始: " ++ title step)).
  assert (L1 : List.length (steps c1) = List.length (steps c))
    by (unfold c1; ctx_simpl; reflexivity).
  assert (G : let c' := set_current_step_idx
                (emit_tasks (update_step c1 i (fun s =>
                   set_error (set_status s failed) "缺少可执行命令"))) (i + 1) in
              current_step_idx c' = i + 1
              /\ option_map (fun s => (status s, error s)) (nth_error (steps c') i)
                 = Some (failed, "缺少可执行命令")
              /\ retry_count c' = retry_count c
              /\ clock c' = clock c).
  { cbv zeta. ctx_simpl. unfold c1 at 2 3. ctx_simpl.
    repeat split; auto.
    rewrite update_step_steps by lia.
    destruct (nth_error (steps c1) i) eqn:E; [reflexivity|].
    apply nth_error_None in E. lia. }
  destruct Hcmd as [-> | ->]; (split; [reflexivity | exact G]).
Qed.

(** A witness of X10: a step created without a command. *)
Lemma step_without_command_fails_unrun_witness :
  let (c', r) := Executor.exec_iter Machine.offline Machine.with_empty_command in
  r = None
  /\ current_step_idx c' = 1
  /\ option_map (fun s => (status s, error s)) (nth_error (steps c') 0)
     = Some (failed, "缺少可执行命令")
  /\ retry_count c' = 0
  /\ clock c' = 0.
Proof.
  apply (step_without_command_fails_unrun Machine.offline
           Machine.with_empty_command (mkStep "noop" None pending "" "")).
  - reflexivity.
  - left. reflexivity.
Defined.

(** ** Steps behind the index are settled *)

Section StepFacts.
Variable orc : Oracle.

Lemma nth_error_list_set_other : forall {A} (l : list A) i j v,
  j <> i -> nth_error (list_set l i v) j = nth_error l j.
Proof.
  induction l as [|h t IH]; intros [|i] [|j] v H; simpl; auto; try congruence;
    try (apply IH; congruence).
Qed.

Lemma nth_error_update_step : forall c i f j,
  nth_error (steps (update_step c i f)) j =
  if Nat.eqb j i then option_map f (nth_error (steps c) i)
  else nth_error (steps c) j.
Proof.
  intros c i f j. unfold update_step.
  destruct (Nat.eqb_spec j i) as [-> | Hne].
  - destruct (nth_error (steps c) i) eqn:E; cbn [steps set_steps option_map].
    + apply nth_error_list_set. apply nth_error_Some. congruence.
    + exact E.
  - destruct (nth_error (steps c) i); cbn [steps set_steps]; [| reflexivity].
    now apply nth_error_list_set_other.
Qed.

(** A step that has been dealt with. *)
Definition final (s : Step) : Prop := status s = done \/ status s = failed.

(** One pass of the loop touches the current step only, and leaves it done
    or failed; failed when the pass hands off to Repair. *)
Lemma exec_iter_steps : forall c c' r,
  current_step_idx c < List.length (steps c) ->
  Executor.exec_iter orc c = (c', r) ->
  (forall j, j <> current_step_idx c ->
             nth_error (steps c') j = nth_error (steps c) j)
  /\ exists s', nth_error (steps c') (current_step_idx c) = Some s'
                /\ final s' /\ (r <> None -> status s' = failed).
Proof.
  intros c c' r Hlt. unfold Executor.exec_iter.
  destruct (nth_error (steps c) (current_step_idx c)) as [step|] eqn:E;
    [| apply nth_error_None in E; lia].
  set (i := current_step_idx c) in *.
  assert (T : Nat.eqb i i = true) by apply Nat.eqb_refl.
  assert (Fj : forall j, j <> i -> Nat.eqb j i = false)
    by (intros j Hj; now apply Nat.eqb_neq).
  destruct (command step) as [[|a cmd]|].
  - intros [= <- <-]. split.
    + intros j Hj. ctx_simpl. rewrite !nth_error_update_step.
      ctx_simpl. rewrite !nth_error_update_step. now rewrite (Fj j Hj).
    + ctx_simpl. rewrite !nth_error_update_step.
      ctx_simpl. rewrite !nth_error_update_step. rewrite T, E.
      eexists; split; [reflexivity|]. unfold final; cbn. auto.
  - destruct (Executor._is_catastrophic (String a cmd)).
    + intros [= <- <-]. split.
      * intros j Hj. ctx_simpl. rewrite !nth_error_update_step.
        ctx_simpl. rewrite !nth_error_update_step. now rewrite (Fj j Hj).
      * ctx_simpl. rewrite !nth_error_update_step.
        ctx_simpl. rewrite !nth_error_update_step. rewrite T, E.
        eexists; split; [reflexivity|]. unfold final; cbn. auto.
    + unfold Executor._execute_step.
      destruct (shell_run orc _ _ _ _) as [raw | e | e];
        [destruct (check_fatal_error (clean_output raw)) | |];
        repeat match goal with
               | |- context [Nat.ltb ?a ?b] => destruct (Nat.ltb a b)
               end;
        intros [= <- <-]; (split;
          [ intros j Hj;
            repeat (ctx_simpl; rewrite ?nth_error_update_step);
            now rewrite ?(Fj j Hj)
          | repeat (ctx_simpl; rewrite ?nth_error_update_step);
            rewrite ?T, E;
            eexists; split; [reflexivity|]; unfold final; cbn;
            split; [auto | first [reflexivity | congruence]] ]).
  - intros [= <- <-]. split.
    + intros j Hj. ctx_simpl. rewrite !nth_error_update_step.
      ctx_simpl. rewrite !nth_error_update_step. now rewrite (Fj j Hj).
    + ctx_simpl. rewrite !nth_error_update_step.
      ctx_simpl. rewrite !nth_error_update_step. rewrite T, E.
      eexists; split; [reflexivity|]. unfold final; cbn. auto.
Qed.

End StepFacts.

Section SettledFacts.
Variable orc : Oracle.

(** The index is within the plan and every step before it is done or
    failed. *)
Definition settled (c : AgentContext) : Prop :=
  current_step_idx c <= List.length (steps c)
  /\ forall i s, i < current_step_idx c ->
                 nth_error (steps c) i = Some s -> final s.

Definition current_failed (c : AgentContext) : Prop :=
  exists s, nth_error (steps c) (current_step_idx c) = Some s
            /\ status s = failed.

Lemma exec_iter_settled : forall c c' r,
  settled c ->
  current_step_idx c < List.length (steps c) ->
  Executor.exec_iter orc c = (c', r) ->
  settled c' /\ (r <> None -> current_failed c').
Proof.
  intros c c' r (S1 & S2) Hlt E.
  pose proof (exec_iter_spec orc c c' r E) as (_ & _ & L & N).
  pose proof (exec_iter_steps orc c c' r Hlt E) as (O & s' & Hs' & Fs' & Rs').
  destruct r as [res|].
  - destruct N as (_ & _ & I). split.
    + split; [lia|]. intros i s Hi Hn. rewrite I in Hi.
      rewrite O in Hn by lia. eauto.
    + intros _. exists s'. rewrite I. split; [exact Hs' | apply Rs'; discriminate].
  - specialize (N Hlt). split; [| congruence].
    split; [lia|]. intros i s Hi Hn. rewrite N in Hi.
    destruct (Nat.eq_dec i (current_step_idx c)) as [-> | Hne].
    + congruence.
    + rewrite O in Hn by exact Hne. apply (S2 i s); [lia | exact Hn].
Qed.

Lemma exec_loop_settled : forall fuel c c' r,
  settled c ->
  Executor.exec_loop orc fuel c = (c', r) ->
  settled c' /\ (r <> None -> current_failed c').
Proof.
  induction fuel as [|f IH]; intros c c' r S0; cbn [Executor.exec_loop].
  - intros [= <- <-]. split; [exact S0 | congruence].
  - destruct (Nat.ltb (current_step_idx c) (List.length (steps c))) eqn:Hlt.
    + apply Nat.ltb_lt in Hlt.
      destruct (Executor.exec_iter orc c) as [c1 [res|]] eqn:E1.
      * intros [= <- <-]. eapply exec_iter_settled; eauto.
      * intros E2. eapply IH; [| exact E2].
        eapply exec_iter_settled; eauto.
    + intros [= <- <-]. split; [exact S0 | congruence].
Qed.

Lemma handle_evaluation_steps : forall c ev c' r,
  Executor.handle_evaluation c ev = (c', r) ->
  (next_agent r = Some "PlannerAgent" /\ steps c' = []
   /\ current_step_idx c' = 0)
  \/ (next_agent r = Some "SummaryAgent" /\ steps c' = steps c
      /\ current_step_idx c' = current_step_idx c).
Proof.
  intros c ev c' r. unfold Executor.handle_evaluation.
  destruct (startswith "COMPLETED" ev).
  { intros [= <- <-]. ctx_simpl. auto. }
  destruct (startswith "INCOMPLETE" ev).
  2:{ intros [= <- <-]. ctx_simpl. auto. }
  destruct (String.eqb _ (last_failure_reason c));
    destruct (Nat.ltb _ _); intros [= <- <-]; ctx_simpl; auto.
Qed.

Lemma evaluate_steps : forall c,
  steps (fst (Executor._evaluate_goal_completion orc c)) = steps c
  /\ current_step_idx (fst (Executor._evaluate_goal_completion orc c))
     = current_step_idx c.
Proof.
  intros c. unfold Executor._evaluate_goal_completion.
  destruct (llm_complete orc (clock c));
    repeat match goal with |- context [if ?b then _ else _] => destruct b end;
    ctx_simpl; auto.
Qed.

Lemma executor_run_settled : forall c c' r,
  settled c ->
  Executor.run orc c = (c', r) ->
  settled c'
  /\ ((next_agent r = Some "RepairAgent" /\ current_failed c')
      \/ (next_agent r = Some "SummaryAgent"
          /\ List.length (steps c') <= current_step_idx c')
      \/ (next_agent r = Some "PlannerAgent" /\ current_step_idx c' = 0)).
Proof.
  intros c c' r S0. unfold Executor.run.
  destruct (Executor.exec_loop orc _ c) as [c1 [res|]] eqn:E1.
  - intros [= <- <-].
    pose proof (exec_loop_settled _ _ _ _ S0 E1) as (S1 & F1).
    pose proof (exec_loop_spec orc _ _ _ _ E1) as (_ & _ & N & _).
    split; [exact S1|]. left. split; [exact N | apply F1; discriminate].
  - pose proof (exec_loop_settled _ _ _ _ S0 E1) as (S1 & _).
    pose proof (exec_loop_spec orc _ _ _ _ E1) as (_ & _ & N).
    specialize (N (Nat.le_refl _)).
    pose proof (evaluate_steps c1) as (V1 & V2).
    destruct (Executor._evaluate_goal_completion orc c1) as [c2 ev].
    cbn [fst] in V1, V2.
    intros E3. apply handle_evaluation_steps in E3.
    destruct E3 as [(N1 & N2 & N3) | (N1 & N2 & N3)].
    + split; [| right; right; auto].
      split; [rewrite N3; lia | intros i s Hi; rewrite N3 in Hi; lia].
    + split; [| right; left; split; [exact N1 | rewrite N2, N3, V1, V2; exact N]].
      destruct S1 as (A & B).
      split; [rewrite N2, N3, V1, V2; exact A|].
      intros i s Hi Hn. rewrite N3, V2 in Hi. rewrite N2, V1 in Hn. eauto.
Qed.

Lemma repair_run_settled : forall c c' r,
  settled c -> current_failed c ->
  Repair.run orc c = (c', r) ->
  settled c' /\ next_agent r = Some "ExecutorAgent".
Proof.
  intros c c' r (S1 & S2) (s0 & Hs0 & Hf). unfold Repair.run.
  unfold get_current_step. rewrite Hs0. unfold Repair._generate_repair.
  cbn [clock set_retry_count].
  assert (Hi : current_step_idx c < List.length (steps c)).
  { apply nth_error_Some. congruence. }
  assert (Keep : forall c2, steps c2 = steps c ->
                 current_step_idx c2 = current_step_idx c + 1 -> settled c2).
  { intros c2 K1 K2. split; [rewrite K1, K2; lia|].
    intros i s Hlt Hn. rewrite K2 in Hlt. rewrite K1 in Hn.
    destruct (Nat.eq_dec i (current_step_idx c)) as [-> | Hne].
    - right. congruence.
    - apply (S2 i s); [lia | exact Hn]. }
  destruct (llm_complete orc (clock c)) as [suggestion | e].
  - destruct (Repair.parse_repair suggestion) as [|s1 rest] eqn:E.
    + intros [= <- <-]. split; [| reflexivity]. apply Keep; ctx_simpl; reflexivity.
    + intros [= <- <-]. split; [| reflexivity].
      unfold settled. ctx_simpl.
      change (Repair.insert_each
                (Repair.py_insert (steps c) (current_step_idx c + 1) s1)
                (S (current_step_idx c + 1)) rest)
        with (Repair.insert_each (steps c) (current_step_idx c + 1) (s1 :: rest)).
      rewrite !insert_each_spec by lia.
      assert (Lf : List.length (firstn (current_step_idx c + 1) (steps c))
                   = current_step_idx c + 1) by (apply firstn_length_le; lia).
      split.
      * rewrite !length_app, Lf. lia.
      * intros i s Hlt Hn.
        rewrite nth_error_app1 in Hn by lia.
        rewrite nth_error_firstn in Hn.
        replace (Nat.ltb i (current_step_idx c + 1)) with true in Hn
          by (symmetry; apply Nat.ltb_lt; lia).
        destruct (Nat.eq_dec i (current_step_idx c)) as [-> | Hne].
        -- right. congruence.
        -- apply (S2 i s); [lia | exact Hn].
  - intros [= <- <-]. split; [| reflexivity]. apply Keep; ctx_simpl; reflexivity.
Qed.

Lemma planner_run_steps : forall c c' r,
  Planner.run orc c = (c', r) -> current_step_idx c' = current_step_idx c.
Proof.
  intros c c' r E.
  pose proof (planner_hands_off_aux orc c) as H.
  rewrite E in H. cbn [fst] in H. exact H.
Qed.

Lemma quiet_agents_steps :
  (forall c, steps (fst (Router.run orc c)) = steps c
             /\ current_step_idx (fst (Router.run orc c)) = current_step_idx c)
  /\ (forall c, steps (fst (Chat.run orc c)) = steps c
                /\ current_step_idx (fst (Chat.run orc c)) = current_step_idx c)
  /\ (forall c, steps (fst (Summary.run orc c)) = steps c
                /\ current_step_idx (fst (Summary.run orc c)) = current_step_idx c).
Proof.
  split; [| split]; intros c.
  - unfold Router.run, Router._classify_intent.
    cbn [clock memory_append set_memory].
    destruct (llm_complete orc (clock c)) as [reply|e];
      [destruct (contains "CHAT" (upper reply)) |]; ctx_simpl; auto.
  - unfold Chat.run. destruct (llm_complete orc (clock c)); ctx_simpl; auto.
  - unfold Summary.run. destruct (llm_complete orc (clock c)); ctx_simpl; auto.
Qed.

(** The invariant along a turn. *)
Definition plan_inv (name : option string) (c : AgentContext) : Prop :=
  settled c
  /\ (name = Some "RepairAgent" -> current_failed c)
  /\ (name = Some "PlannerAgent" \/ name = Some "RouterAgent"
      \/ name = Some "ChatAgent" -> current_step_idx c = 0)
  /\ (name = Some "SummaryAgent" ->
      List.length (steps c) <= current_step_idx c).

Lemma settled_at_zero : forall c, current_step_idx c = 0 -> settled c.
Proof. intros c H. split; [lia | intros i s Hi; lia]. Qed.

Lemma reachable_plan_inv : forall goal stream mem name c,
  Machine.reachable orc goal stream mem name c -> plan_inv name c.
Proof.
  intros goal stream mem name c H.
  induction H as [| name c agent c' r _ IH Hreg Hrun | c c' _ IH Hlt Hiter].
  - unfold plan_inv. split; [apply settled_at_zero; reflexivity|].
    repeat split; try discriminate; auto.
  - destruct IH as (I1 & I2 & I3 & I4).
    destruct quiet_agents_steps as (QR & QC & QS).
    apply registry_cases in Hreg.
    destruct Hreg as [(-> & ->) | [(-> & ->) | [(-> & ->) | [(-> & ->)
                     | [(-> & ->) | (-> & ->)]]]]];
      apply lift_returns in Hrun as (r' & [= <-] & Hrun).
    + pose proof (QR c) as (Q1 & Q2). rewrite Hrun in Q1, Q2. cbn [fst] in Q1, Q2.
      apply router_run_spec in Hrun as (_ & _ & N).
      specialize (I3 ltac:(auto)).
      unfold plan_inv.
      split; [apply settled_at_zero; congruence|].
      split; [intros E; destruct N as [N|N]; congruence|].
      split; [intros _; congruence|].
      intros E; destruct N as [N|N]; congruence.
    + pose proof (QC c) as (Q1 & Q2). rewrite Hrun in Q1, Q2. cbn [fst] in Q1, Q2.
      apply chat_run_spec in Hrun as (_ & _ & N).
      specialize (I3 ltac:(auto)).
      unfold plan_inv.
      split; [apply settled_at_zero; congruence|].
      repeat split; intros; congruence.
    + pose proof (planner_run_steps _ _ _ Hrun) as Q2.
      apply planner_run_spec in Hrun as (_ & _ & N).
      specialize (I3 ltac:(auto)).
      unfold plan_inv.
      split; [apply settled_at_zero; congruence|].
      split; [intros E; destruct N as [N|N]; congruence|].
      split; [intros _; congruence|].
      intros E; destruct N as [N|N]; congruence.
    + apply executor_run_settled in Hrun as (S' & N); [| exact I1].
      unfold plan_inv. split; [exact S'|].
      destruct N as [(N & F) | [(N & L) | (N & Z)]]; rewrite N.
      * repeat split; auto; try discriminate.
        intros [E | [E | E]]; discriminate.
      * repeat split; auto; try discriminate.
        intros [E | [E | E]]; discriminate.
      * repeat split; auto; discriminate.
    + apply repair_run_settled in Hrun as (S' & N); auto.
      unfold plan_inv. split; [exact S'|]. rewrite N.
      repeat split; try discriminate.
      intros [E | [E | E]]; discriminate.
    + pose proof (QS c) as (Q1 & Q2). rewrite Hrun in Q1, Q2. cbn [fst] in Q1, Q2.
      apply summary_run_spec in Hrun as (_ & _ & N).
      destruct I1 as (A & B).
      unfold plan_inv. rewrite N.
      split; [split; [congruence | intros i s Hi Hn; rewrite Q2 in Hi;
                                   rewrite Q1 in Hn; eauto]|].
      repeat split; try discriminate.
      intros [E | [E | E]]; discriminate.
  - destruct IH as (I1 & _).
    pose proof (exec_iter_settled _ _ _ I1 Hlt Hiter) as (S' & _).
    unfold plan_inv. split; [exact S'|].
    repeat split; try discriminate.
    intros [E | [E | E]]; discriminate.
Qed.

Lemma settled_all_final : forall c,
  settled c -> List.length (steps c) <= current_step_idx c ->
  Forall final (steps c).
Proof.
  intros c (A & B) L. apply Forall_forall. intros s Hin.
  apply In_nth_error in Hin as (i & Hi).
  apply (B i s); [| exact Hi].
  assert (i < List.length (steps c)) by (apply nth_error_Some; congruence). lia.
Qed.

Lemma count_final : forall l,
  Forall final l ->
  Executor.count_status done l + Executor.count_status failed l = List.length l.
Proof.
  unfold Executor.count_status.
  induction 1 as [|s l [Hs | Hs] _ IH]; cbn [filter List.length]; [reflexivity | |];
    rewrite Hs; cbn [Status_eqb List.length]; lia.
Qed.

End SettledFacts.

(** X3. In every state reachable during a turn the index lies within the
    plan and every step before it is done or failed; Repair is entered on a
    current step that is failed; and when Summary is reached every step of
    the plan is done or failed, none pending or running. *)
Theorem steps_before_the_index_are_settled :
  forall orc goal stream mem name c,
    Machine.reachable orc goal stream mem name c ->
    current_step_idx c <= List.length (steps c)
    /\ (forall i s, i < current_step_idx c ->
                    nth_error (steps c) i = Some s ->
                    status s = done \/ status s = failed)
    /\ (name = Some "RepairAgent" ->
        exists s, get_current_step c = Some s /\ status s = failed)
    /\ (name = Some "SummaryAgent" ->
        Forall (fun s => status s = done \/ status s = failed) (steps c)).
Proof.
  intros orc goal stream mem name c H.
  destruct (reachable_plan_inv orc goal stream mem name c H)
    as (S0 & I2 & _ & I4).
  pose proof S0 as (A & B).
  split; [exact A|]. split; [exact B|]. split; [exact I2|].
  intros E. apply settled_all_final; auto.
Qed.

(** A witness of X3: the state behind the first repair. *)
Lemma steps_before_the_index_are_settled_witness :
  current_step_idx Machine.after_first_repair = 1
  /\ List.length (steps Machine.after_first_repair) = 2
  /\ (forall i s, i < current_step_idx Machine.after_first_repair ->
                  nth_error (steps Machine.after_first_repair) i = Some s ->
                  status s = done \/ status s = failed).
Proof.
  destruct (steps_before_the_index_are_settled Machine.flaky "install htop"
              None [] (Some "ExecutorAgent") Machine.after_first_repair
              after_first_repair_reachable) as (_ & H & _).
  split; [vm_compute; reflexivity |]. split; [vm_compute; reflexivity | exact H].
Defined.

(** The turn of [Machine.obliging] reaches Summary. *)
Lemma after_execution_reachable :
  Machine.reachable Machine.obliging "show uptime" None []
    (Some "SummaryAgent") Machine.after_execution.
Proof.
  unfold Machine.after_execution.
  eapply (reach_lifted _ _ _ _ "ExecutorAgent");
    [| reflexivity | | reflexivity]; [| vm_compute; reflexivity].
  eapply (reach_lifted _ _ _ _ "PlannerAgent");
    [| reflexivity | | reflexivity]; [| vm_compute; reflexivity].
  eapply (reach_lifted _ _ _ _ "RouterAgent");
    [| reflexivity | | reflexivity]; [| vm_compute; reflexivity].
  apply Machine.reach_start.
Qed.

(** X4. Whenever Summary is reached, the counts it computes add up: the
    steps done and the steps failed are all the steps. *)
Theorem summary_counts_add_up :
  forall orc goal stream mem c,
    Machine.reachable orc goal stream mem (Some "SummaryAgent") c ->
    Executor.count_status done (steps c) + Executor.count_status failed (steps c)
    = List.length (steps c).
Proof.
  intros orc goal stream mem c H.
  destruct (reachable_plan_inv orc goal stream mem _ c H) as (S0 & _ & _ & I4).
  apply count_final. apply settled_all_final; auto.
Qed.

(** A witness of X4: one step, done. *)
Lemma summary_counts_add_up_witness :
  Executor.count_status done (steps Machine.after_execution) = 1
  /\ Executor.count_status done (steps Machine.after_execution)
     + Executor.count_status failed (steps Machine.after_execution)
     = List.length (steps Machine.after_execution).
Proof.
  split; [vm_compute; reflexivity |].
  exact (summary_counts_add_up Machine.obliging "show uptime" None []
           Machine.after_execution after_execution_reachable).
Defined.

(** ** Whole turns *)

Section WholeTurns.
Variable orc : Oracle.

(** One turn of the orchestrator's loop on a registered agent that returns. *)
Lemma loop_step : forall fuel a name t agent c' r,
  Orchestrator.iteration t < Orchestrator.max_iterations ->
  Orchestrator.registry orc (String a name) = Some agent ->
  agent (Orchestrator.ctx t) = (c', Returns r) ->
  Orchestrator.loop (Orchestrator.registry orc) (S fuel) (Some (String a name)) t
  = Orchestrator.loop (Orchestrator.registry orc) fuel (next_agent r)
      (Orchestrator.mkTurn c' (Orchestrator.iteration t + 1)
         (Orchestrator.invoked t ++ [String a name]) (Orchestrator.crashed t)).
Proof.
  intros fuel a name t agent c' r Hit Hreg Hrun.
  cbn [Orchestrator.loop Orchestrator.truthy].
  apply Nat.ltb_lt in Hit. rewrite Hit, Hreg.
  unfold Orchestrator.invoke, Orchestrator.try_except, Orchestrator.bind,
    Orchestrator.ret.
  rewrite Hrun. reflexivity.
Qed.

Lemma loop_stop : forall fuel t,
  Orchestrator.loop (Orchestrator.registry orc) fuel None t = (t, Returns tt).
Proof. intros [|fuel] t; reflexivity. Qed.

End WholeTurns.

(** X5. A turn whose first answer of the language model holds CHAT (in any
    case) invokes the Router and the Chat agent and nothing else: two calls
    of the language model and none of the terminal, no step, one [reply]
    event for the callback if there is one, and the empty steps list
    returned. *)
Theorem chat_turn_leaves_the_terminal_alone :
  forall orc user_goal stream history reply,
    llm_complete orc 0 = Text reply ->
    contains "CHAT" (upper reply) = true ->
    let t := fst (Orchestrator.run (Orchestrator.registry orc) user_goal stream history) in
    snd (Orchestrator.run (Orchestrator.registry orc) user_goal stream history)
      = Returns []
    /\ Orchestrator.invoked t = ["RouterAgent"; "ChatAgent"]
    /\ steps (Orchestrator.ctx t) = []
    /\ clock (Orchestrator.ctx t) = 2
    /\ exists text,
         emitted (Orchestrator.ctx t) =
         match stream with Some _ => [Ev "reply" text] | None => [] end.
Proof.
  intros orc user_goal stream history reply Hllm Hchat t. subst t.
  unfold Orchestrator.run.
  set (mem := match history with Some m => m | None => [] end).
  set (c0 := new_context user_goal mem stream 3).
  assert (R : Router.run orc c0
              = (tick (memory_append c0 "user" user_goal),
                 mkResult true (Some "ChatAgent") "Routing to ChatAgent")).
  { unfold Router.run, Router._classify_intent, c0.
    cbn [clock memory_append set_memory new_context goal].
    rewrite Hllm, Hchat. reflexivity. }
  set (c1 := tick (memory_append c0 "user" user_goal)) in *.
  destruct (Chat.run orc c1) as [c2 r2] eqn:C.
  assert (C' : next_agent r2 = None /\ steps c2 = [] /\ clock c2 = 2
               /\ exists text, emitted c2 =
                    match stream with Some _ => [Ev "reply" text] | None => [] end).
  { revert C. unfold Chat.run.
    destruct (llm_complete orc (clock c1)) as [text | e];
      intros [= <- <-]; ctx_simpl; rewrite emit_emitted; unfold c1, c0;
      cbn [emit_cb emitted tick memory_append set_memory new_context clock steps];
      (repeat split; auto; eexists; destruct stream; reflexivity). }
  destruct C' as (N2 & S2 & K2 & text & E2).
  unfold Orchestrator.max_iterations.
  rewrite (loop_step orc 19 "R" "outerAgent" _
             (Orchestrator.lift (Router.run orc))
             c1 (mkResult true (Some "ChatAgent") "Routing to ChatAgent"));
    [| cbn; unfold Orchestrator.max_iterations; lia | reflexivity
     | cbn [Orchestrator.ctx]; unfold Orchestrator.lift; rewrite R; reflexivity].
  cbn [next_agent Orchestrator.iteration Orchestrator.invoked Orchestrator.crashed].
  rewrite (loop_step orc 18 "C" "hatAgent" _
             (Orchestrator.lift (Chat.run orc)) c2 r2);
    [| cbn; unfold Orchestrator.max_iterations; lia | reflexivity
     | cbn [Orchestrator.ctx]; unfold Orchestrator.lift; rewrite C; reflexivity].
  rewrite N2, loop_stop.
  cbn [fst snd Orchestrator.ctx Orchestrator.invoked app].
  rewrite S2. repeat split; auto. eauto.
Qed.

(** A witness of X5: a model that answers ["chat"]. *)
Lemma chat_turn_leaves_the_terminal_alone_witness :
  let orc := mkOracle (fun _ => Text "chat") (fun _ _ _ _ => ShOutput "")
                      (fun _ => None) in
  Orchestrator.invoked
    (fst (Orchestrator.run (Orchestrator.registry orc) "hello" None None))
  = ["RouterAgent"; "ChatAgent"].
Proof.
  exact (proj1 (proj2
    (chat_turn_leaves_the_terminal_alone
       (mkOracle (fun _ => Text "chat") (fun _ _ _ _ => ShOutput "")
                 (fun _ => None))
       "hello" None None "chat" eq_refl eq_refl))).
Defined.

(** X16. When every call of the language model raises, a turn invokes the
    Router (which defaults to the Planner) and the Planner (which fails the
    turn) and stops: the empty steps list is returned, and the callback, if
    there is one, receives the planning-failed [error] event and nothing
    else. *)
Theorem turn_without_language_model_ends_at_the_planner :
  forall orc user_goal stream history,
    (forall k, exists e, llm_complete orc k = Raises e) ->
    let t := fst (Orchestrator.run (Orchestrator.registry orc) user_goal stream history) in
    snd (Orchestrator.run (Orchestrator.registry orc) user_goal stream history)
      = Returns []
    /\ Orchestrator.invoked t = ["RouterAgent"; "PlannerAgent"]
    /\ exists e,
         emitted (Orchestrator.ctx t) =
         match stream with
         | Some _ => [Ev "error" ("规划失败: " ++ e)]
         | None => []
         end.
Proof.
  intros orc user_goal stream history Hllm t. subst t.
  unfold Orchestrator.run.
  set (mem := match history with Some m => m | None => [] end).
  set (c0 := new_context user_goal mem stream 3).
  assert (R : Router.run orc c0
              = (tick (memory_append c0 "user" user_goal),
                 mkResult true (Some "PlannerAgent") "Routing to PlannerAgent")).
  { unfold Router.run, Router._classify_intent, c0.
    cbn [clock memory_append set_memory new_context goal].
    destruct (Hllm 0) as (e & ->). reflexivity. }
  set (c1 := tick (memory_append c0 "user" user_goal)) in *.
  destruct (Planner.run orc c1) as [c2 r2] eqn:P.
  assert (P' : next_agent r2 = None /\ steps c2 = []
               /\ exists e, emitted c2 =
                    match stream with
                    | Some _ => [Ev "error" ("规划失败: " ++ e)]
                    | None => []
                    end).
  { revert P. unfold Planner.run, Planner.planning_failed, Planner._generate_plan.
    destruct (shell_start orc (clock c1)) as [e|].
    - intros [= <- <-]. ctx_simpl. rewrite emit_emitted. unfold c1, c0.
      cbn [emit_cb emitted tick memory_append set_memory new_context steps].
      repeat split; auto. exists e. destruct stream; reflexivity.
    - cbn [clock tick]. destruct (Hllm (S (clock c1))) as (e & ->).
      intros [= <- <-]. ctx_simpl. rewrite emit_emitted. unfold c1, c0.
      cbn [emit_cb emitted tick memory_append set_memory new_context steps].
      repeat split; auto. exists e. destruct stream; reflexivity. }
  destruct P' as (N2 & S2 & e & E2).
  unfold Orchestrator.max_iterations.
  rewrite (loop_step orc 19 "R" "outerAgent" _
             (Orchestrator.lift (Router.run orc))
             c1 (mkResult true (Some "PlannerAgent") "Routing to PlannerAgent"));
    [| cbn; unfold Orchestrator.max_iterations; lia | reflexivity
     | cbn [Orchestrator.ctx]; unfold Orchestrator.lift; rewrite R; reflexivity].
  cbn [next_agent Orchestrator.iteration Orchestrator.invoked Orchestrator.crashed].
  rewrite (loop_step orc 18 "P" "lannerAgent" _
             (Orchestrator.lift (Planner.run orc)) c2 r2);
    [| cbn; unfold Orchestrator.max_iterations; lia | reflexivity
     | cbn [Orchestrator.ctx]; unfold Orchestrator.lift; rewrite P; reflexivity].
  rewrite N2, loop_stop.
  cbn [fst snd Orchestrator.ctx Orchestrator.invoked app].
  rewrite S2. repeat split; auto. eauto.
Qed.

(** A witness of X16: the model [Machine.offline]. *)
Lemma turn_without_language_model_ends_at_the_planner_witness :
  Orchestrator.invoked
    (fst (Orchestrator.run (Orchestrator.registry Machine.offline)
            "install htop" None None))
  = ["RouterAgent"; "PlannerAgent"].
Proof.
  exact (proj1 (proj2
    (turn_without_language_model_ends_at_the_planner Machine.offline
       "install htop" None None
       (fun k => ex_intro _ "connection refused" eq_refl)))).
Defined.

(** ** The hand-off graph *)

(** The flow of the orchestrator's docstring, with the re-plan edge of the
    Executor and the no-step edge of Repair. *)
Definition edge (a b : string) : bool :=
  (String.eqb a "RouterAgent"
   && (String.eqb b "ChatAgent" || String.eqb b "PlannerAgent"))
  || (String.eqb a "PlannerAgent" && String.eqb b "ExecutorAgent")
  || (String.eqb a "ExecutorAgent"
      && (String.eqb b "RepairAgent" || String.eqb b "SummaryAgent"
          || String.eqb b "PlannerAgent"))
  || (String.eqb a "RepairAgent"
      && (String.eqb b "ExecutorAgent" || String.eqb b "SummaryAgent")).

Fixpoint flow_from (prev : string) (l : list string) : bool :=
  match l with
  | [] => true
  | a :: rest => edge prev a && flow_from a rest
  end.

(** A sequence of invocations that starts at the Router and follows the
    edges. *)
Definition follows_flow (l : list string) : bool :=
  match l with
  | [] => true
  | a :: rest => String.eqb a "RouterAgent" && flow_from a rest
  end.

Section FlowFacts.
Variable orc : Oracle.

Lemma last_cons_default : forall (l : list string) a d,
  last (a :: l) d = last l a.
Proof.
  induction l as [|b l IH]; intros a d; [reflexivity|].
  change (last (a :: b :: l) d) with (last (b :: l) d).
  rewrite (IH b d), (IH b a). reflexivity.
Qed.

Lemma flow_from_snoc : forall l p x,
  flow_from p (l ++ [x]) = flow_from p l && edge (last l p) x.
Proof.
  induction l as [|a l IH]; intros p x; cbn [app flow_from].
  - cbn [last]. now rewrite andb_true_r.
  - rewrite IH, last_cons_default. now rewrite andb_assoc.
Qed.

(** The agent a registered agent names next is one of its successors. *)
Lemma next_agent_is_a_successor : forall n agent c c' r m,
  Orchestrator.registry orc n = Some agent ->
  agent c = (c', Returns r) ->
  next_agent r = Some m ->
  edge n m = true.
Proof.
  intros n agent c c' r m Hreg Hrun Hm.
  apply registry_cases in Hreg.
  destruct Hreg as [(-> & ->) | [(-> & ->) | [(-> & ->) | [(-> & ->)
                   | [(-> & ->) | (-> & ->)]]]]];
    apply lift_returns in Hrun as (r' & [= <-] & Hrun).
  - apply router_run_spec in Hrun as (_ & _ & [N | N]);
      rewrite N in Hm; injection Hm as <-; reflexivity.
  - apply chat_run_spec in Hrun as (_ & _ & N). congruence.
  - apply planner_run_spec in Hrun as (_ & _ & [N | N]);
      rewrite N in Hm; [injection Hm as <-; reflexivity | discriminate].
  - apply executor_run_spec in Hrun
      as (_ & _ & _ & _ & [(N & _) | [N | (N & _)]]);
      rewrite N in Hm; injection Hm as <-; reflexivity.
  - apply repair_run_spec in Hrun as (_ & [(N & _) | (N & _)]);
      rewrite N in Hm; injection Hm as <-; reflexivity.
  - apply summary_run_spec in Hrun as (_ & _ & N). congruence.
Qed.

(** What the loop keeps: the invocations so far follow the flow, and the
    agent to run next is the Router at the start and a successor of the
    last one invoked afterwards. *)
Definition on_track (l : list string) (cur : option string) : Prop :=
  follows_flow l = true
  /\ forall n, cur = Some n ->
       match l with
       | [] => n = "RouterAgent"
       | _ => edge (last l "") n = true
       end.

Lemma on_track_snoc : forall l n,
  on_track l (Some n) -> follows_flow (l ++ [n]) = true.
Proof.
  intros l n (F & N). specialize (N n eq_refl).
  destruct l as [|a l].
  - subst n. reflexivity.
  - cbn [app follows_flow] in *. apply andb_true_iff in F as [F1 F2].
    rewrite F1, flow_from_snoc, F2. cbn [andb].
    now rewrite last_cons_default in N.
Qed.

Lemma loop_on_track : forall fuel cur t,
  on_track (Orchestrator.invoked t) cur ->
  follows_flow
    (Orchestrator.invoked
       (fst (Orchestrator.loop (Orchestrator.registry orc) fuel cur t))) = true.
Proof.
  induction fuel as [|f IH]; intros cur t H; cbn [Orchestrator.loop].
  - exact (proj1 H).
  - destruct (Orchestrator.truthy cur) as [name|] eqn:Ht; [| exact (proj1 H)].
    assert (cur = Some name) as ->.
    { destruct cur as [[|a s0]|]; cbn in Ht; congruence. }
    destruct (Nat.ltb _ _); [| exact (proj1 H)].
    destruct (Orchestrator.registry orc name) as [agent|] eqn:Hreg;
      [| exact (proj1 H)].
    unfold Orchestrator.invoke, Orchestrator.try_except, Orchestrator.bind,
      Orchestrator.ret.
    destruct (agent (Orchestrator.ctx t)) as [c' o] eqn:Hrun.
    pose proof Hreg as Hreg'.
    apply registry_cases in Hreg'.
    assert (exists r, o = Returns r) as [r ->].
    { destruct Hreg' as [(_ & ->) | [(_ & ->) | [(_ & ->) | [(_ & ->)
                       | [(_ & ->) | (_ & ->)]]]]];
        apply lift_returns in Hrun as (r & -> & _); eauto. }
    apply IH. cbn [Orchestrator.invoked].
    split; [now apply on_track_snoc|].
    intros m Hm. rewrite last_snoc.
    destruct (Orchestrator.invoked t ++ [name])%list eqn:E;
      [destruct (Orchestrator.invoked t); discriminate|].
    eapply next_agent_is_a_successor; eauto.
Qed.

End FlowFacts.

(** X7. Whatever the language model and the terminal do, the agents a turn
    invokes start at the Router and follow the hand-off graph: Router to
    Chat or Planner, Planner to Executor, Executor to Repair, Summary or
    (re-planning) Planner, Repair to Executor or Summary; Chat and Summary
    hand off to nobody. *)
Theorem invocations_follow_the_handoff_graph :
  forall orc user_goal stream history,
    follows_flow
      (Orchestrator.invoked
         (fst (Orchestrator.run (Orchestrator.registry orc)
                 user_goal stream history))) = true.
Proof.
  intros orc user_goal stream history. unfold Orchestrator.run.
  set (t0 := Orchestrator.mkTurn _ 0 [] None).
  pose proof (loop_on_track orc Orchestrator.max_iterations
                (Some "RouterAgent") t0) as L.
  destruct (Orchestrator.loop _ _ _ t0) as [t [u | e]]; cbn [fst] in *;
    apply L; (split; [reflexivity | intros n [= <-]; reflexivity]).
Qed.

(** ** The conversation memory *)

Section MemoryFacts.
Variable orc : Oracle.

(** What no agent changes, and how the memory grows. *)
Definition extends (c c' : AgentContext) : Prop :=
  goal c' = goal c /\ emit_cb c' = emit_cb c
  /\ exists more, memory c' = (memory c ++ more)%list.

Lemma extends_refl : forall c, extends c c.
Proof. intros c. repeat split. exists []. now rewrite app_nil_r. Qed.

Lemma extends_trans : forall a b c, extends a b -> extends b c -> extends a c.
Proof.
  intros a b c (G1 & E1 & m1 & M1) (G2 & E2 & m2 & M2).
  split; [congruence|]. split; [congruence|].
  exists (m1 ++ m2)%list. rewrite M2, M1. now rewrite app_assoc.
Qed.

Lemma same_memory_extends : forall c c',
  goal c' = goal c -> emit_cb c' = emit_cb c -> memory c' = memory c ->
  extends c c'.
Proof.
  intros c c' G E M. repeat split; auto. exists []. now rewrite app_nil_r.
Qed.

Lemma exec_iter_extends : forall c, extends c (fst (Executor.exec_iter orc c)).
Proof.
  intros c. apply same_memory_extends;
    unfold Executor.exec_iter;
    (destruct (nth_error (steps c) (current_step_idx c)) as [step|];
     [| reflexivity]);
    (destruct (command step) as [[|a cmd]|]; [ctx_simpl; reflexivity | |
                                               ctx_simpl; reflexivity]);
    (destruct (Executor._is_catastrophic (String a cmd));
     [ctx_simpl; reflexivity|]);
    unfold Executor._execute_step;
    (destruct (shell_run orc _ _ _ _) as [raw | e | e];
     [destruct (check_fatal_error (clean_output raw)) | |]);
    repeat match goal with
           | |- context [Nat.ltb ?a ?b] => destruct (Nat.ltb a b)
           end;
    ctx_simpl; reflexivity.
Qed.

Lemma exec_loop_extends : forall fuel c,
  extends c (fst (Executor.exec_loop orc fuel c)).
Proof.
  induction fuel as [|f IH]; intros c; cbn [Executor.exec_loop].
  - apply extends_refl.
  - destruct (Nat.ltb _ _); [| apply extends_refl].
    pose proof (exec_iter_extends c) as E.
    destruct (Executor.exec_iter orc c) as [c1 [res|]]; cbn [fst] in *.
    + exact E.
    + eapply extends_trans; [exact E | apply IH].
Qed.

Lemma handle_evaluation_extends : forall c ev,
  extends c (fst (Executor.handle_evaluation c ev)).
Proof.
  intros c ev. unfold Executor.handle_evaluation, extends.
  destruct (startswith "COMPLETED" ev).
  { ctx_simpl. repeat split. exists []. now rewrite app_nil_r. }
  destruct (startswith "INCOMPLETE" ev).
  2:{ ctx_simpl. repeat split. exists []. now rewrite app_nil_r. }
  destruct (String.eqb _ (last_failure_reason c));
    destruct (Nat.ltb _ _); ctx_simpl; repeat split;
    first [ eexists; reflexivity | exists []; now rewrite app_nil_r ].
Qed.

Lemma executor_run_extends : forall c, extends c (fst (Executor.run orc c)).
Proof.
  intros c. unfold Executor.run.
  pose proof (exec_loop_extends (List.length (steps c) - current_step_idx c) c) as E1.
  destruct (Executor.exec_loop orc _ c) as [c1 [res|]]; cbn [fst] in *; [exact E1|].
  assert (E2 : extends c1 (fst (Executor._evaluate_goal_completion orc c1))).
  { apply same_memory_extends; unfold Executor._evaluate_goal_completion;
      destruct (llm_complete orc (clock c1));
      repeat match goal with |- context [if ?b then _ else _] => destruct b end;
      ctx_simpl; reflexivity. }
  destruct (Executor._evaluate_goal_completion orc c1) as [c2 ev]; cbn [fst] in *.
  eapply extends_trans; [exact E1|]. eapply extends_trans; [exact E2|].
  apply handle_evaluation_extends.
Qed.

Lemma repair_run_extends : forall c, extends c (fst (Repair.run orc c)).
Proof.
  intros c. apply same_memory_extends;
    unfold Repair.run, Repair._generate_repair;
    (destruct (get_current_step c); [| reflexivity]);
    cbn [clock set_retry_count];
    (destruct (llm_complete orc (clock c)) as [sug | e];
     [destruct (Repair.parse_repair sug) |]); ctx_simpl; reflexivity.
Qed.

Lemma planner_run_extends : forall c, extends c (fst (Planner.run orc c)).
Proof.
  intros c. unfold extends, Planner.run, Planner._generate_plan,
    Planner._generate_intro, Planner.planning_failed.
  destruct (shell_start orc (clock c)).
  { ctx_simpl. repeat split. exists []. now rewrite app_nil_r. }
  cbn [clock tick].
  destruct (llm_complete orc (S (clock c))) as [plan | e].
  2:{ ctx_simpl. repeat split. exists []. now rewrite app_nil_r. }
  destruct (Repair.filter_map Planner.parse_line (splitlines plan)).
  { ctx_simpl. repeat split. exists []. now rewrite app_nil_r. }
  cbn [clock tick set_steps].
  destruct (llm_complete orc (S (S (clock c)))); ctx_simpl;
    repeat split; eexists; reflexivity.
Qed.

Lemma router_run_memory : forall c,
  goal (fst (Router.run orc c)) = goal c
  /\ emit_cb (fst (Router.run orc c)) = emit_cb c
  /\ memory (fst (Router.run orc c)) = (memory c ++ [("user", goal c)])%list.
Proof.
  intros c. unfold Router.run, Router._classify_intent.
  cbn [clock memory_append set_memory].
  destruct (llm_complete orc (clock c)) as [reply | e];
    [destruct (contains "CHAT" (upper reply)) |]; ctx_simpl; auto.
Qed.

Lemma chat_run_extends : forall c, extends c (fst (Chat.run orc c)).
Proof.
  intros c. unfold extends, Chat.run.
  destruct (llm_complete orc (clock c)); ctx_simpl; repeat split;
    first [ eexists; reflexivity | exists []; now rewrite app_nil_r ].
Qed.

Lemma summary_run_extends : forall c, extends c (fst (Summary.run orc c)).
Proof.
  intros c. unfold extends, Summary.run.
  destruct (llm_complete orc (clock c)); ctx_simpl; repeat split;
    first [ eexists; reflexivity | exists []; now rewrite app_nil_r ].
Qed.

Lemma handoff_extends : forall n agent c c' r,
  Orchestrator.registry orc n = Some agent ->
  agent c = (c', Returns r) ->
  extends c c'
  /\ (n = "RouterAgent" -> memory c' = (memory c ++ [("user", goal c)])%list).
Proof.
  intros n agent c c' r Hreg Hrun.
  apply registry_cases in Hreg.
  destruct Hreg as [(-> & ->) | [(-> & ->) | [(-> & ->) | [(-> & ->)
                   | [(-> & ->) | (-> & ->)]]]]];
    apply lift_returns in Hrun as (r' & [= <-] & Hrun).
  - pose proof (router_run_memory c) as (G & E & M). rewrite Hrun in *.
    cbn [fst] in *. split; [| auto]. repeat split; eauto.
  - pose proof (chat_run_extends c) as X. rewrite Hrun in X.
    split; [exact X | discriminate].
  - pose proof (planner_run_extends c) as X. rewrite Hrun in X.
    split; [exact X | discriminate].
  - pose proof (executor_run_extends c) as X. rewrite Hrun in X.
    split; [exact X | discriminate].
  - pose proof (repair_run_extends c) as X. rewrite Hrun in X.
    split; [exact X | discriminate].
  - pose proof (summary_run_extends c) as X. rewrite Hrun in X.
    split; [exact X | discriminate].
Qed.

Lemma reachable_memory : forall user_goal stream mem name c,
  Machine.reachable orc user_goal stream mem name c ->
  goal c = user_goal /\ emit_cb c = stream
  /\ ((name = Some "RouterAgent" /\ memory c = mem)
      \/ (name <> Some "RouterAgent"
          /\ exists rest, memory c = (mem ++ ("user", user_goal) :: rest)%list)).
Proof.
  intros user_goal stream mem name c H.
  induction H as [| name c agent c' r _ IH Hreg Hrun | c c' _ IH Hlt Hiter].
  - cbn. auto.
  - destruct IH as (G & E & M).
    pose proof (handoff_extends _ _ _ _ _ Hreg Hrun) as ((G' & E' & more & M') & R).
    split; [congruence|]. split; [congruence|]. right.
    split.
    + intros N. pose proof (next_agent_is_a_successor orc _ _ _ _ _ _ Hreg Hrun N) as Ed.
      unfold edge in Ed. cbn in Ed.
      rewrite !andb_false_r in Ed. discriminate.
    + destruct M as [([= ->] & M) | (_ & rest & M)].
      * specialize (R eq_refl). rewrite R, M, G. eauto.
      * rewrite M', M, <- app_assoc. cbn [app]. eauto.
  - destruct IH as (G & E & M).
    pose proof (exec_iter_extends c) as (G' & E' & more & M').
    rewrite Hiter in *. cbn [fst] in *.
    split; [congruence|]. split; [congruence|]. right.
    split; [discriminate|].
    destruct M as [([= ] & _) | (_ & rest & M)].
    rewrite M', M, <- app_assoc. cbn [app]. eauto.
Qed.

End MemoryFacts.

(** X6. Along a turn the goal and the stream callback never change and the
    conversation memory only grows: every hand-off leaves the old memory as
    a prefix of the new one, and from the Router's return on the memory is
    the caller's history followed by the user's message and whatever the
    agents appended. *)
Theorem memory_only_grows :
  forall orc user_goal stream mem name c,
    Machine.reachable orc user_goal stream mem name c ->
    goal c = user_goal
    /\ emit_cb c = stream
    /\ (name = Some "RouterAgent" -> memory c = mem)
    /\ (name <> Some "RouterAgent" ->
        exists rest, memory c = (mem ++ ("user", user_goal) :: rest)%list)
    /\ (forall n agent c' r,
          name = Some n ->
          Orchestrator.registry orc n = Some agent ->
          agent c = (c', Returns r) ->
          exists more, memory c' = (memory c ++ more)%list).
Proof.
  intros orc user_goal stream mem name c H.
  destruct (reachable_memory orc _ _ _ _ _ H) as (G & E & M).
  split; [exact G|]. split; [exact E|].
  split; [| split].
  - intros N. destruct M as [(_ & M) | (N' & _)]; [exact M | contradiction].
  - intros N. destruct M as [(N' & _) | (_ & M)]; [contradiction | exact M].
  - intros n agent c' r _ Hreg Hrun.
    destruct (handoff_extends orc _ _ _ _ _ Hreg Hrun) as ((_ & _ & X) & _).
    exact X.
Qed.

(** A witness of X6: the state behind the first repair. *)
Lemma memory_only_grows_witness :
  exists rest,
    memory Machine.after_first_repair
    = ([] ++ ("user", "install htop") :: rest)%list.
Proof.
  destruct (memory_only_grows Machine.flaky "install htop" None []
              (Some "ExecutorAgent") Machine.after_first_repair
              after_first_repair_reachable) as (_ & _ & _ & H & _).
  apply H. discriminate.
Defined.

(** ** The session's lock, its reads and its history *)

(** The lock along a record of actions: [Some held] when the record respects
    it (the buffer is drained and lines are sent with the lock held, the lock
    is not taken twice, reading and streaming happen with the lock free). *)
Fixpoint lock_after (held : bool) (l : list Shell.Action) : option bool :=
  match l with
  | [] => Some held
  | Shell.LockAcquire :: rest => if held then None else lock_after true rest
  | Shell.LockRelease :: rest => if held then lock_after false rest else None
  | Shell.Sendline _ :: rest => if held then lock_after true rest else None
  | Shell.Drain :: rest => if held then lock_after true rest else None
  | Shell.Expect _ :: rest => if held then None else lock_after false rest
  | Shell.Stream _ :: rest => if held then None else lock_after false rest
  end.

(** The read windows of a record lie between 0.1 s and 2 s. *)
Definition window_ok (a : Shell.Action) : Prop :=
  match a with
  | Shell.Expect w => 100 <= w <= 2000
  | _ => True
  end.

Section SessionFacts.

Lemma lock_after_app : forall a b h h',
  lock_after h a = Some h' -> lock_after h (a ++ b) = lock_after h' b.
Proof.
  induction a as [|x a IH]; intros b h h' H; cbn [app lock_after] in *.
  - now injection H as ->.
  - destruct x, h; try discriminate; eauto.
Qed.

Lemma last_skipn : forall (l : list string) n d,
  n < List.length l -> last (skipn n l) d = last l d.
Proof.
  induction l as [|x l IH]; intros [|n] d H; cbn [skipn List.length] in *;
    try lia; try reflexivity.
  rewrite IH by lia. destruct l; [cbn in H; lia | reflexivity].
Qed.

Variable pty : Shell.Pty.
Variable command : string.
Variable handler_list : list (string * string).
Variable eff_timeout : nat.
Variable on_stream : bool.

(** What the read loop does to the session: it adds actions that respect
    the lock and leave it free, with read windows in range, and touches
    nothing else. *)
Lemma read_loop_spec : forall fuel k sm chunks sm' o,
  Shell.read_loop pty command handler_list eff_timeout on_stream
                  fuel k sm chunks = Some (sm', o) ->
  Shell.child sm' = Shell.child sm
  /\ Shell.history sm' = Shell.history sm
  /\ Shell.history_limit sm' = Shell.history_limit sm
  /\ Shell.default_timeout sm' = Shell.default_timeout sm
  /\ Shell.started sm' = Shell.started sm
  /\ exists new,
       Shell.actions sm' = (Shell.actions sm ++ new)%list
       /\ lock_after false new = Some false
       /\ Forall window_ok new.
Proof.
  induction fuel as [|f IH]; intros k sm chunks sm' o; cbn [Shell.read_loop].
  - discriminate.
  - destruct (Nat.leb eff_timeout (Shell.time_at pty k - Shell.start_time pty)).
    + intros [= <- <-]. repeat split. exists [].
      rewrite app_nil_r. repeat split. constructor.
    + set (w := Nat.min (Nat.max 100 (eff_timeout
                  - (Shell.time_at pty k - Shell.start_time pty))) 2000).
      assert (Hw : window_ok (Shell.Expect w)).
      { unfold window_ok, w. split.
        - apply Nat.min_glb; [apply Nat.le_max_l | repeat constructor].
        - apply Nat.le_min_r. }
      assert (Step : forall extra sm2 chunks2,
                lock_after false extra = Some false ->
                Forall window_ok extra ->
                Shell.read_loop pty command handler_list eff_timeout on_stream
                  f (S k) sm2 chunks2 = Some (sm', o) ->
                Shell.child sm2 = Shell.child sm ->
                Shell.history sm2 = Shell.history sm ->
                Shell.history_limit sm2 = Shell.history_limit sm ->
                Shell.default_timeout sm2 = Shell.default_timeout sm ->
                Shell.started sm2 = Shell.started sm ->
                Shell.actions sm2 = (Shell.actions sm ++ Shell.Expect w :: extra)%list ->
                Shell.child sm' = Shell.child sm
                /\ Shell.history sm' = Shell.history sm
                /\ Shell.history_limit sm' = Shell.history_limit sm
                /\ Shell.default_timeout sm' = Shell.default_timeout sm
                /\ Shell.started sm' = Shell.started sm
                /\ exists new,
                     Shell.actions sm' = (Shell.actions sm ++ new)%list
                     /\ lock_after false new = Some false
                     /\ Forall window_ok new).
      { intros extra sm2 chunks2 Lx Wx E C H1 H2 H3 H4 A.
        apply IH in E as (C' & H1' & H2' & H3' & H4' & new & A' & L' & W').
        repeat split; try congruence.
        exists (Shell.Expect w :: extra ++ new)%list. repeat split.
        - rewrite A', A, <- app_assoc. reflexivity.
        - cbn [lock_after]. now rewrite (lock_after_app extra new false false Lx).
        - constructor; [exact Hw | apply Forall_app; auto]. }
      assert (Stop : forall sm2,
                sm2 = Shell.act sm [Shell.Expect w] ->
                Shell.child sm2 = Shell.child sm
                /\ Shell.history sm2 = Shell.history sm
                /\ Shell.history_limit sm2 = Shell.history_limit sm
                /\ Shell.default_timeout sm2 = Shell.default_timeout sm
                /\ Shell.started sm2 = Shell.started sm
                /\ exists new,
                     Shell.actions sm2 = (Shell.actions sm ++ new)%list
                     /\ lock_after false new = Some false
                     /\ Forall window_ok new).
      { intros sm2 ->. repeat split. exists [Shell.Expect w].
        repeat split. constructor; [exact Hw | constructor]. }
      destruct (Shell.expect_at pty k) as [idx before | | before].
      * destruct (nth_error handler_list idx) as [[pat resp]|].
        -- destruct (on_stream && negb (String.eqb (Shell.or_empty before) "")).
           ++ intros E.
              apply (Step [Shell.Stream (Shell.or_empty before); Shell.LockAcquire;
                           Shell.Sendline resp; Shell.LockRelease] _ _) in E;
                auto; try reflexivity.
              ** repeat constructor.
              ** cbn [Shell.act Shell.actions]. now rewrite <- !app_assoc.
           ++ intros E.
              apply (Step [Shell.LockAcquire; Shell.Sendline resp;
                           Shell.LockRelease] _ _) in E;
                auto; try reflexivity.
              ** repeat constructor.
              ** cbn [Shell.act Shell.actions]. now rewrite <- !app_assoc.
        -- destruct (Nat.eqb idx (List.length handler_list + 1)).
           ++ intros E. apply (Step [] _ _) in E; auto; try reflexivity.
           ++ intros [= <- <-]. now apply Stop.
      * intros E. apply (Step [] _ _) in E; auto; try reflexivity.
      * destruct before as [[|a b]|]; intros [= <- <-]; now apply Stop.
Qed.

End SessionFacts.

Lemma push_history_spec : forall sm out,
  let sm' := Shell._push_history sm out in
  Shell.child sm' = Shell.child sm
  /\ Shell.actions sm' = Shell.actions sm
  /\ Shell.history_limit sm' = Shell.history_limit sm
  /\ (out = "" -> Shell.history sm' = Shell.history sm)
  /\ (out <> "" -> 0 < Shell.history_limit sm ->
      last (Shell.history sm') "" = out)
  /\ (List.length (Shell.history sm) <= Shell.history_limit sm ->
      List.length (Shell.history sm') <= Shell.history_limit sm).
Proof.
  intros sm out. cbv zeta. unfold Shell._push_history.
  destruct (String.eqb_spec out "") as [-> | Hne].
  - repeat split; auto. congruence.
  - cbn [Shell.child Shell.actions Shell.history_limit Shell.history].
    repeat split; try congruence.
    + intros _ Hl. rewrite last_skipn.
      * apply last_snoc.
      * rewrite length_app. cbn [List.length]. lia.
    + intros Hl. rewrite length_skipn, length_app. cbn [List.length]. lia.
Qed.

(** X12. [run_command], however it ends, leaves a record of actions in which
    the buffer is drained and every line is sent with the lock held, the
    lock is never taken while held and is free at the end, and every read
    of the terminal and every call of the streaming callback happens with
    the lock free. *)
Theorem run_command_respects_the_lock :
  forall pty fuel sm command handlers timeout on_stream sm' r,
    Shell.run_command pty fuel sm command handlers timeout on_stream
    = Some (sm', r) ->
    exists new,
      Shell.actions sm' = (Shell.actions sm ++ new)%list
      /\ lock_after false new = Some false.
Proof.
  intros pty fuel sm command handlers timeout on_stream sm' r.
  unfold Shell.run_command.
  destruct (Shell.child sm) as [ch|];
    [| intros [= <- <-]; exists []; now rewrite app_nil_r].
  destruct (negb (Shell.isalive ch));
    [intros [= <- <-]; exists []; now rewrite app_nil_r|].
  set (eff := match timeout with None | Some 0 => _ | Some t => t end).
  set (hl := match handlers with Some h => h | None => [] end).
  set (w := [Shell.LockAcquire; Shell.Drain; Shell.Sendline _; Shell.LockRelease]).
  destruct (Shell.read_loop pty command hl eff on_stream fuel 0 (Shell.act sm w) [])
    as [[s o]|] eqn:E; [| discriminate].
  apply read_loop_spec in E as (_ & _ & _ & _ & _ & new & A & L & _).
  assert (G : exists new0, Shell.actions s = (Shell.actions sm ++ new0)%list
                           /\ lock_after false new0 = Some false).
  { exists (w ++ new)%list. split.
    - rewrite A. cbn [Shell.act Shell.actions]. now rewrite <- app_assoc.
    - rewrite (lock_after_app w new false false); [exact L | reflexivity]. }
  destruct o as [chunks | e]; intros [= <- <-]; [| exact G].
  destruct (push_history_spec s (Shell._clean_output (String.concat "" chunks) command))
    as (_ & -> & _). exact G.
Qed.

(** A witness of X12: a command answered at the second read. *)
Lemma run_command_respects_the_lock_witness :
  exists new,
    Shell.actions
      (fst (match Shell.run_command Machine.prompt_terminal 5 Machine.live_session
                    "uptime" None None false with
            | Some x => x
            | None => (Machine.live_session, Raised "")
            end))
    = (Shell.actions Machine.live_session ++ new)%list
    /\ lock_after false new = Some false.
Proof.
  apply (run_command_respects_the_lock Machine.prompt_terminal 5
           Machine.live_session "uptime" None None false _
           (Returns "up 1 day")).
  vm_compute. reflexivity.
Defined.

(** X13. Every read [run_command] makes of the terminal waits at least 0.1 s
    and at most 2 s, whatever deadline the caller gave. *)
Theorem run_command_reads_in_short_windows :
  forall pty fuel sm command handlers timeout on_stream sm' r,
    Shell.run_command pty fuel sm command handlers timeout on_stream
    = Some (sm', r) ->
    exists new,
      Shell.actions sm' = (Shell.actions sm ++ new)%list
      /\ forall w, In (Shell.Expect w) new -> 100 <= w <= 2000.
Proof.
  intros pty fuel sm command handlers timeout on_stream sm' r.
  unfold Shell.run_command.
  destruct (Shell.child sm) as [ch|];
    [| intros [= <- <-]; exists []; split;
       [now rewrite app_nil_r | intros w []]].
  destruct (negb (Shell.isalive ch));
    [intros [= <- <-]; exists []; split;
     [now rewrite app_nil_r | intros w []]|].
  set (eff := match timeout with None | Some 0 => _ | Some t => t end).
  set (hl := match handlers with Some h => h | None => [] end).
  set (w0 := [Shell.LockAcquire; Shell.Drain; Shell.Sendline _; Shell.LockRelease]).
  destruct (Shell.read_loop pty command hl eff on_stream fuel 0 (Shell.act sm w0) [])
    as [[s o]|] eqn:E; [| discriminate].
  apply read_loop_spec in E as (_ & _ & _ & _ & _ & new & A & _ & W).
  assert (G : exists new0, Shell.actions s = (Shell.actions sm ++ new0)%list
                           /\ forall w, In (Shell.Expect w) new0 -> 100 <= w <= 2000).
  { exists (w0 ++ new)%list. split.
    - rewrite A. cbn [Shell.act Shell.actions]. now rewrite <- app_assoc.
    - intros w Hin. apply in_app_or in Hin as [Hin | Hin].
      + unfold w0 in Hin. cbn in Hin.
        repeat (destruct Hin as [Hin | Hin]; [discriminate|]). contradiction.
      + rewrite Forall_forall in W. exact (W _ Hin). }
  destruct o as [chunks | e]; intros [= <- <-]; [| exact G].
  destruct (push_history_spec s (Shell._clean_output (String.concat "" chunks) command))
    as (_ & -> & _). exact G.
Qed.

(** A witness of X13: the same command. *)
Lemma run_command_reads_in_short_windows_witness :
  exists new,
    Shell.actions
      (fst (match Shell.run_command Machine.prompt_terminal 5 Machine.live_session
                    "uptime" None None false with
            | Some x => x
            | None => (Machine.live_session, Raised "")
            end))
    = (Shell.actions Machine.live_session ++ new)%list
    /\ forall w, In (Shell.Expect w) new -> 100 <= w <= 2000.
Proof.
  apply (run_command_reads_in_short_windows Machine.prompt_terminal 5
           Machine.live_session "uptime" None None false _
           (Returns "up 1 day")).
  vm_compute. reflexivity.
Defined.

(** X11. [run_command] never replaces the child and keeps the history within
    [history_limit] entries.  When it raises (no live shell, or the
    deadline passed) the history is unchanged, so the partial output is
    dropped; when it returns, the text returned is the newest entry of the
    history unless it is empty, in which case nothing is recorded. *)
Theorem run_command_records_what_it_returns :
  forall pty fuel sm command handlers timeout on_stream sm' r,
    Shell.run_command pty fuel sm command handlers timeout on_stream
    = Some (sm', r) ->
    Shell.child sm' = Shell.child sm
    /\ Shell.history_limit sm' = Shell.history_limit sm
    /\ (List.length (Shell.history sm) <= Shell.history_limit sm ->
        List.length (Shell.history sm') <= Shell.history_limit sm)
    /\ match r with
       | Raised _ => Shell.history sm' = Shell.history sm
       | Returns out =>
           (out = "" -> Shell.history sm' = Shell.history sm)
           /\ (out <> "" -> 0 < Shell.history_limit sm ->
               last (Shell.history sm') "" = out)
       end.
Proof.
  intros pty fuel sm command handlers timeout on_stream sm' r.
  unfold Shell.run_command.
  destruct (Shell.child sm) as [ch|] eqn:Hch;
    [| intros [= <- <-]; repeat split; auto].
  destruct (negb (Shell.isalive ch));
    [intros [= <- <-]; repeat split; auto|].
  set (eff := match timeout with None | Some 0 => _ | Some t => t end).
  set (hl := match handlers with Some h => h | None => [] end).
  set (w0 := [Shell.LockAcquire; Shell.Drain; Shell.Sendline _; Shell.LockRelease]).
  destruct (Shell.read_loop pty command hl eff on_stream fuel 0 (Shell.act sm w0) [])
    as [[s o]|] eqn:E; [| discriminate].
  apply read_loop_spec in E as (C & H & HL & _ & _ & _).
  cbn [Shell.act Shell.child Shell.history Shell.history_limit] in C, H, HL.
  destruct o as [chunks | e]; intros [= <- <-].
  - destruct (push_history_spec s
                (Shell._clean_output (String.concat "" chunks) command))
      as (P1 & _ & P3 & P4 & P5 & P6).
    rewrite P1, P3, C, HL, Hch. rewrite H, HL in *.
    repeat split; auto.
  - rewrite C, H, HL, Hch. repeat split; auto.
Qed.

(** A witness of X11: the history, full with its two-entry limit, takes the
    new output and drops the oldest. *)
Lemma run_command_records_what_it_returns_witness :
  match Shell.run_command Machine.prompt_terminal 5
          (Shell.mkShell (Some (Shell.mkChild true)) 3000 ["a"; "b"] 2 true [])
          "uptime" None None false with
  | Some (sm', r) =>
      r = Returns "up 1 day" /\ Shell.history sm' = ["b"; "up 1 day"]
      /\ last (Shell.history sm') "" = "up 1 day"
  | None => False
  end.
Proof.
  pose proof (run_command_records_what_it_returns Machine.prompt_terminal 5
                (Shell.mkShell (Some (Shell.mkChild true)) 3000 ["a"; "b"] 2 true [])
                "uptime" None None false) as H.
  destruct (Shell.run_command Machine.prompt_terminal 5 _ "uptime" None None false)
    as [[sm' r]|] eqn:E; [| vm_compute in E; discriminate E].
  specialize (H sm' r eq_refl).
  vm_compute in E. injection E as <- <-.
  destruct H as (_ & _ & _ & _ & H).
  split; [reflexivity | split; [reflexivity |]].
  apply H; [discriminate | cbn; lia].
Defined.

(** ** A step that fails *)

(** X20. When the command of the current step times out, raises, or prints
    a fatal error, the pass marks the step failed; below the retry cap it
    returns the hand-off to Repair with the index and [retry_count] as they
    were, and at the cap it returns no hand-off, moves the index past the
    step and resets [retry_count] to zero. *)
Theorem failed_step_is_repaired_below_the_cap_and_skipped_at_it :
  forall orc c step cmd,
    nth_error (steps c) (current_step_idx c) = Some step ->
    command step = Some cmd ->
    cmd <> "" ->
    Executor._is_catastrophic cmd = false ->
    (match shell_run orc (clock c) cmd (Executor._get_handlers cmd)
                     (Executor._get_timeout cmd) with
     | ShOutput raw => check_fatal_error (clean_output raw) = true
     | ShTimeout _ | ShError _ => True
     end) ->
    let c' := fst (Executor.exec_iter orc c) in
    let r := snd (Executor.exec_iter orc c) in
    option_map status (nth_error (steps c') (current_step_idx c)) = Some failed
    /\ (retry_count c < max_retries c ->
        option_map next_agent r = Some (Some "RepairAgent")
        /\ current_step_idx c' = current_step_idx c
        /\ retry_count c' = retry_count c)
    /\ (max_retries c <= retry_count c ->
        r = None
        /\ current_step_idx c' = current_step_idx c + 1
        /\ retry_count c' = 0).
Proof.
  intros orc c step cmd Hnth Hcmd Hne Hcat Hsh c' r. subst c' r.
  unfold Executor.exec_iter. rewrite Hnth, Hcmd.
  destruct cmd as [|a cmd]; [congruence|]. rewrite Hcat.
  set (i := current_step_idx c) in *.
  assert (T : Nat.eqb i i = true) by apply Nat.eqb_refl.
  unfold Executor._execute_step.
  autorewrite with ctx.
  destruct (shell_run orc (clock c) (String a cmd) _ _) as [raw | e | e];
    [rewrite Hsh | |];
    (destruct (Nat.ltb _ _) eqn:Hlt; ctx_simpl_in Hlt;
     [apply Nat.ltb_lt in Hlt | apply Nat.ltb_ge in Hlt];
     repeat (ctx_simpl; rewrite ?nth_error_update_step);
     rewrite ?T, Hnth; cbn [option_map status set_status set_error set_output];
     (split; [reflexivity|]); split; intros H;
     first [ lia | repeat split; reflexivity ]).
Qed.

(** A witness of X20: a time-out at the cap. *)
Lemma failed_step_is_repaired_below_the_cap_and_skipped_at_it_witness :
  let c' := fst (Executor.exec_iter Machine.hanging Machine.out_of_retries) in
  snd (Executor.exec_iter Machine.hanging Machine.out_of_retries) = None
  /\ current_step_idx c' = 1
  /\ retry_count c' = 0.
Proof.
  destruct (failed_step_is_repaired_below_the_cap_and_skipped_at_it
              Machine.hanging Machine.out_of_retries
              (new_step "install" "yum install -y htop") "yum install -y htop"
              eq_refl eq_refl ltac:(discriminate) eq_refl I)
    as (_ & _ & H).
  apply H. cbn. lia.
Defined.

(** ** How often the Executor calls out *)

Section CallFacts.
Variable orc : Oracle.

Lemma exec_iter_clock : forall c,
  clock c <= clock (fst (Executor.exec_iter orc c))
  /\ clock (fst (Executor.exec_iter orc c)) <= clock c + 1.
Proof.
  intros c. unfold Executor.exec_iter.
  destruct (nth_error (steps c) (current_step_idx c)) as [step|];
    [| cbn [fst]; lia].
  destruct (command step) as [[|a cmd]|]; [ctx_simpl; lia | | ctx_simpl; lia].
  destruct (Executor._is_catastrophic (String a cmd)); [ctx_simpl; lia|].
  unfold Executor._execute_step.
  destruct (shell_run orc _ _ _ _) as [raw | e | e];
    [destruct (check_fatal_error (clean_output raw)) | |];
    repeat match goal with
           | |- context [Nat.ltb ?a ?b] => destruct (Nat.ltb a b)
           end;
    ctx_simpl; lia.
Qed.

Lemma exec_loop_clock : forall fuel c,
  clock c <= clock (fst (Executor.exec_loop orc fuel c))
  /\ clock (fst (Executor.exec_loop orc fuel c))
     <= clock c + (List.length (steps c) - current_step_idx c).
Proof.
  induction fuel as [|f IH]; intros c; cbn [Executor.exec_loop].
  - cbn [fst]. lia.
  - destruct (Nat.ltb (current_step_idx c) (List.length (steps c))) eqn:Hlt;
      [| cbn [fst]; lia].
    apply Nat.ltb_lt in Hlt.
    pose proof (exec_iter_clock c) as K.
    destruct (Executor.exec_iter orc c) as [c1 [res|]] eqn:E; cbn [fst] in *.
    + lia.
    + pose proof (exec_iter_spec orc c c1 None E) as (_ & _ & L & N).
      specialize (N Hlt). specialize (IH c1). lia.
Qed.

End CallFacts.

(** X18. One run of the Executor makes at most one call out, to the
    terminal or to the language model, for each step from the index on, and
    one more for the evaluation; a run that hands off to Repair stays within
    one call for each such step. *)
Theorem executor_calls_out_once_per_step_and_once_to_evaluate : forall orc c,
  let c' := fst (Executor.run orc c) in
  let r := snd (Executor.run orc c) in
  clock c <= clock c'
  /\ clock c' <= clock c + (List.length (steps c) - current_step_idx c) + 1
  /\ (next_agent r = Some "RepairAgent" ->
      clock c' <= clock c + (List.length (steps c) - current_step_idx c)).
Proof.
  intros orc c c' r. subst c' r. unfold Executor.run.
  pose proof (exec_loop_clock orc (List.length (steps c) - current_step_idx c) c)
    as K.
  destruct (Executor.exec_loop orc _ c) as [c1 [res|]] eqn:E; cbn [fst snd] in *.
  - repeat split; lia.
  - assert (V : clock (fst (Executor._evaluate_goal_completion orc c1))
                = clock c1 + 1).
    { unfold Executor._evaluate_goal_completion.
      destruct (llm_complete orc (clock c1));
        repeat match goal with |- context [if ?b then _ else _] => destruct b end;
        ctx_simpl; lia. }
    destruct (Executor._evaluate_goal_completion orc c1) as [c2 ev].
    cbn [fst] in V.
    assert (Hh : clock (fst (Executor.handle_evaluation c2 ev)) = clock c2).
    { unfold Executor.handle_evaluation.
      repeat match goal with |- context [if ?b then _ else _] => destruct b end;
        ctx_simpl; reflexivity. }
    pose proof (handle_evaluation_spec c2 ev) as S.
    destruct (Executor.handle_evaluation c2 ev) as [c3 r3]. cbn [fst snd] in *.
    specialize (S c3 r3 eq_refl).
    destruct S as (_ & _ & _ & _ & [N | (N & _)]);
      (repeat split; try lia; intros Hr; congruence).
Qed.

(** ** Repair inside a turn *)

(** The turn of [Machine.flaky] reaches Repair behind the first failure. *)
Lemma before_first_repair_reachable :
  Machine.reachable Machine.flaky "install htop" None []
    (Some "RepairAgent") Machine.before_first_repair.
Proof.
  unfold Machine.before_first_repair.
  eapply (reach_lifted _ _ _ _ "ExecutorAgent");
    [| reflexivity | | reflexivity]; [| vm_compute; reflexivity].
  eapply (reach_lifted _ _ _ _ "PlannerAgent");
    [| reflexivity | | reflexivity]; [| vm_compute; reflexivity].
  eapply (reach_lifted _ _ _ _ "RouterAgent");
    [| reflexivity | | reflexivity]; [| vm_compute; reflexivity].
  apply Machine.reach_start.
Qed.

(** X19. Inside a turn Repair always finds a step to repair, so its exit to
    Summary is never taken: it hands back to the Executor with the index one
    past the failed step and still within the plan.  When it reports
    success, [retry_count] went up by one and the plan grew by one or two
    steps; otherwise (no usable line, or the language model raised) the plan
    is unchanged and [retry_count] is back to zero. *)
Theorem repair_in_a_turn_hands_back_to_the_executor :
  forall orc user_goal stream mem c,
    Machine.reachable orc user_goal stream mem (Some "RepairAgent") c ->
    let c' := fst (Repair.run orc c) in
    let r := snd (Repair.run orc c) in
    next_agent r = Some "ExecutorAgent"
    /\ current_step_idx c' = current_step_idx c + 1
    /\ current_step_idx c' <= List.length (steps c')
    /\ (success r = true ->
        retry_count c' = retry_count c + 1
        /\ List.length (steps c) < List.length (steps c')
        /\ List.length (steps c') <= List.length (steps c) + 2)
    /\ (success r = false ->
        steps c' = steps c /\ retry_count c' = 0).
Proof.
  intros orc user_goal stream mem c H c' r. subst c' r.
  destruct (reachable_plan_inv orc user_goal stream mem _ c H)
    as (_ & I2 & _).
  destruct (I2 eq_refl) as (s & Hs & _).
  assert (Hlt : current_step_idx c < List.length (steps c)).
  { apply nth_error_Some. congruence. }
  unfold Repair.run, get_current_step. rewrite Hs.
  unfold Repair._generate_repair. cbn [clock set_retry_count].
  destruct (llm_complete orc (clock c)) as [suggestion | e].
  - assert (L2 : List.length (Repair.parse_repair suggestion) <= 2).
    { unfold Repair.parse_repair. rewrite length_firstn. lia. }
    destruct (Repair.parse_repair suggestion) as [|s1 rest] eqn:P.
    + ctx_simpl. cbn [next_agent success].
      repeat split; try lia; try reflexivity; discriminate.
    + ctx_simpl. cbn [next_agent success].
      rewrite insert_each_spec by (ctx_simpl; lia).
      rewrite !length_app, length_firstn, length_skipn. ctx_simpl.
      cbn [List.length] in *.
      repeat split; try lia; try reflexivity; discriminate.
  - ctx_simpl. cbn [next_agent success].
    repeat split; try lia; try reflexivity; discriminate.
Qed.

(** A witness of X19: the first repair of the turn of [Machine.flaky]. *)
Lemma repair_in_a_turn_hands_back_to_the_executor_witness :
  next_agent (snd (Repair.run Machine.flaky Machine.before_first_repair))
  = Some "ExecutorAgent"
  /\ current_step_idx (fst (Repair.run Machine.flaky Machine.before_first_repair))
     = current_step_idx Machine.before_first_repair + 1.
Proof.
  destruct (repair_in_a_turn_hands_back_to_the_executor Machine.flaky
              "install htop" None [] Machine.before_first_repair
              before_first_repair_reachable) as (N & I & _).
  split; [exact N | exact I].
Defined.

(** ** The error text of a command that fails by its output *)

Section ErrorTextFacts.

Lemma string_snoc : forall s,
  s <> "" -> exists pre c, s = pre ++ String c "".
Proof.
  induction s as [|d s IH]; [congruence|]. intros _.
  destruct s as [|e s'].
  - exists "", d. reflexivity.
  - destruct IH as (pre & c & E); [discriminate|].
    exists (String d pre), c. cbn [append]. now rewrite <- E.
Qed.

Lemma rstrip_by_nonempty : forall (p : ascii -> bool) x k b,
  p k = false -> rstrip_by p (x ++ String k b) <> "".
Proof.
  induction x as [|a x IH]; intros k b H; cbn [append rstrip_by].
  - destruct (rstrip_by p b); [rewrite H|]; discriminate.
  - specialize (IH k b H).
    destruct (rstrip_by p (x ++ String k b)); [congruence | discriminate].
Qed.

Lemma strip_by_nonempty : forall (p : ascii -> bool) x k b,
  p k = false -> strip_by p (x ++ String k b) <> "".
Proof.
  intros p x k b H. unfold strip_by.
  induction x as [|a x IH]; cbn [append lstrip_by].
  - rewrite H. exact (rstrip_by_nonempty p "" k b H).
  - destruct (p a); [exact IH|].
    exact (rstrip_by_nonempty p (String a x) k b H).
Qed.

Lemma map_str_split : forall f a k b t,
  map_str f t = a ++ String k b ->
  exists a' k' b', t = a' ++ String k' b' /\ f k' = k.
Proof.
  induction a as [|x a IH]; intros k b t H; destruct t as [|d t];
    cbn in H; try discriminate.
  - injection H as H1 H2. exists "", d, t. split; [reflexivity | exact H1].
  - injection H as H1 H2.
    destruct (IH _ _ _ H2) as (a' & k' & b' & -> & E).
    exists (String d a'), k', b'. split; [reflexivity | exact E].
Qed.

Lemma isspace_lower_char : forall c, isspace c = true -> lower_char c = c.
Proof.
  intros [[] [] [] [] [] [] [] []]; vm_compute; intros H;
    first [reflexivity | discriminate].
Qed.

Lemma linebreak_isspace : forall c, is_linebreak c = true -> isspace c = true.
Proof.
  intros [[] [] [] [] [] [] [] []]; vm_compute; intros H;
    first [reflexivity | discriminate].
Qed.

(** A line that holds an error keyword holds a character that is not white
    space. *)
Lemma keyword_line_has_text : forall line,
  existsb (fun kw => contains kw (lower line)) Prompts.error_keywords = true ->
  strip line <> "".
Proof.
  intros line H. apply existsb_exists in H as (kw & Hin & Hc).
  apply contains_split in Hc as (a & b & E).
  assert (K : exists k kw', kw = String k kw' /\ isspace k = false).
  { cbn in Hin.
    repeat (destruct Hin as [<- | Hin]; [eexists _, _; split; reflexivity |]).
    contradiction. }
  destruct K as (k & kw' & -> & Hk). cbn [append] in E.
  unfold lower in E. apply map_str_split in E as (a' & k' & b' & -> & Ek).
  apply strip_by_nonempty.
  destruct (isspace k') eqn:S; [| reflexivity].
  pose proof (isspace_lower_char k' S) as L. congruence.
Qed.

(** The last line of a text that ends in a character which breaks no line
    ends in that character. *)
Lemma splitlines_from_last : forall n s line c,
  String.length s < n -> is_linebreak c = false ->
  exists ls pre,
    splitlines_from line (s ++ String c "")
    = (ls ++ [(pre ++ String c "")%string])%list.
Proof.
  induction n as [|n IH]; intros s line c Hn Hc; [lia|].
  destruct s as [|d s]; cbn [append splitlines_from].
  - rewrite Hc. exists [], line. cbn [app].
    destruct (line ++ String c "") eqn:E; [destruct line; discriminate | reflexivity].
  - cbn [String.length] in Hn. destruct (is_linebreak d) eqn:Ed.
    + destruct s as [|e s']; cbn [append].
      * assert (X : Ascii.eqb d CR && Ascii.eqb c LF = false).
        { destruct (Ascii.eqb c LF) eqn:X; [| apply andb_false_r].
          apply Ascii.eqb_eq in X. subst c. discriminate Hc. }
        rewrite X.
        destruct (IH "" "" c) as (ls & pre & E); [cbn; lia | exact Hc |].
        cbn [append] in E. rewrite E. exists (line :: ls), pre. reflexivity.
      * cbn [String.length] in Hn. destruct (Ascii.eqb d CR && Ascii.eqb e LF).
        -- destruct (IH s' "" c) as (ls & pre & E); [lia | exact Hc |].
           rewrite E. exists (line :: ls), pre. reflexivity.
        -- destruct (IH (String e s') "" c) as (ls & pre & E);
             [cbn; lia | exact Hc |].
           cbn [append] in E. rewrite E. exists (line :: ls), pre. reflexivity.
    + destruct (IH s (line ++ String d "") c) as (ls & pre & E);
        [lia | exact Hc |].
      rewrite E. exists ls, pre. reflexivity.
Qed.

Lemma append_nonempty_r : forall a b : string, b <> "" -> a ++ b <> "".
Proof. intros [|c a] b H; cbn [append]; [exact H | discriminate]. Qed.

Lemma join_snoc_nonempty : forall sep xs (l : string),
  l <> "" -> join sep (xs ++ [l]) <> "".
Proof.
  intros sep xs l H. induction xs as [|x xs IH]; cbn [app join]; [exact H|].
  destruct (xs ++ [l])%list as [|y ys] eqn:Q; [destruct xs; discriminate|].
  apply append_nonempty_r, append_nonempty_r. exact IH.
Qed.

Lemma extract_error_message_nonempty : forall output,
  strip output <> "" -> Prompts.extract_error_message output <> "".
Proof.
  intros output H. unfold Prompts.extract_error_message. cbv zeta.
  destruct (string_snoc _ H) as (pre & c & E).
  assert (Hc : isspace c = false).
  { exact (proj2 (strip_by_trimmed isspace output) pre c E). }
  assert (Hl : is_linebreak c = false).
  { destruct (is_linebreak c) eqn:L; [| reflexivity].
    apply linebreak_isspace in L. congruence. }
  rewrite E. unfold splitlines.
  destruct (splitlines_from_last (S (String.length pre)) pre "" c)
    as (ls & l & EL); [lia | exact Hl |].
  rewrite EL.
  destruct (find _ _) as [line|] eqn:F.
  - apply find_some in F as (_ & F). apply keyword_line_has_text in F.
    destruct (strip line); [congruence | cbn [take]; discriminate].
  - unfold Prompts.last3. rewrite length_app. cbn [List.length].
    rewrite skipn_app.
    replace (List.length ls + 1 - 3 - List.length ls) with 0 by lia.
    cbn [skipn].
    pose proof (join_snoc_nonempty (String LF "")
                  (skipn (List.length ls + 1 - 3) ls) (l ++ String c "")) as J.
    destruct (join _ _); [| cbn [take]; discriminate].
    exfalso. apply J; [destruct l; discriminate | reflexivity].
Qed.

End ErrorTextFacts.

(** X21. When the sanitized output of a command shows a fatal error, the
    step ends the pass failed, with that output stored and with the text
    [extract_error_message] picks from it as its error; that text is never
    empty, so Repair is always given an error to work on. *)
Theorem step_failed_by_its_output_carries_an_error_text :
  forall orc c step cmd raw,
    nth_error (steps c) (current_step_idx c) = Some step ->
    command step = Some cmd ->
    cmd <> "" ->
    Executor._is_catastrophic cmd = false ->
    shell_run orc (clock c) cmd (Executor._get_handlers cmd)
              (Executor._get_timeout cmd) = ShOutput raw ->
    check_fatal_error (clean_output raw) = true ->
    exists s,
      nth_error (steps (fst (Executor.exec_iter orc c))) (current_step_idx c)
      = Some s
      /\ status s = failed
      /\ output s = clean_output raw
      /\ error s = extract_error_message (clean_output raw)
      /\ error s <> "".
Proof.
  intros orc c step cmd raw Hnth Hcmd Hne Hcat Hsh Hfatal.
  assert (Hmsg : extract_error_message (clean_output raw) <> "").
  { apply extract_error_message_nonempty.
    destruct (clean_output raw) as [|k rest] eqn:E.
    - vm_compute in Hfatal. discriminate.
    - apply (strip_by_nonempty isspace "" k rest).
      unfold clean_output, strip in E.
      exact (proj1 (strip_by_trimmed isspace _) k rest E). }
  unfold Executor.exec_iter. rewrite Hnth, Hcmd.
  destruct cmd as [|a cmd]; [congruence|]. rewrite Hcat.
  set (i := current_step_idx c) in *.
  assert (T : Nat.eqb i i = true) by apply Nat.eqb_refl.
  unfold Executor._execute_step.
  autorewrite with ctx. rewrite Hsh, Hfatal.
  destruct (Nat.ltb _ _); cbn [fst];
    repeat (ctx_simpl; rewrite ?nth_error_update_step);
    rewrite ?T, Hnth; cbn [option_map];
    (eexists; split; [reflexivity |]);
    cbn [status output error set_status set_error set_output];
    repeat split; auto.
Qed.

(** A witness of X21: [yum] is missing on the terminal of [Machine.flaky]. *)
Lemma step_failed_by_its_output_carries_an_error_text_witness :
  exists s,
    nth_error (steps (fst (Executor.exec_iter Machine.flaky Machine.yum_planned)))
              (current_step_idx Machine.yum_planned)
    = Some s
    /\ status s = failed
    /\ output s = clean_output "bash: yum: command not found"
    /\ error s = extract_error_message (clean_output "bash: yum: command not found")
    /\ error s <> "".
Proof.
  apply (step_failed_by_its_output_carries_an_error_text Machine.flaky
           Machine.yum_planned (new_step "install" "yum install -y htop")
           "yum install -y htop" "bash: yum: command not found").
  - reflexivity.
  - reflexivity.
  - discriminate.
  - vm_compute. reflexivity.
  - reflexivity.
  - vm_compute. reflexivity.
Defined.
